(** * The blog bootstrap pipeline of yaswine: a shallow embedding

    The development follows [scripts/init-blog.sh] (the placeholder
    pipeline: palette choice, asset provisioning, page materialisation,
    policy pages, palette patch of the post template), the script
    [scripts/bootstrap-template.sh] it calls first, and the older
    theme-config variant of [init-blog.sh] that writes [theme.config.js].

    Conventions of the embedding.
    - A text is a list of characters.  Characters are the code points
      below 256; all placeholders, legacy strings and patterns of the
      scripts are ASCII.  The shell tools work in the C locale: a range
      such as [a-z] is a range of codes.
    - The site directory is a finite map from root-relative file paths to
      file contents.  Directories are implicit and only regular files are
      modelled; a file name holds no newline.  Reading a text file
      translates the line ends as Python's text mode does; every text is
      valid in the encoding it is read in, so that
      [read_text(errors='ignore')] drops nothing.
    - A run in which a file operation fails (a directory with the name of
      a page, a regular file where a directory is needed, a text that
      cannot be decoded, a missing permission) is not followed: the model
      carries on as if the operation had succeeded, and may report the
      exit status 0 where the program stops with a traceback.  The
      theorems about the pages of a run take its exit status 0 as a
      hypothesis.
    - What the outside world decides (the API credential, the answers of
      the image service, the ImageMagick tool, the date, the search tool)
      is a record of inputs to the run. *)

From Stdlib Require Import Ascii String List Bool Arith ZArith Lia DecimalString.
From stdpp Require Import gmap strings list fin_maps.

Set Default Proof Using "Type".

(* ===================================================================== *)
(** * Texts *)
(* ===================================================================== *)

Module Text.

Definition text := list ascii.

(** Literals are written [T "..."]. *)
Definition T (s : string) : text := list_ascii_of_string s.

(** File names are looked up as strings. *)
Definition path_of (t : text) : string := string_of_list_ascii t.

Definition nl : ascii := ascii_of_nat 10.
Definition cr : ascii := ascii_of_nat 13.
Definition dquote : ascii := ascii_of_nat 34.

(** [Q] reads a literal in which every backquote stands for a double
    quote; none of the transcribed literals contains a backquote. *)
Definition Q (s : string) : text :=
  map (fun c => if Ascii.eqb c "`"%char then dquote else c) (T s).

(** [k] is a prefix of [s] ([str.startswith], a literal match at the
    current position). *)
Fixpoint starts_with (k s : text) : bool :=
  match k, s with
  | [], _ => true
  | _ :: _, [] => false
  | a :: k', b :: s' => Ascii.eqb a b && starts_with k' s'
  end.

(** [k] occurs in [s] (Python's [k in s], a fixed-string search). *)
Fixpoint occurs (k s : text) : bool :=
  starts_with k s ||
  match s with
  | [] => false
  | _ :: s' => occurs k s'
  end.

Definition ends_with (k s : text) : bool := starts_with (rev k) (rev s).

(** ** Left-to-right substitution

    [str.replace], [re.sub] and sed's [s/../../g] all scan the text from
    the left; at a position where the pattern matches they emit the
    replacement and resume after the match, otherwise they copy one
    character.  A matcher looks at the rest of the text and answers with
    the replacement and the number of characters consumed beyond the
    first (none of the patterns of the scripts matches the empty text). *)

Definition matcher := text -> option (text * nat).

Fixpoint scan (m : matcher) (skip : nat) (s : text) : text :=
  match s with
  | [] => []
  | c :: s' =>
      match skip with
      | S n => scan m n s'
      | O =>
          match m s with
          | Some (out, n) => out ++ scan m n s'
          | None => c :: scan m 0 s'
          end
      end
  end.

Definition literal (old new : text) : matcher :=
  fun s => if starts_with old s then Some (new, Nat.pred (length old)) else None.

(** Python's [s.replace(old, new)].  For an empty [old] Python puts [new]
    before every character and at the end. *)
Definition str_replace (old new s : text) : text :=
  match old with
  | [] => new ++ flat_map (fun c => c :: new) s
  | _ :: _ => scan (literal old new) 0 s
  end.

(** ** Character classes *)

Definition code (c : ascii) : nat := nat_of_ascii c.

Definition is_upper (c : ascii) : bool := (65 <=? code c) && (code c <=? 90).
Definition is_lower (c : ascii) : bool := (97 <=? code c) && (code c <=? 122).
Definition is_digit (c : ascii) : bool := (48 <=? code c) && (code c <=? 57).

(** One character of [tr '[:upper:]' '[:lower:]'] and of [str.upper] on
    ASCII text. *)
Definition to_lower (c : ascii) : ascii :=
  if is_upper c then ascii_of_nat (code c + 32) else c.
Definition to_upper (c : ascii) : ascii :=
  if is_lower c then ascii_of_nat (code c - 32) else c.

Definition is_hex (c : ascii) : bool :=
  is_digit c
  || ((97 <=? code c) && (code c <=? 102))
  || ((65 <=? code c) && (code c <=? 70)).

(** Python's [\s] and the characters [str.strip] drops, on the code
    points below 256. *)
Definition is_space (c : ascii) : bool :=
  ((9 <=? code c) && (code c <=? 13))
  || ((28 <=? code c) && (code c <=? 32))
  || (code c =? 133) || (code c =? 160).

(** The white space [int] accepts around a number: the four separators
    28 to 31 are white space for [str.strip] but not for [int]. *)
Definition is_int_space (c : ascii) : bool :=
  ((9 <=? code c) && (code c <=? 13))
  || (code c =? 32) || (code c =? 133) || (code c =? 160).

Definition mem (c : ascii) (s : text) : bool := existsb (Ascii.eqb c) s.

(** [v] is inert for a non-empty [k]: [v] is not empty, holds neither the
    first nor the last character of [k], and is not a part of [k].
    Splicing such a [v] into a text cannot create an occurrence of [k]. *)
Definition inert (k v : text) : bool :=
  negb (match v with [] => true | _ => false end)
  && match hd_error k with Some c => negb (mem c v) | None => false end
  && match last k with Some c => negb (mem c v) | None => false end
  && negb (occurs v k).

(** [v] shares no border with [k]: neither is a part of the other, no
    end of [k] begins [v] and no beginning of [k] ends [v].  This is the
    exact condition under which splicing [v] into a text cannot create an
    occurrence of [k]; an inert [v] satisfies it. *)
Definition apart (k v : text) : bool :=
  negb (occurs v k) && negb (occurs k v)
  && forallb (fun i => negb (starts_with (drop i k) v)
                       && negb (ends_with (take i k) v))
       (seq 1 (length k - 1)).

(** Splicing [v] into a text makes no occurrence of [k]: an occurrence
    of [k] in [x ++ v ++ y] lies within [x] or within [y]. *)
Definition seamless (k v : text) : Prop :=
  forall x y a b,
    x ++ v ++ y = a ++ k ++ b ->
    (exists u, x = a ++ k ++ u) \/ (exists w, a = x ++ v ++ w /\ y = w ++ k ++ b).

End Text.

Import Text.

(* ===================================================================== *)
(** * Shell utilities used by the scripts *)
(* ===================================================================== *)

Module Bash.

(** What [echo "$X"] writes: the argument and a newline.  A lone argument
    made of a dash and one or more of the letters n, e, E is an option of
    the builtin, not text; with [n] among them not even the newline is
    written. *)
Definition echo_option (x : text) : bool :=
  match x with
  | "-"%char :: (_ :: _) as flags =>
      forallb (fun c => mem c (T "neE")) flags
  | _ => false
  end.

Definition echo (x : text) : text :=
  if echo_option x then (if mem "n"%char x then [] else [nl])
  else x ++ [nl].

(** Command substitution [$(...)] drops every trailing newline. *)
Fixpoint strip_newlines_front (s : text) : text :=
  match s with
  | c :: s' => if Ascii.eqb c nl then strip_newlines_front s' else s
  | [] => []
  end.

Definition command_subst (s : text) : text := rev (strip_newlines_front (rev s)).

(** [tr '[:upper:]' '[:lower:]'] *)
Definition tr_upper_lower (s : text) : text := map to_lower s.

(** The lines a line-oriented tool reads: the text is cut at every
    newline.  The piece after the last newline is listed even when it is
    empty; an empty piece matches none of the patterns used here. *)
Fixpoint lines_from (cur : text) (s : text) : list text :=
  match s with
  | [] => [rev cur]
  | c :: s' =>
      if Ascii.eqb c nl then rev cur :: lines_from [] s'
      else lines_from (c :: cur) s'
  end.

Definition lines (s : text) : list text := lines_from [] s.

(** The lines sed prints back: every line of the input that is ended by a
    newline, and a last unterminated one when it is not empty. *)
Definition sed_lines (s : text) : list text :=
  match rev (lines s) with
  | [] :: front => rev front
  | _ => lines s
  end.

(** [grep -Eq 'a|b|c']: succeeds when some line holds one of the
    alternatives (all literal here). *)
Definition grep_Eq (alts : list text) (input : text) : bool :=
  existsb (fun line => existsb (fun alt => occurs alt line) alts) (lines input).

(** The four substitutions of the slug pipeline, on one line:
    [s/[^a-z0-9]/-/g; s/--*/-/g; s/^-//; s/-$//].  The first maps every
    other character to a dash, the second squeezes each run of dashes to
    one, the last two drop a dash at either end. *)
Definition slug_char (c : ascii) : ascii :=
  if is_lower c || is_digit c then c else "-"%char.

Fixpoint squeeze_dashes (s : text) : text :=
  match s with
  | a :: s' =>
      match s' with
      | b :: _ =>
          if Ascii.eqb a "-"%char && Ascii.eqb b "-"%char
          then squeeze_dashes s'
          else a :: squeeze_dashes s'
      | [] => [a]
      end
  | [] => []
  end.

Definition drop_leading_dash (s : text) : text :=
  match s with
  | "-"%char :: s' => s'
  | _ => s
  end.

Definition drop_trailing_dash (s : text) : text :=
  rev (drop_leading_dash (rev s)).

Definition slug_line (l : text) : text :=
  drop_trailing_dash (drop_leading_dash (squeeze_dashes (map slug_char l))).

(** sed prints each line it has rewritten, with its newline. *)
Definition sed_slug (input : text) : text :=
  flat_map (fun l => slug_line l ++ [nl]) (sed_lines input).

(** The replacement part of [sed "s/PATTERN/$VALUE/g"] with the value of a
    shell variable pasted in.  An ampersand stands for the matched text.
    A slash, a backslash or a newline in the value changes how sed reads
    the command itself; such values are outside the modelled fragment. *)
Definition sed_rhs_plain (v : text) : bool :=
  negb (mem "/"%char v) && negb (mem "\"%char v) && negb (mem nl v).

Definition sed_rhs (v matched : text) : text :=
  flat_map (fun c => if Ascii.eqb c "&"%char then matched else [c]) v.

Definition sed_s_g (pat v s : text) : text :=
  match pat with
  | [] => s
  | _ :: _ => scan (literal pat (sed_rhs v pat)) 0 s
  end.

End Bash.

(* ===================================================================== *)
(** * scripts/init-blog.sh: arguments, slug, palette, environment *)
(* ===================================================================== *)

Module InitBlog.

Record args := {
  DOMAIN : text;
  BRAND : text;
  TOPIC : text;
  SPEED : text;
  SUBSCRIBE_EMAIL : text
}.

Definition initial_args : args :=
  {| DOMAIN := []; BRAND := []; TOPIC := []; SPEED := T "26";
     SUBSCRIBE_EMAIL := [] |}.

Definition set_flag (flag v : text) (a : args) : option args :=
  if decide (flag = T "--domain") then
    Some {| DOMAIN := v; BRAND := BRAND a; TOPIC := TOPIC a; SPEED := SPEED a;
            SUBSCRIBE_EMAIL := SUBSCRIBE_EMAIL a |}
  else if decide (flag = T "--brand") then
    Some {| DOMAIN := DOMAIN a; BRAND := v; TOPIC := TOPIC a; SPEED := SPEED a;
            SUBSCRIBE_EMAIL := SUBSCRIBE_EMAIL a |}
  else if decide (flag = T "--topic") then
    Some {| DOMAIN := DOMAIN a; BRAND := BRAND a; TOPIC := v; SPEED := SPEED a;
            SUBSCRIBE_EMAIL := SUBSCRIBE_EMAIL a |}
  else if decide (flag = T "--speed") then
    Some {| DOMAIN := DOMAIN a; BRAND := BRAND a; TOPIC := TOPIC a; SPEED := v;
            SUBSCRIBE_EMAIL := SUBSCRIBE_EMAIL a |}
  else if decide (flag = T "--subscribe-email") then
    Some {| DOMAIN := DOMAIN a; BRAND := BRAND a; TOPIC := TOPIC a;
            SPEED := SPEED a; SUBSCRIBE_EMAIL := v |}
  else None.

(** The [while/case] loop.  [None] is [exit 1]: an unknown argument, or a
    flag that is the last word, where [shift 2] fails under [set -e]. *)
Fixpoint parse_args (argv : list text) (a : args) : option args :=
  match argv with
  | [] => Some a
  | flag :: rest =>
      match set_flag flag (match rest with v :: _ => v | [] => [] end) a with
      | None => None
      | Some a' =>
          match rest with
          | [] => None
          | _ :: rest' => parse_args rest' a'
          end
      end
  end.

Definition is_empty (s : text) : bool :=
  match s with [] => true | _ => false end.

(** The usage check and the default of the subscribe address. *)
Definition validate (a : args) : option args :=
  if is_empty (DOMAIN a) || is_empty (BRAND a) || is_empty (TOPIC a) then None
  else if is_empty (SUBSCRIBE_EMAIL a) then
    Some {| DOMAIN := DOMAIN a; BRAND := BRAND a; TOPIC := TOPIC a;
            SPEED := SPEED a; SUBSCRIBE_EMAIL := T "info@" ++ DOMAIN a |}
  else Some a.

Definition read_args (argv : list text) : option args :=
  match parse_args argv initial_args with
  | Some a => validate a
  | None => None
  end.

(** [SLUG=$(echo "$BRAND" | tr ... | sed ...)], then the fallback. *)
Definition slug (brand : text) : text :=
  let s := Bash.command_subst
             (Bash.sed_slug (Bash.tr_upper_lower (Bash.echo brand))) in
  if is_empty s then T "site" else s.

Definition logo_file_name (brand : text) : text := T "logo-" ++ slug brand ++ T ".png".
Definition hero_file_name (brand : text) : text := T "hero-" ++ slug brand ++ T ".png".

(** ** Palette *)

Record palette := {
  BG0 : text; BG1 : text; BG2 : text;
  ACCENT : text; ACCENT_HOVER : text;
  RAD1 : text; RAD2 : text; RAD3 : text
}.

Definition wine_palette : palette :=
  {| BG0 := T "#12070c"; BG1 := T "#2a0d16"; BG2 := T "#4f1424";
     ACCENT := T "#b63a5a"; ACCENT_HOVER := T "#962f49";
     RAD1 := T "rgba(144,22,56,.45)"; RAD2 := T "rgba(188,88,116,.28)";
     RAD3 := T "rgba(92,16,37,.42)" |}.

Definition default_palette : palette :=
  {| BG0 := T "#0a0514"; BG1 := T "#1a0a2e"; BG2 := T "#2d1b4e";
     ACCENT := T "#8b5cf6"; ACCENT_HOVER := T "#7c3aed";
     RAD1 := T "rgba(139, 92, 246, 0.40)"; RAD2 := T "rgba(168, 85, 247, 0.30)";
     RAD3 := T "rgba(217, 70, 239, 0.30)" |}.

(** [TOPIC_LC=$(echo "$TOPIC" | tr '[:upper:]' '[:lower:]')] *)
Definition topic_lc (topic : text) : text :=
  Bash.command_subst (Bash.tr_upper_lower (Bash.echo topic)).

Definition wine_words : list text := [T "wine"; T "vino"; T "vin"].

(** [echo "$TOPIC_LC" | grep -Eq 'wine|vino|vin'], as the condition of
    an [if] under [set -o pipefail]: the branch is taken when grep finds
    a line and echo is not cut short.  grep stops reading at the first
    line it finds, and bash writes what it echoes line by line; when
    lines are left to write by then, echo is killed by SIGPIPE and the
    condition fails although a line was found.  [is_wine_topic] is what
    grep finds.  It is the condition of the script when the lower-cased
    topic is one line ([one_line]): grep then finds nothing before echo
    has written its last character. *)
Definition is_wine_topic (topic : text) : bool :=
  Bash.grep_Eq wine_words (Bash.echo (topic_lc topic)).

Definition one_line (topic : text) : bool := negb (mem nl (topic_lc topic)).

Definition palette_for (topic : text) : palette :=
  if is_wine_topic topic then wine_palette else default_palette.

(** ** The exported environment *)

Record env := {
  INIT_DOMAIN : text; INIT_BRAND : text; INIT_TOPIC : text;
  INIT_SPEED : text; INIT_SUBSCRIBE_EMAIL : text;
  INIT_LOGO_FILE : text; INIT_HERO_FILE : text;
  INIT_BG0 : text; INIT_BG1 : text; INIT_BG2 : text;
  INIT_ACCENT : text; INIT_ACCENT_HOVER : text;
  INIT_RAD1 : text; INIT_RAD2 : text; INIT_RAD3 : text
}.

Definition export (a : args) : env :=
  let p := palette_for (TOPIC a) in
  {| INIT_DOMAIN := DOMAIN a; INIT_BRAND := BRAND a; INIT_TOPIC := TOPIC a;
     INIT_SPEED := SPEED a; INIT_SUBSCRIBE_EMAIL := SUBSCRIBE_EMAIL a;
     INIT_LOGO_FILE := logo_file_name (BRAND a);
     INIT_HERO_FILE := hero_file_name (BRAND a);
     INIT_BG0 := BG0 p; INIT_BG1 := BG1 p; INIT_BG2 := BG2 p;
     INIT_ACCENT := ACCENT p; INIT_ACCENT_HOVER := ACCENT_HOVER p;
     INIT_RAD1 := RAD1 p; INIT_RAD2 := RAD2 p; INIT_RAD3 := RAD3 p |}.

End InitBlog.

(* ===================================================================== *)
(** * The site directory and the outside world *)
(* ===================================================================== *)

Module Site.

(** Root-relative path |-> content. *)
Abbreviation files := (gmap string text).

Definition has_suffix (suffix : string) (p : string) : bool :=
  ends_with (T suffix) (list_ascii_of_string p).

(** [Path.rglob('*.html')]: every file whose name ends in [.html]. *)
Definition is_html (p : string) : bool := has_suffix ".html" p.

(** [Path.read_text]: the file is opened in text mode, where a carriage
    return, with the newline that follows it if there is one, is read as
    one newline.  [Path.write_text] writes a newline as it is. *)
Definition line_end : matcher :=
  fun s =>
    match s with
    | c :: rest =>
        if Ascii.eqb c cr then
          Some ([nl], match rest with
                      | d :: _ => if Ascii.eqb d nl then 1 else 0
                      | [] => 0
                      end)
        else None
    | [] => None
    end.

Definition read_text (s : text) : text := scan line_end 0 s.

(** What a run cannot decide by itself. *)
Record world := {
  (** [GEMINI_API_KEY] or [GOOGLE_API_KEY], stripped; empty when unset *)
  api_key : text;
  (** the image [gen] returns for the logo prompt, [None] when it raises
      (network error, HTTP error status, no image in the response) *)
  logo_answer : option text;
  hero_answer : option text;
  (** [command -v convert] *)
  convert_installed : bool;
  (** first six characters [convert] prints for the top-left pixel of an
      image, empty when the tool fails *)
  convert_bg_hex : text -> text;
  (** the image with that colour made transparent, [None] when the tool
      fails and leaves the file as it was *)
  convert_transparent : text -> text -> option text;
  (** [date +%F] *)
  today : text;
  (** the files the search of [bootstrap-template.sh] reports on: all of
      them with find and grep, those ripgrep does not skip otherwise *)
  search_visits : string -> bool
}.

End Site.

Import Site.

(* ===================================================================== *)
(** * The Python program of scripts/init-blog.sh *)
(* ===================================================================== *)

Module InitPy.

Import InitBlog.

Inductive message :=
| logo_generated            (* [ok] logo generated *)
| logo_generation_failed    (* [warn] logo generation failed: ... *)
| hero_generated            (* [ok] hero generated *)
| hero_generation_failed    (* [warn] hero generation failed: ... *)
| placeholders_applied.     (* [ok] html placeholders applied *)

Definition is_warning (m : message) : bool :=
  match m with
  | logo_generation_failed | hero_generation_failed => true
  | _ => false
  end.

Inductive ending :=
| Finished
| SystemExit (msg : text)
| ValueError.

Record result := {
  how : ending;
  site : files;
  printed : list message
}.

(** ** Asset provisioning (from [if key:] to the canonical copies) *)

Definition logo_path (e : env) : string := path_of (INIT_LOGO_FILE e).
Definition hero_path (e : env) : string := path_of (INIT_HERO_FILE e).

(** One [try: ... gen ... write_bytes ... except Exception] block. *)
Definition try_generate (answer : option text) (target : string)
    (ok warn : message) (st : files * list message) : files * list message :=
  match answer with
  | Some image => (<[target := image]> (fst st), snd st ++ [ok])
  | None => (fst st, snd st ++ [warn])
  end.

Definition generate_assets (e : env) (w : world) (fs : files)
    : files * list message :=
  if InitBlog.is_empty (api_key w) then (fs, [])
  else
    try_generate (hero_answer w) (hero_path e) hero_generated hero_generation_failed
      (try_generate (logo_answer w) (logo_path e) logo_generated
         logo_generation_failed (fs, [])).

(** [if not target.exists() and source.exists(): target.write_bytes(source.read_bytes())] *)
Definition copy_if_missing (source target : string) (fs : files) : files :=
  match fs !! target, fs !! source with
  | None, Some b => <[target := b]> fs
  | _, _ => fs
  end.

(** [if source.exists(): target.write_bytes(source.read_bytes())] *)
Definition copy_if_present (source target : string) (fs : files) : files :=
  match fs !! source with
  | Some b => <[target := b]> fs
  | None => fs
  end.

Definition canonicalize (e : env) (fs : files) : files :=
  let fs := copy_if_missing "logo.png" (logo_path e) fs in
  let fs := copy_if_missing "hero_ai.jpg" (hero_path e) fs in
  let fs := copy_if_present (logo_path e) "logo.png" fs in
  copy_if_present (hero_path e) "hero_ai.jpg" fs.

(** The four files provisioning may write. *)
Definition asset_paths (e : env) : list string :=
  [logo_path e; hero_path e; "logo.png"; "hero_ai.jpg"]%string.

Definition provision (e : env) (w : world) (fs : files) : files * list message :=
  let st := generate_assets e w fs in
  (canonicalize e (fst st), snd st).

(** ** Page materialisation *)

Definition home_shell : string := "universal_blog_shell.html".
Definition blog_shell : string := "universal_blog_index.html".

Definition blog_pages : list string :=
  ["blog/index.html"; "ru/blog/index.html"; "es/blog/index.html";
   "de/blog/index.html"; "fr/blog/index.html"]%string.

(** [p.write_text(blog_shell.read_text())] for one listing page. *)
Definition write_blog_page (fs : files) (rel : string) : files :=
  match fs !! blog_shell with
  | Some b => <[rel := read_text b]> fs
  | None => fs
  end.

(** The two existence checks, the home page and the listing pages.
    [inl msg] is [raise SystemExit(msg)]. *)
Definition materialize (fs : files) : text + files :=
  match fs !! home_shell with
  | None => inl (T "Missing universal_blog_shell.html in project root")
  | Some home =>
      match fs !! blog_shell with
      | None => inl (T "Missing universal_blog_index.html in project root")
      | Some _ =>
          inr (fold_left write_blog_page blog_pages
                 (<["index.html" := read_text home]> fs))
      end
  end.

(** ** The substitution pass *)

Definition hero_title (e : env) : text :=
  INIT_BRAND e ++ T ": practical insights about " ++ INIT_TOPIC e.

Definition hero_subtitle (e : env) : text :=
  T "Actionable guides and frameworks for " ++ INIT_TOPIC e ++ T ".".

(** The dictionary [repl], in insertion order. *)
Definition repl (e : env) : list (text * text) :=
  [ (T "__BRAND__", INIT_BRAND e);
    (T "__DOMAIN__", INIT_DOMAIN e);
    (T "__LOGO_FILE__", INIT_LOGO_FILE e);
    (T "__HERO_FILE__", INIT_HERO_FILE e);
    (T "__BG0__", INIT_BG0 e);
    (T "__BG1__", INIT_BG1 e);
    (T "__BG2__", INIT_BG2 e);
    (T "__ACCENT__", INIT_ACCENT e);
    (T "__ACCENT_HOVER__", INIT_ACCENT_HOVER e);
    (T "__RAD1__", INIT_RAD1 e);
    (T "__RAD2__", INIT_RAD2 e);
    (T "__RAD3__", INIT_RAD3 e);
    (T "__ANIM_SPEED__", INIT_SPEED e);
    (T "__HERO_TITLE__", hero_title e);
    (T "__HERO_SUBTITLE__", hero_subtitle e);
    (T "__SUBSCRIBE_EMAIL__", INIT_SUBSCRIBE_EMAIL e) ].

Definition placeholders : list text :=
  [ T "__BRAND__"; T "__DOMAIN__"; T "__LOGO_FILE__"; T "__HERO_FILE__";
    T "__BG0__"; T "__BG1__"; T "__BG2__"; T "__ACCENT__"; T "__ACCENT_HOVER__";
    T "__RAD1__"; T "__RAD2__"; T "__RAD3__"; T "__ANIM_SPEED__";
    T "__HERO_TITLE__"; T "__HERO_SUBTITLE__"; T "__SUBSCRIBE_EMAIL__" ].

(** [repl[k]] *)
Definition value_of (k : text) (kvs : list (text * text)) : option text :=
  option_map snd (find (fun kv => bool_decide (fst kv = k)) kvs).

(** [for k, v in repl.items(): s = s.replace(k, v)] *)
Definition replace_all (kvs : list (text * text)) (s : text) : text :=
  fold_left (fun s kv => str_replace (fst kv) (snd kv) s) kvs s.

(** The replacements in the body of the loop over
    [root.rglob('*.html')], on the text the loop has read. *)
Definition substitute (e : env) (s : text) : text :=
  let s := replace_all (repl e) s in
  let s := str_replace (T "web.myugc.studio") (INIT_DOMAIN e) s in
  str_replace (T "myugc.studio") (INIT_DOMAIN e) s.

(** The loop: every HTML file is read, rewritten and written back. *)
Definition substitute_html (e : env) (fs : files) : files :=
  map_imap (fun p s => Some (if is_html p then substitute e (read_text s) else s)) fs.

(** ** Policy pages ([write_policy_pages]) *)

Definition policy_logo : text := T "logo.png".

Definition base_css (e : env) : text :=
  T "
:root{--bg-dark:"
  ++ INIT_BG0 e
  ++ T ";--bg-gradient:linear-gradient(135deg,"
  ++ INIT_BG0 e
  ++ T " 0%,"
  ++ INIT_BG1 e
  ++ T " 50%,"
  ++ INIT_BG2 e
  ++ T " 100%);--accent:"
  ++ INIT_ACCENT e
  ++ T ";--accent-hover:"
  ++ INIT_ACCENT_HOVER e
  ++ T ";--glass-bg:rgba(255,255,255,.035);--glass-border:rgba(255,255,255,.12);--text:#f4edf0;--dim:#cfbec5;}
*{box-sizing:border-box;margin:0;padding:0;font-family:Inter,system-ui,-apple-system,Segoe UI,sans-serif}
body{background:var(--bg-dark);color:var(--text);overflow-x:hidden;line-height:1.7}
.fixed-bg{position:fixed;inset:0;z-index:-1;background:var(--bg-gradient)}
.container{max-width:980px;margin:0 auto;padding:0 24px}
nav{padding:22px 0;position:sticky;top:0;z-index:20;background:rgba(0,0,0,.0)}
nav .row{display:flex;align-items:center;justify-content:space-between;gap:16px}
nav a{color:var(--dim);text-decoration:none;font-weight:700;font-size:14px}
nav a:hover{color:#fff}
.logo-img{height:60px;width:auto;object-fit:contain}
.card{margin:20px auto 42px;background:var(--glass-bg);border:1px solid var(--glass-border);border-radius:22px;padding:26px}
h1{font-size:34px;line-height:1.1;margin-bottom:10px}
p{color:var(--dim);margin:10px 0}
footer{border-top:1px solid var(--glass-border);padding:34px 0;text-align:center;color:var(--dim);font-size:14px;margin-top:28px}
.btn{display:inline-flex;align-items:center;justify-content:center;padding:12px 18px;border-radius:10px;font-weight:800;text-decoration:none;transition:.2s;background:var(--accent);color:#fff}
.btn:hover{background:var(--accent-hover)}
".

Definition page (e : env) (title body_html : text) : text :=
  Q "<!doctype html>
<html lang=`en`><head>
<meta charset=`utf-8` />
<meta name=`viewport` content=`width=device-width, initial-scale=1` />
<title>"
  ++ title
  ++ T " | "
  ++ INIT_BRAND e
  ++ Q "</title>
<meta name=`robots` content=`index,follow` />
<link rel=`icon` type=`image/png` href=`/"
  ++ policy_logo
  ++ Q "` />
<link href=`https://fonts.googleapis.com/css2?family=Inter:wght@300;400;500;600;700;800&display=swap` rel=`stylesheet` />
<style>"
  ++ base_css e
  ++ Q "</style>
</head>
<body>
<div class=`fixed-bg`></div>
<nav><div class=`container row`><a href=`/`><img class=`logo-img` src=`/"
  ++ policy_logo
  ++ Q "` alt=`"
  ++ INIT_BRAND e
  ++ Q " logo` /></a><div style=`display:flex;gap:16px`><a href=`/`>Home</a><a href=`/blog/`>Blog</a></div></div></nav>
<main class=`container`><div class=`card`><h1>"
  ++ title
  ++ T "</h1>"
  ++ body_html
  ++ T "</div></main>
<footer><p>"
  ++ [ascii_of_nat 169]
  ++ T " 2026 "
  ++ INIT_BRAND e
  ++ Q ". All rights reserved.</p><div style=`margin-top:12px`><a href=`/policy/terms/`>Terms</a> | <a href=`/policy/privacy/`>Privacy</a> | <a href=`/policy/refund/`>Refund</a></div></footer>
</body></html>".

Definition mail_button (e : env) : text :=
  Q "<a class=`btn` href=`mailto:info@" ++ INIT_DOMAIN e ++ Q "`>info@"
  ++ INIT_DOMAIN e ++ T "</a>".

Definition privacy_body (e : env) : text :=
  T "<p>This policy applies to <b>" ++ INIT_DOMAIN e ++ T "</b>.</p>"
  ++ T "<p>We collect only the information you submit via forms (name, email, message) to respond and improve the site experience. We do not sell personal data.</p>"
  ++ T "<p>If you have questions, contact " ++ mail_button e ++ T ".</p>".

Definition terms_body (e : env) : text :=
  T "<p>By using <b>" ++ INIT_DOMAIN e ++ T "</b>, you agree to these terms.</p>"
  ++ T "<p>Content is provided for informational purposes. We may update the site at any time. Your use is at your own risk.</p>"
  ++ T "<p>Contact: " ++ mail_button e ++ T ".</p>".

Definition refund_body (e : env) : text :=
  T "<p>This site is a content blog. Unless you purchased a separate product/service from us, there is nothing to refund.</p>"
  ++ T "<p>For billing questions, email " ++ mail_button e ++ T ".</p>".

Definition privacy_path : string := "policy/privacy/index.html".
Definition terms_path : string := "policy/terms/index.html".
Definition refund_path : string := "policy/refund/index.html".

(** The dictionary [pages], in insertion order. *)
Definition pages (e : env) : list (string * text) :=
  [ (privacy_path, page e (T "Privacy Policy") (privacy_body e));
    (terms_path, page e (T "Terms of Service") (terms_body e));
    (refund_path, page e (T "Refund Policy") (refund_body e)) ].

Definition write_policy_pages (e : env) (fs : files) : files :=
  fold_left (fun fs ph => <[fst ph := snd ph]> fs) (pages e) fs.

(** ** The palette patch of the post template ([patch_blog_template_palette])

    The regular expressions of the patch are matched by hand.  In each of
    them a greedy repetition is followed by a character outside the
    repeated class, so the match at a position is unique and Python's
    backtracking finds it exactly when the maximal run does:
    - [\s*] is followed by a character that is not white space;
    - [#[0-9a-fA-F]{3,8}] is followed by [\s*;], so the run of
      hexadecimal digits after [#] must have three to eight characters;
    - [[^;]+\);] ends at the first semicolon, which a closing bracket
      must precede;
    - [[^\)]*\)] ends at the first closing bracket;
    - [([0-9.]+)\s*\)] takes the whole run of digits and dots. *)

(** A piece of a pattern: the rest of the text after it, if it matches. *)
Definition piece := text -> option text.

Definition lit (k : string) : piece :=
  fun s => if starts_with (T k) s then Some (drop (length (T k)) s) else None.

Fixpoint skip_while (p : ascii -> bool) (s : text) : text :=
  match s with
  | c :: s' => if p c then skip_while p s' else s
  | [] => []
  end.

Fixpoint run_of (p : ascii -> bool) (s : text) : text :=
  match s with
  | c :: s' => if p c then c :: run_of p s' else []
  | [] => []
  end.

(** [\s*] *)
Definition spaces : piece := fun s => Some (skip_while is_space s).

Definition seq (p q : piece) : piece :=
  fun s => match p s with Some r => q r | None => None end.

Infix ">>" := seq (at level 61, left associativity).

(** [#[0-9a-fA-F]{3,8}] before a character that is not a hexadecimal digit *)
Definition hex_colour : piece :=
  lit "#" >> (fun s =>
    let n := length (run_of is_hex s) in
    if (3 <=? n) && (n <=? 8) then Some (skip_while is_hex s) else None).

(** [[^;]+\);] *)
Definition until_bracket_semicolon : piece :=
  fun s =>
    let body := run_of (fun c => negb (Ascii.eqb c ";"%char)) s in
    match skip_while (fun c => negb (Ascii.eqb c ";"%char)) s with
    | _ :: rest =>
        if (2 <=? length body) && ends_with (T ")") body then Some rest else None
    | [] => None
    end.

(** [[^\)]*\)] *)
Definition until_bracket : piece :=
  fun s =>
    match skip_while (fun c => negb (Ascii.eqb c ")"%char)) s with
    | _ :: rest => Some rest
    | [] => None
    end.

(** A pattern without groups and its replacement, as a matcher. *)
Definition pattern (p : piece) (out : text) : matcher :=
  fun s =>
    match p s with
    | Some rest => Some (out, Nat.pred (length s - length rest))
    | None => None
    end.

(** [re.sub(pattern, out, s)] *)
Definition re_sub (p : piece) (out : text) (s : text) : text :=
  scan (pattern p out) 0 s.

Definition css_hex_var (name : string) : piece :=
  lit name >> spaces >> hex_colour >> spaces >> lit ";".

Definition css_gradient_var : piece :=
  lit "--bg-gradient:" >> spaces >> lit "linear-gradient(" >> until_bracket_semicolon.

(** [rgba\(\s*R\s*,\s*G\s*,\s*B\s*,\s*([0-9.]+)\s*\)] with the replacement
    [rgba(ar, ag, ab, \1)]. *)
Definition is_alpha_char (c : ascii) : bool := is_digit c || Ascii.eqb c "."%char.

Definition rgba_head (r g b : string) : piece :=
  lit "rgba(" >> spaces >> lit r >> spaces >> lit "," >> spaces >> lit g
  >> spaces >> lit "," >> spaces >> lit b >> spaces >> lit "," >> spaces.

Definition rgba_legacy (r g b : string) (out_head : text) : matcher :=
  fun s =>
    match rgba_head r g b s with
    | Some s1 =>
        let alpha := run_of is_alpha_char s1 in
        match alpha with
        | [] => None
        | _ :: _ =>
            match (spaces >> lit ")") (skip_while is_alpha_char s1) with
            | Some rest =>
                Some (out_head ++ alpha ++ T ")",
                      Nat.pred (length s - length rest))
            | None => None
            end
        end
    | None => None
    end.

Definition radial (at_ : string) : piece :=
  lit at_ >> spaces >> lit "rgba(" >> until_bracket >> spaces >> lit "0%,"
  >> spaces >> lit "transparent" >> spaces >> lit "35%)".

(** [int(x, 16)] on a slice of at most two characters: white space around,
    an optional sign, then hexadecimal digits. *)
Definition hex_value (c : ascii) : Z :=
  if is_digit c then Z.of_nat (code c - 48)
  else if is_lower c then Z.of_nat (code c - 87)
  else Z.of_nat (code c - 55).

Definition hex_digits (s : text) : option Z :=
  match s with
  | [] => None
  | _ :: _ =>
      if forallb is_hex s
      then Some (fold_left (fun acc c => (16 * acc + hex_value c)%Z) s 0%Z)
      else None
  end.

Definition int16 (x : text) : option Z :=
  let x := rev (skip_while is_int_space (rev (skip_while is_int_space x))) in
  match x with
  | "-"%char :: d => option_map Z.opp (hex_digits d)
  | "+"%char :: d => hex_digits d
  | _ => hex_digits x
  end.

(** [hex_to_rgb]; [None] is the [ValueError] of [int]. *)
Definition hex_to_rgb (h : text) : option (Z * Z * Z) :=
  let h := skip_while (Ascii.eqb "#"%char) h in
  match int16 (take 2 h), int16 (take 2 (drop 2 h)), int16 (take 2 (drop 4 h)) with
  | Some r, Some g, Some b => Some (r, g, b)
  | _, _, _ => None
  end.

(** [str(n)] for an integer *)
Definition decimal (z : Z) : text :=
  T (NilZero.string_of_int (Z.to_int z)).

Definition legacy_hex : list string :=
  ["#0a0514"; "#1a0a2e"; "#2d1b4e"; "#8b5cf6"; "#7c3aed"]%string.

(** [s.replace(old, new).replace(old.upper(), new)] *)
Definition replace_legacy_hex (s : text) (on : string * text) : text :=
  str_replace (map to_upper (T (fst on))) (snd on)
    (str_replace (T (fst on)) (snd on) s).

(** The substitutions of [patch_blog_template_palette] on the text it
    has read, for an accent colour already split into [ar, ag, ab]. *)
Definition patch_text (e : env) (rgb : Z * Z * Z) (s : text) : text :=
  let '(ar, ag, ab) := rgb in
  let bg0 := INIT_BG0 e in
  let bg1 := INIT_BG1 e in
  let bg2 := INIT_BG2 e in
  let s := re_sub (css_hex_var "--bg-dark:") (T "--bg-dark: " ++ bg0 ++ T ";") s in
  let s := re_sub css_gradient_var
             (T "--bg-gradient: linear-gradient(135deg, " ++ bg0 ++ T " 0%, "
              ++ bg1 ++ T " 50%, " ++ bg2 ++ T " 100%);") s in
  let s := re_sub (css_hex_var "--accent-green:")
             (T "--accent-green: " ++ INIT_ACCENT e ++ T ";") s in
  let s := re_sub (css_hex_var "--accent-hover:")
             (T "--accent-hover: " ++ INIT_ACCENT_HOVER e ++ T ";") s in
  let s := fold_left replace_legacy_hex
             (combine legacy_hex
                [bg0; bg1; bg2; INIT_ACCENT e; INIT_ACCENT_HOVER e]) s in
  let head := T "rgba(" ++ decimal ar ++ T ", " ++ decimal ag ++ T ", "
              ++ decimal ab ++ T ", " in
  let s := scan (rgba_legacy "139" "92" "246" head) 0 s in
  let s := scan (rgba_legacy "168" "85" "247" head) 0 s in
  let s := scan (rgba_legacy "217" "70" "239" head) 0 s in
  let s := re_sub (radial "radial-gradient(circle at 15% 25%,")
             (T "radial-gradient(circle at 15% 25%, " ++ INIT_RAD1 e
              ++ T " 0%, transparent 35%)") s in
  let s := re_sub (radial "radial-gradient(circle at 85% 15%,")
             (T "radial-gradient(circle at 85% 15%, " ++ INIT_RAD2 e
              ++ T " 0%, transparent 35%)") s in
  let s := str_replace (Q "href=`../logo.png`") (Q "href=`../logo.png`") s in
  str_replace (Q "href=`/logo.png`") (Q "href=`/logo.png`") s.

Definition template_path : string := "blog/template.html".

(** [None] is the [ValueError] raised by [hex_to_rgb]. *)
Definition patch_blog_template_palette (e : env) (fs : files) : option files :=
  match fs !! template_path with
  | None => Some fs
  | Some s =>
      match hex_to_rgb (INIT_ACCENT e) with
      | Some rgb => Some (<[template_path := patch_text e rgb (read_text s)]> fs)
      | None => None
      end
  end.

(** ** The whole program *)

Definition main (e : env) (w : world) (fs : files) : result :=
  let st := provision e w fs in
  match materialize (fst st) with
  | inl msg => {| how := SystemExit msg; site := fst st; printed := snd st |}
  | inr fs1 =>
      let fs2 := write_policy_pages e (substitute_html e fs1) in
      match patch_blog_template_palette e fs2 with
      | None => {| how := ValueError; site := fs2; printed := snd st |}
      | Some fs3 =>
          {| how := Finished; site := fs3;
             printed := snd st ++ [placeholders_applied] |}
      end
  end.

End InitPy.

Arguments InitPy.page : simpl never.
Arguments InitPy.base_css : simpl never.
Arguments InitPy.substitute : simpl never.
Arguments InitPy.patch_text : simpl never.
Arguments InitPy.write_policy_pages : simpl never.
Arguments InitPy.substitute_html : simpl never.

(* ===================================================================== *)
(** * scripts/bootstrap-template.sh *)
(* ===================================================================== *)

Module Bootstrap.

Record args := {
  DOMAIN : text;
  BRAND : text
}.

Definition set_flag (flag v : text) (a : args) : option args :=
  if decide (flag = T "--domain") then Some {| DOMAIN := v; BRAND := BRAND a |}
  else if decide (flag = T "--brand") then Some {| DOMAIN := DOMAIN a; BRAND := v |}
  else None.

Fixpoint parse_args (argv : list text) (a : args) : option args :=
  match argv with
  | [] => Some a
  | flag :: rest =>
      match set_flag flag (match rest with v :: _ => v | [] => [] end) a with
      | None => None
      | Some a' =>
          match rest with
          | [] => None
          | _ :: rest' => parse_args rest' a'
          end
      end
  end.

Definition read_args (argv : list text) : option args :=
  match parse_args argv {| DOMAIN := []; BRAND := [] |} with
  | Some a =>
      if InitBlog.is_empty (DOMAIN a) || InitBlog.is_empty (BRAND a)
      then None else Some a
  | None => None
  end.

Definition searched_suffixes : list string :=
  [".html"; ".xml"; ".txt"; ".js"; ".json"]%string.

Definition legacy_words : list text :=
  [T "myugc.studio"; T "My UGC Studio"; T "MYUGC Studio"].

(** A file is listed in [FILES] when the search visits it, its name has
    one of the suffixes and one of its lines holds a legacy word. *)
Definition listed (w : world) (p : string) (s : text) : bool :=
  search_visits w p
  && existsb (fun x => has_suffix x p) searched_suffixes
  && Bash.grep_Eq legacy_words s.

(** The three [sed -i] commands of the loop body.  sed works line by line;
    no pattern and no modelled replacement holds a newline, so the
    substitution is made on the text as a whole. *)
Definition rewrite (a : args) (s : text) : text :=
  Bash.sed_s_g (T "MYUGC Studio") (BRAND a)
    (Bash.sed_s_g (T "My UGC Studio") (BRAND a)
       (Bash.sed_s_g (T "myugc.studio") (DOMAIN a) s)).

(** [<lastmod>[0-9]\{4\}-[0-9]\{2\}-[0-9]\{2\}</lastmod>] *)
Definition digits (n : nat) : InitPy.piece :=
  fun s =>
    if (length (take n s) =? n) && forallb is_digit (take n s)
    then Some (drop n s) else None.

Definition lastmod : InitPy.piece :=
  InitPy.seq (InitPy.seq (InitPy.seq (InitPy.seq (InitPy.seq (InitPy.seq
    (InitPy.lit "<lastmod>") (digits 4)) (InitPy.lit "-")) (digits 2))
    (InitPy.lit "-")) (digits 2)) (InitPy.lit "</lastmod>").

Definition reset_lastmod (w : world) (fs : files) : files :=
  match fs !! "sitemap.xml"%string with
  | Some s =>
      <["sitemap.xml"%string :=
          InitPy.re_sub lastmod (T "<lastmod>" ++ today w ++ T "</lastmod>") s]> fs
  | None => fs
  end.

Inductive outcome :=
| Done (fs : files)
| Failed                (* exit 1: usage *)
| BeyondModel.          (* a pasted value holds a slash, a backslash or a newline *)

Definition any_listed (w : world) (fs : files) : bool :=
  bool_decide (map_Exists (fun p s => listed w p s = true) fs).

Definition main (w : world) (argv : list text) (fs : files) : outcome :=
  match read_args argv with
  | None => Failed
  | Some a =>
      if any_listed w fs then
        if Bash.sed_rhs_plain (DOMAIN a) && Bash.sed_rhs_plain (BRAND a) then
          Done (reset_lastmod w
                  (map_imap (fun p s => Some (if listed w p s then rewrite a s else s)) fs))
        else BeyondModel
      else Done (reset_lastmod w fs)
  end.

End Bootstrap.

(* ===================================================================== *)
(** * scripts/init-blog.sh: the orchestrator *)
(* ===================================================================== *)

Module Orchestrator.

Import InitBlog.

Inductive exit_status :=
| Exit0
| Exit1
| BeyondModel.

Record run := {
  status : exit_status;
  final : files;
  log : list InitPy.message
}.

(** The closing [convert] block: make the background of the brand logo
    transparent and copy it over [logo.png]; every failure is ignored. *)
Definition make_logo_transparent (w : world) (logo : string) (fs : files) : files :=
  if convert_installed w then
    match fs !! logo with
    | Some img =>
        let bg_hex := convert_bg_hex w img in
        if is_empty bg_hex then fs
        else
          let fs := match convert_transparent w img (T "#" ++ bg_hex) with
                    | Some img' => <[logo := img']> fs
                    | None => fs
                    end in
          InitPy.copy_if_present logo "logo.png" fs
    | None => fs
    end
  else fs.

Definition init_blog (w : world) (argv : list text) (fs : files) : run :=
  match read_args argv with
  | None => {| status := Exit1; final := fs; log := [] |}
  | Some a =>
      match Bootstrap.main w [T "--domain"; DOMAIN a; T "--brand"; BRAND a] fs with
      | Bootstrap.Failed => {| status := Exit1; final := fs; log := [] |}
      | Bootstrap.BeyondModel => {| status := BeyondModel; final := fs; log := [] |}
      | Bootstrap.Done fs1 =>
          let e := export a in
          let r := InitPy.main e w fs1 in
          match InitPy.how r with
          | InitPy.Finished =>
              {| status := Exit0;
                 final := make_logo_transparent w (InitPy.logo_path e) (InitPy.site r);
                 log := InitPy.printed r |}
          | _ => {| status := Exit1; final := InitPy.site r; log := InitPy.printed r |}
          end
      end
  end.

End Orchestrator.

(* ===================================================================== *)
(** * The theme-config variant of init-blog.sh *)
(* ===================================================================== *)

Module ThemeConfig.

(** [int(x)] on a decimal text: white space around, an optional sign,
    digits with single underscores between them.  [None] is ValueError. *)
Fixpoint digits_value (acc : Z) (prev_digit : bool) (s : text) : option Z :=
  match s with
  | [] => if prev_digit then Some acc else None
  | c :: s' =>
      if is_digit c then digits_value (10 * acc + Z.of_nat (code c - 48)) true s'
      else if Ascii.eqb c "_"%char && prev_digit then digits_value acc false s'
      else None
  end.

Definition int (x : text) : option Z :=
  let x := rev (InitPy.skip_while is_int_space
                  (rev (InitPy.skip_while is_int_space x))) in
  match x with
  | "-"%char :: d => option_map Z.opp (digits_value 0 false d)
  | "+"%char :: d => digits_value 0 false d
  | _ => digits_value 0 false x
  end.

(** [cfg["animationSpeedSec"] = max(8, min(60, speed))] *)
Definition animationSpeedSec (speed : Z) : Z := Z.max 8 (Z.min 60 speed).

(** [cfg["animationType"]] *)
Definition animationType (anim : text) : text :=
  if existsb (fun x => bool_decide (anim = x)) [T "drift"; T "pulse"; T "wave"]
  then anim else T "drift".

(** The value written for [--speed x]; [None] when [int] raises. *)
Definition speed_written (x : text) : option Z :=
  option_map animationSpeedSec (int x).

End ThemeConfig.

(* ===================================================================== *)
(** * Vocabulary of the claims *)
(* ===================================================================== *)

Module Claims.

Import InitBlog InitPy.

(** No placeholder token is left in a text. *)
Definition placeholder_free (s : text) : bool :=
  forallb (fun k => negb (occurs k s)) placeholders.

(** A replacement value that cannot form a placeholder at its seams: it
    is not empty, holds no underscore and is not a part of a placeholder. *)
Definition inert_value (v : text) : bool :=
  forallb (fun k => inert k v) placeholders.

Definition inert_values (e : env) : bool :=
  forallb inert_value (map snd (repl e)).

(** None of the words [bootstrap-template.sh] looks for is in a text. *)
Definition legacy_free (s : text) : bool :=
  forallb (fun k => negb (occurs k s)) Bootstrap.legacy_words.

Definition searched (p : string) : bool :=
  existsb (fun x => has_suffix x p) Bootstrap.searched_suffixes.

(** What the home page and the listing pages hold before the
    substitution pass: the text read from the shells; every other file
    is as it was. *)
Definition materialized (home blog : text) (old : option text) (p : string)
    : option text :=
  if decide (p ∈ blog_pages) then Some (read_text blog)
  else if decide (p = "index.html"%string) then Some (read_text home)
  else old.

Definition policy_paths : list string := [privacy_path; terms_path; refund_path].

(** What the substitution pass leaves of an HTML file that holds [s]. *)
Definition rewritten (e : env) (s : text) : text := substitute e (read_text s).

(** What a finished program leaves in an HTML file, from what the file
    held before ([old]) and the texts of the two shells. *)
Definition html_after (e : env) (rgb : Z * Z * Z) (home blog : text)
    (old : option text) (p : string) : option text :=
  if decide (p ∈ policy_paths) then write_policy_pages e ∅ !! p
  else if decide (p = template_path)
       then option_map (fun s => patch_text e rgb (read_text (rewritten e s)))
              (materialized home blog old p)
  else option_map (rewritten e) (materialized home blog old p).

(** Every placeholder begins and ends with two underscores. *)
Definition mark : text := T "__".

(** Wherever [k] and [v] can overlap at a seam, the part of [k] that
    lies outside [v] holds the mark. *)
Definition guarded (k v : text) : bool :=
  forallb (fun i => implb (starts_with (drop i k) v) (occurs mark (take i k))
                    && implb (ends_with (take i k) v) (occurs mark (drop i k)))
    (List.seq 1 (length k - 1)).

(** The file a page is made from: one of the shells for a generated
    page, the file itself otherwise. *)
Definition source_of (p : string) : string :=
  if decide (p ∈ blog_pages) then blog_shell
  else if decide (p = "index.html"%string) then home_shell
  else p.

(** A text given as a chain of parts: literal pieces of a template and
    values spliced between them, the values named by their position in a
    list. *)
Inductive part :=
| Lit (t : text)
| Val (i : nat).

Definition part_text (values : list text) (p : part) : text :=
  match p with Lit t => t | Val i => nth i values [] end.

Fixpoint flatten (values : list text) (ps : list part) : text :=
  match ps with
  | [] => []
  | [p] => part_text values p
  | p :: ps' => part_text values p ++ flatten values ps'
  end.

(** [k] occurs in none of the literal stretches of a chain, and every
    value of the chain is one of the first [n]; [cur] is the stretch read
    so far. *)
Fixpoint quiet (k cur : text) (n : nat) (ps : list part) : bool :=
  match ps with
  | [] => negb (occurs k cur)
  | Lit t :: ps' => quiet k (cur ++ t) n ps'
  | Val i :: ps' => (i <? n) && negb (occurs k cur) && quiet k [] n ps'
  end.

(** The values a policy page is made of. *)
Definition page_values (e : env) : list text :=
  [INIT_BRAND e; INIT_DOMAIN e; INIT_BG0 e; INIT_BG1 e; INIT_BG2 e;
   INIT_ACCENT e; INIT_ACCENT_HOVER e].

(** An environment that holds a palette and nothing else; the palette
    patch reads no other variable. *)
Definition palette_env (p : palette) : env :=
  {| INIT_DOMAIN := []; INIT_BRAND := []; INIT_TOPIC := [];
     INIT_SPEED := []; INIT_SUBSCRIBE_EMAIL := [];
     INIT_LOGO_FILE := []; INIT_HERO_FILE := [];
     INIT_BG0 := BG0 p; INIT_BG1 := BG1 p; INIT_BG2 := BG2 p;
     INIT_ACCENT := ACCENT p; INIT_ACCENT_HOVER := ACCENT_HOVER p;
     INIT_RAD1 := RAD1 p; INIT_RAD2 := RAD2 p; INIT_RAD3 := RAD3 p |}.

End Claims.

(* ===================================================================== *)
(** * Sample inputs *)
(* ===================================================================== *)

Module Samples.

Import InitBlog.

Definition example_argv : list text :=
  [T "--domain"; T "example.com"; T "--brand"; T "Example Co";
   T "--topic"; T "wine"].

Definition example_args : args :=
  {| DOMAIN := T "example.com"; BRAND := T "Example Co"; TOPIC := T "wine";
     SPEED := T "26"; SUBSCRIBE_EMAIL := T "info@example.com" |}.

Definition speed5_argv : list text := example_argv ++ [T "--speed"; T "5"].

Definition speed5_args : args :=
  {| DOMAIN := T "example.com"; BRAND := T "Example Co"; TOPIC := T "wine";
     SPEED := T "5"; SUBSCRIBE_EMAIL := T "info@example.com" |}.

Definition hello_argv : list text :=
  example_argv ++ [T "--subscribe-email"; T "hello@example.org"].

(** No credential, no ImageMagick. *)
Definition offline : world :=
  {| api_key := [];
     logo_answer := None;
     hero_answer := None;
     convert_installed := false;
     convert_bg_hex := fun _ => [];
     convert_transparent := fun _ _ => None;
     today := T "2026-01-01";
     search_visits := fun _ => true |}.

(** A credential, and an image service that answers with an error. *)
Definition failing_service : world :=
  {| api_key := T "secret";
     logo_answer := None;
     hero_answer := None;
     convert_installed := false;
     convert_bg_hex := fun _ => [];
     convert_transparent := fun _ _ => None;
     today := T "2026-01-01";
     search_visits := fun _ => true |}.

Definition empty_site : files := ∅.

(** Only the default logo, no shell. *)
Definition logo_only_site : files :=
  <["logo.png"%string := T "default logo"]> ∅.

(** A shell that links to the site, for a domain under the legacy one. *)
Definition subdomain_argv : list text :=
  [T "--domain"; T "blog.myugc.studio"; T "--brand"; T "Example Co";
   T "--topic"; T "wine"].

Definition linked_site : files :=
  <["universal_blog_shell.html"%string := T "<a href=https://__DOMAIN__/>home</a>"]>
    (<["universal_blog_index.html"%string := T "<h1>__BRAND__</h1>"]> ∅).

(** A brand that spells a placeholder. *)
Definition token_brand_argv : list text :=
  [T "--domain"; T "example.com"; T "--brand"; T "__BRAND__";
   T "--topic"; T "wine"].

(** Both shells and the default images. *)
Definition template_site : files :=
  <["universal_blog_shell.html"%string :=
      T "<title>__BRAND__</title><a href=mailto:__SUBSCRIBE_EMAIL__>__DOMAIN__</a>"]>
    (<["universal_blog_index.html"%string :=
         T "<h1>__HERO_TITLE__</h1><p>__HERO_SUBTITLE__</p>"]>
       (<["logo.png"%string := T "default logo"]>
          (<["hero_ai.jpg"%string := T "default hero"]> ∅))).

(** Two shells, the home shell with a link to the subscribe address. *)
Definition address_site : files :=
  <["universal_blog_shell.html"%string :=
      T "<a href=mailto:__SUBSCRIBE_EMAIL__>write to us</a>"]>
    (<["universal_blog_index.html"%string := T "<h1>__BRAND__</h1>"]> ∅).

(** A subscribe address under the legacy domain. *)
Definition sales_argv : list text :=
  example_argv ++ [T "--subscribe-email"; T "sales@myugc.studio"].

(** The template site with a brand logo left by an earlier run. *)
Definition stale_logo_site : files :=
  <["logo-example-co.png"%string := T "earlier brand logo"]> template_site.

End Samples.

(* ===================================================================== *)
(** * The theme-config variant: arguments and the checked entries of [cfg] *)
(* ===================================================================== *)

Module ThemeInit.

Record args := {
  DOMAIN : text;
  BRAND : text;
  TOPIC : text;
  ANIMATION : text;
  SPEED : text
}.

Definition initial_args : args :=
  {| DOMAIN := []; BRAND := []; TOPIC := []; ANIMATION := T "drift";
     SPEED := T "18" |}.

Definition set_flag (flag v : text) (a : args) : option args :=
  if decide (flag = T "--domain") then
    Some {| DOMAIN := v; BRAND := BRAND a; TOPIC := TOPIC a;
            ANIMATION := ANIMATION a; SPEED := SPEED a |}
  else if decide (flag = T "--brand") then
    Some {| DOMAIN := DOMAIN a; BRAND := v; TOPIC := TOPIC a;
            ANIMATION := ANIMATION a; SPEED := SPEED a |}
  else if decide (flag = T "--topic") then
    Some {| DOMAIN := DOMAIN a; BRAND := BRAND a; TOPIC := v;
            ANIMATION := ANIMATION a; SPEED := SPEED a |}
  else if decide (flag = T "--animation") then
    Some {| DOMAIN := DOMAIN a; BRAND := BRAND a; TOPIC := TOPIC a;
            ANIMATION := v; SPEED := SPEED a |}
  else if decide (flag = T "--speed") then
    Some {| DOMAIN := DOMAIN a; BRAND := BRAND a; TOPIC := TOPIC a;
            ANIMATION := ANIMATION a; SPEED := v |}
  else None.

Fixpoint parse_args (argv : list text) (a : args) : option args :=
  match argv with
  | [] => Some a
  | flag :: rest =>
      match set_flag flag (match rest with v :: _ => v | [] => [] end) a with
      | None => None
      | Some a' =>
          match rest with
          | [] => None
          | _ :: rest' => parse_args rest' a'
          end
      end
  end.

Definition read_args (argv : list text) : option args :=
  match parse_args argv initial_args with
  | Some a =>
      if InitBlog.is_empty (DOMAIN a) || InitBlog.is_empty (BRAND a)
         || InitBlog.is_empty (TOPIC a)
      then None else Some a
  | None => None
  end.

(** [str.strip()] *)
Definition strip (s : text) : text :=
  rev (InitPy.skip_while is_space (rev (InitPy.skip_while is_space s))).

(** The two entries of [cfg] the program checks itself. *)
Record checked := {
  cfg_animationType : text;
  cfg_animationSpeedSec : Z
}.

(** [None] is the ValueError of [speed = int(...)], raised before any
    request is made and before any file is written. *)
Definition checked_cfg (a : args) : option checked :=
  match ThemeConfig.int (SPEED a) with
  | Some speed =>
      Some {| cfg_animationType := ThemeConfig.animationType (strip (ANIMATION a));
              cfg_animationSpeedSec := ThemeConfig.animationSpeedSec speed |}
  | None => None
  end.

(** ** The image step of the variant

    [extract_image(gemini_generate(...))]: without a credential no
    request is made and there is no image; otherwise [answer] is the
    image of the response, [None] when the request fails or the response
    holds none.  An image of no bytes counts as none ([if logo_bin]). *)
Inductive notice :=
| ok_logo     (* [ok] logo generated *)
| warn_logo   (* [warn] logo not generated, keeping existing logo.png *)
| ok_hero     (* [ok] hero image generated *)
| warn_hero.  (* [warn] hero image not generated, keeping existing hero_ai.jpg *)

Definition is_warn (m : notice) : bool :=
  match m with
  | warn_logo | warn_hero => true
  | _ => false
  end.

Definition image (key : text) (answer : option text) : option text :=
  if InitBlog.is_empty key then None
  else match answer with
       | Some [] => None
       | _ => answer
       end.

(** One [if ..._bin: ... write_bytes ... else: print] block. *)
Definition write_image (img : option text) (target : string)
    (ok kept : notice) (st : files * list notice) : files * list notice :=
  match img with
  | Some b => (<[target := b]> (fst st), snd st ++ [ok])
  | None => (fst st, snd st ++ [kept])
  end.

(** The two blocks, with the credential [key] ([GEMINI_API_KEY],
    stripped) and the answers of the image service; the list holds the
    messages of the two blocks. *)
Definition images (key : text) (logo hero : option text) (fs : files)
    : files * list notice :=
  write_image (image key hero) "hero_ai.jpg" ok_hero warn_hero
    (write_image (image key logo) "logo.png" ok_logo warn_logo (fs, [])).

End ThemeInit.

(* ===================================================================== *)
(** * Vocabulary of the invariants *)
(* ===================================================================== *)

Module Invariants.

Import InitBlog InitPy.

(** The characters the slug pipeline lets through. *)
Definition is_slug_char (c : ascii) : bool :=
  is_lower c || is_digit c || Ascii.eqb c "-"%char.

(** The flags of the argument loop of [init-blog.sh]. *)
Definition known_flags : list text :=
  [T "--domain"; T "--brand"; T "--topic"; T "--speed"; T "--subscribe-email"].

(** The words at the flag positions of an argument list. *)
Fixpoint flag_words (argv : list text) : list text :=
  match argv with
  | flag :: _ :: rest => flag :: flag_words rest
  | [flag] => [flag]
  | [] => []
  end.

(** A value [sed] pastes as it is: none of the characters that the
    replacement part of an [s] command reads specially. *)
Definition sed_literal (v : text) : bool :=
  Bash.sed_rhs_plain v && negb (mem "&"%char v).

(** A value that cannot form one of the legacy words at its seams. *)
Definition legacy_inert (v : text) : bool :=
  forallb (fun k => inert k v) Bootstrap.legacy_words.

(** What every pattern of the palette patch starts with. *)
Definition patch_anchors : list text :=
  [T "--bg-dark:"; T "--bg-gradient:"; T "--accent-green:"; T "--accent-hover:";
   T "#"; T "rgba("; T "radial-gradient(circle at"].

Definition anchor_free (s : text) : bool :=
  forallb (fun k => negb (occurs k s)) patch_anchors.

Definition animation_types : list text := [T "drift"; T "pulse"; T "wave"].

(** The colour as one number of 24 bits. *)
Definition hex_number (d : text) : Z :=
  fold_left (fun acc c => (16 * acc + hex_value c)%Z) d 0%Z.

End Invariants.

(* ===================================================================== *)
(** * Vocabulary of a second run *)
(* ===================================================================== *)

Module Reruns.

Import InitBlog InitPy Claims.

Definition legacy_domain : text := T "myugc.studio".

(** The two legacy words [bootstrap-template.sh] replaces by the brand. *)
Definition brand_words : list text := [T "My UGC Studio"; T "MYUGC Studio"].

(** The values of a run leave nothing for a second run to rewrite:
    - none of them can form a placeholder at its seams ([inert_values]);
    - none holds a carriage return, which the next run would read as a
      newline;
    - none shares a border with one of the two brand words, and the
      brand shares none with any legacy word, so that what
      [bootstrap-template.sh] has cleaned stays clean;
    - the domain shares no border with the legacy domain;
    - sed pastes the domain and the brand as they are (no ampersand). *)
Definition stable_values (e : env) : bool :=
  inert_values e
  && forallb (fun v => negb (mem cr v)) (map snd (repl e))
  && forallb (fun v => forallb (fun k => apart k v) brand_words) (map snd (repl e))
  && forallb (fun k => apart k (INIT_BRAND e)) Bootstrap.legacy_words
  && apart legacy_domain (INIT_DOMAIN e)
  && negb (mem "&"%char (INIT_DOMAIN e))
  && negb (mem "&"%char (INIT_BRAND e)).

End Reruns.

Module Scenarios.

Import InitBlog.

(** ImageMagick is installed and clears every background. *)
Definition with_convert : world :=
  {| api_key := T "secret";
     logo_answer := Some (T "generated logo");
     hero_answer := None;
     convert_installed := true;
     convert_bg_hex := fun _ => T "FFFFFF";
     convert_transparent := fun img _ => Some (img ++ T " (transparent)");
     today := T "2026-01-01";
     search_visits := fun _ => true |}.

(** A template site with a note, a script and a site map. *)
Definition mixed_site : files :=
  <["notes.md"%string := T "myugc.studio __BRAND__"]>
    (<["app.js"%string := T "const host = 'myugc.studio'; // My UGC Studio"]>
       (<["sitemap.xml"%string := T "<lastmod>2020-02-03</lastmod>"]>
          Samples.template_site)).

(** A domain and a brand that share no border with a legacy word. *)
Definition vines_argv : list text :=
  [T "--domain"; T "vines.net"; T "--brand"; T "Vines"].

Definition vines_args : Bootstrap.args :=
  {| Bootstrap.DOMAIN := T "vines.net"; Bootstrap.BRAND := T "Vines" |}.

(** The same domain and brand for [init-blog.sh]; the values they give
    are stable. *)
Definition vines_blog_argv : list text := vines_argv ++ [T "--topic"; T "wine"].

Definition vines_blog_args : args :=
  {| DOMAIN := T "vines.net"; BRAND := T "Vines"; TOPIC := T "wine";
     SPEED := T "26"; SUBSCRIBE_EMAIL := T "info@vines.net" |}.

(** The template site with a post template whose gradient the palette
    patch rewrites in two steps. *)
Definition gradient_site : files :=
  <["blog/template.html"%string :=
      T "--bg-gradient: linear-gradient(radial-gradient(circle at 15% 25%, rgba(x;y) 0%, transparent 35%));"]>
    Samples.template_site.

(** A brand with a carriage return in it. *)
Definition cr_brand_argv : list text :=
  [T "--domain"; T "vines.net"; T "--brand"; T "Vi" ++ [cr] ++ T "nes";
   T "--topic"; T "wine"].

Definition theme_argv : list text :=
  [T "--domain"; T "example.com"; T "--brand"; T "Example Co";
   T "--topic"; T "wine"; T "--animation"; T " pulse "; T "--speed"; T "999"].

End Scenarios.

(* ===================================================================== *)
(** * Properties of texts *)
(* ===================================================================== *)

Section TextFacts.

Implicit Types k v s p x y a b : text.

Lemma starts_with_spec k s : starts_with k s = true <-> exists r, s = k ++ r.
Proof.
  revert s. induction k as [|c k IH]; intros s; simpl.
  - split; eauto.
  - destruct s as [|d s]; simpl.
    + split; [discriminate | intros [r Hr]; discriminate].
    + rewrite andb_true_iff, Ascii.eqb_eq, IH. split.
      * intros [-> [r ->]]. eauto.
      * intros [r Hr]. injection Hr as -> ->. eauto.
Qed.

Lemma starts_with_app k r : starts_with k (k ++ r) = true.
Proof. apply starts_with_spec. eauto. Qed.

Lemma occurs_spec k s : occurs k s = true <-> exists a b, s = a ++ k ++ b.
Proof.
  induction s as [|c s IH]; simpl.
  - rewrite orb_false_r, starts_with_spec. split.
    + intros [r Hr]. exists [], r. exact Hr.
    + intros (a & b & H). destruct a; simpl in H.
      * eauto.
      * discriminate.
  - rewrite orb_true_iff, starts_with_spec, IH. split.
    + intros [[r Hr] | (a & b & ->)].
      * exists [], r. exact Hr.
      * exists (c :: a), b. reflexivity.
    + intros (a & b & H). destruct a as [|d a]; simpl in H.
      * left. eauto.
      * right. injection H as -> ->. eauto.
Qed.

Lemma occurs_false k s :
  occurs k s = false <-> forall a b, s <> a ++ k ++ b.
Proof.
  rewrite <- not_true_iff_false, occurs_spec. split.
  - intros H a b E. apply H. eauto.
  - intros H (a & b & E). exact (H a b E).
Qed.

Lemma occurs_inside k a s b : occurs k s = true -> occurs k (a ++ s ++ b) = true.
Proof.
  rewrite !occurs_spec. intros (a' & b' & ->).
  exists (a ++ a'), (b' ++ b). by rewrite <- !app_assoc.
Qed.

Lemma occurs_here k a b : occurs k (a ++ k ++ b) = true.
Proof. apply occurs_spec. eauto. Qed.

Lemma occurs_trans k k' s :
  occurs k k' = true -> occurs k' s = true -> occurs k s = true.
Proof.
  intros (a1 & b1 & ->)%occurs_spec (a2 & b2 & ->)%occurs_spec.
  apply occurs_spec. exists (a2 ++ a1), (b1 ++ b2). by rewrite <- !app_assoc.
Qed.

Lemma occurs_app_l k a b : occurs k (a ++ b) = false -> occurs k a = false.
Proof.
  intros H. destruct (occurs k a) eqn:E; [|done].
  rewrite <- H. symmetry.
  rewrite <- (app_nil_l (a ++ b)). by apply occurs_inside.
Qed.

Lemma occurs_app_r k a b : occurs k (a ++ b) = false -> occurs k b = false.
Proof.
  intros H. destruct (occurs k b) eqn:E; [|done].
  rewrite <- H. symmetry.
  rewrite <- (app_nil_r b). by apply occurs_inside.
Qed.

Lemma mem_spec c s : mem c s = true <-> c ∈ s.
Proof.
  unfold mem. rewrite existsb_exists. split.
  - intros (d & Hd & E). apply Ascii.eqb_eq in E as ->. by apply list_elem_of_In.
  - intros H. exists c. split; [by apply list_elem_of_In | apply Ascii.eqb_refl].
Qed.

(** An occurrence of [k] in [x ++ v ++ y], with [v] inert for [k], lies
    within [x] or within [y]. *)
Lemma last_app_cons (w : text) (c : ascii) (u' : text) :
  last (w ++ c :: u') = last (c :: u').
Proof. rewrite last_app. by destruct (last (c :: u')) eqn:E; [| apply last_None in E]. Qed.

Lemma inert_split k v x y a b :
  inert k v = true ->
  x ++ v ++ y = a ++ k ++ b ->
  (exists u, x = a ++ k ++ u) \/ (exists w, a = x ++ v ++ w /\ y = w ++ k ++ b).
Proof.
  unfold inert. rewrite !andb_true_iff, !negb_true_iff.
  intros [[[Hne Hhd] Hlast] Hsub] E.
  destruct k as [|k0 k']; [simpl in Hhd; discriminate|].
  simpl in Hhd. rewrite negb_true_iff in Hhd.
  apply app_eq_inv in E as [(w & -> & E) | (w & -> & E)].
  - (* the occurrence starts within [x] *)
    apply app_eq_inv in E as [(u & E1 & E2) | (u & -> & E2)].
    + destruct u as [|u0 u'].
      * left. exists []. rewrite app_nil_r in E1. by rewrite E1, app_nil_r.
      * exfalso. symmetry in E2.
        apply app_eq_inv in E2 as [(t & E3 & _) | (t & E3 & _)].
        -- (* [v] lies inside the occurrence *)
           apply (proj1 (occurs_false _ _) Hsub w t).
           rewrite E1, E3. done.
        -- (* the occurrence ends inside [v] *)
           assert (Hl : last (k0 :: k') = last (u0 :: u'))
             by (rewrite E1; apply last_app_cons).
           destruct (last (u0 :: u')) as [c|] eqn:Hc;
             [| by apply last_None in Hc].
           rewrite Hl in Hlast. apply negb_true_iff in Hlast.
           apply not_true_iff_false in Hlast. apply Hlast, mem_spec.
           rewrite E3. apply elem_of_app. left.
           apply last_Some in Hc as [u'' ->]. apply elem_of_app. right.
           by apply list_elem_of_singleton.
    + left. exists u. by rewrite <- ?app_assoc.
  - (* the occurrence starts at or after the start of [v] *)
    symmetry in E.
    apply app_eq_inv in E as [(u & -> & E2) | (u & E1 & E2)].
    + right. exists u. split; [by rewrite <- ?app_assoc | done].
    + destruct u as [|u0 u'].
      * right. exists []. rewrite app_nil_r in E1. subst w.
        rewrite app_nil_r. split; [done|]. simpl in E2. by rewrite <- E2.
      * exfalso. simpl in E2. injection E2 as <- _.
        apply not_true_iff_false in Hhd.
        apply Hhd, mem_spec. rewrite E1. apply elem_of_app. right. left.
Qed.

End TextFacts.

Section ScanFacts.

Implicit Types k v s p t out : text.
Implicit Types m : matcher.

Lemma scan_skip m n s : scan m n s = scan m 0 (drop n s).
Proof.
  revert n. induction s as [|c s IH]; intros [|n]; simpl; auto.
Qed.

Lemma scan_match m c s out n :
  m (c :: s) = Some (out, n) -> scan m 0 (c :: s) = out ++ scan m 0 (drop n s).
Proof. intros H. simpl. rewrite H. by rewrite scan_skip. Qed.

Lemma scan_no_match m c s :
  m (c :: s) = None -> scan m 0 (c :: s) = c :: scan m 0 s.
Proof. intros H. simpl. by rewrite H. Qed.

(** A text in which the pattern matches nowhere is left as it is. *)
Lemma scan_id m s :
  (forall a b, s = a ++ b -> m b = None) -> scan m 0 s = s.
Proof.
  induction s as [|c s IH]; intros H; [done|].
  rewrite scan_no_match by (by apply (H [])).
  f_equal. apply IH. intros a b ->. by apply (H (c :: a)).
Qed.

Lemma literal_None old new s :
  occurs old s = false -> forall a b, s = a ++ b -> literal old new b = None.
Proof.
  intros H a b ->. unfold literal.
  destruct (starts_with old b) eqn:E; [|done].
  apply starts_with_spec in E as [r ->].
  exfalso. by apply (proj1 (occurs_false _ _) H a r).
Qed.

Lemma str_replace_id old new s :
  occurs old s = false -> str_replace old new s = s.
Proof.
  intros H. destruct old as [|c old]; [by destruct s|].
  simpl. apply scan_id. by apply literal_None.
Qed.

(** Substitution cannot create an occurrence of [k] when every
    replacement is inert for [k]. *)
Lemma scan_keeps_free m k :
  (forall t out n, m t = Some (out, n) -> inert k out = true) ->
  forall s p, occurs k (p ++ s) = false -> occurs k (p ++ scan m 0 s) = false.
Proof.
  intros Hm s. remember (length s) as n eqn:Hn.
  revert s Hn. induction n as [n IH] using lt_wf_ind. intros s -> p H.
  destruct s as [|c s]; [done|].
  destruct (m (c :: s)) as [[out j]|] eqn:E.
  - rewrite (scan_match _ _ _ _ _ E), app_assoc.
    apply (IH (length (drop j s))); [rewrite length_drop; simpl; lia | done |].
    rewrite <- app_assoc. apply occurs_false. intros a b Eab.
    apply (inert_split _ _ _ _ _ _ (Hm _ _ _ E)) in Eab as [[u ->] | (w & -> & Ew)].
    + apply (proj1 (occurs_false _ _) H a (u ++ c :: s)).
      by rewrite <- !app_assoc.
    + apply (proj1 (occurs_false _ _) H (p ++ c :: take j s ++ w) b).
      rewrite <- (take_drop j s) at 1. rewrite Ew.
      rewrite <- !app_assoc. simpl. by rewrite <- !app_assoc.
  - rewrite (scan_no_match _ _ _ E).
    replace (p ++ c :: scan m 0 s) with ((p ++ [c]) ++ scan m 0 s)
      by (by rewrite <- app_assoc).
    apply (IH (length s)); [simpl; lia | done |]. by rewrite <- app_assoc.
Qed.

Lemma scan_free m k s :
  (forall t out n, m t = Some (out, n) -> inert k out = true) ->
  occurs k s = false -> occurs k (scan m 0 s) = false.
Proof. intros Hm H. by apply (scan_keeps_free m k Hm s []). Qed.

Lemma str_replace_free k old new s :
  old <> [] -> inert k new = true -> occurs k s = false ->
  occurs k (str_replace old new s) = false.
Proof.
  intros Ho Hi H. destruct old as [|c old]; [done|].
  simpl. apply scan_free; [|done]. unfold literal. intros t out n.
  destruct (starts_with _ _); [|done]. by intros [= <- _].
Qed.

(** Replacing [k] by a text inert for [k] leaves no occurrence of [k]. *)
Lemma replace_removes_from k v :
  inert k v = true ->
  forall s p,
    (forall a b, p ++ s = a ++ k ++ b -> length p <= length a) ->
    occurs k (p ++ str_replace k v s) = false.
Proof.
  intros Hi.
  destruct k as [|k0 k'] eqn:Hk; [by unfold inert in Hi; simpl in Hi; rewrite andb_false_r in Hi|].
  rewrite <- Hk in *. assert (Hlen : 0 < length k) by (subst k; simpl; lia).
  assert (Hrep : forall s, str_replace k v s = scan (literal k v) 0 s)
    by (by subst k).
  intros s. remember (length s) as n eqn:Hn.
  revert s Hn. induction n as [n IH] using lt_wf_ind. intros s -> p H.
  rewrite Hrep. destruct s as [|c s].
  - simpl. apply occurs_false. intros a b E.
    specialize (H a b E). apply (f_equal length) in E.
    rewrite !length_app in E. simpl in E. lia.
  - destruct (literal k v (c :: s)) as [[out j]|] eqn:E.
    + rewrite (scan_match _ _ _ _ _ E), app_assoc, <- Hrep.
      unfold literal in E. destruct (starts_with k (c :: s)) eqn:Es; [|done].
      injection E as <- <-. apply starts_with_spec in Es as [r Er].
      assert (Hr : drop (Nat.pred (length k)) s = r).
      { subst k. simpl in *. injection Er as _ ->. by rewrite drop_app_length. }
      rewrite Hr.
      apply (IH (length r)); [|done|].
      { rewrite <- Hr, length_drop. simpl. lia. }
      intros a b Eab. rewrite <- app_assoc in Eab.
      apply (inert_split _ _ _ _ _ _ Hi) in Eab as [[u Eu] | (w & -> & Ew)].
      * exfalso. assert (length p <= length a).
        { apply (H a (u ++ c :: s)). rewrite Eu. by rewrite <- !app_assoc. }
        rewrite Eu, !length_app in *. lia.
      * rewrite !length_app. lia.
    + rewrite (scan_no_match _ _ _ E), <- Hrep.
      replace (p ++ c :: str_replace k v s) with ((p ++ [c]) ++ str_replace k v s)
        by (by rewrite <- app_assoc).
      apply (IH (length s)); [simpl; lia | done |].
      intros a b Eab. rewrite <- app_assoc in Eab. simpl in Eab.
      pose proof (H a b Eab) as Hle. rewrite length_app. simpl.
      destruct (decide (length a = length p)) as [Heq|]; [|lia].
      exfalso. apply app_inj_1 in Eab as [_ Eab]; [|done].
      unfold literal in E. rewrite Eab, starts_with_app in E. done.
Qed.

Lemma replace_removes k v s :
  inert k v = true -> occurs k (str_replace k v s) = false.
Proof.
  intros Hi. apply (replace_removes_from k v Hi s []).
  intros a b _. simpl. lia.
Qed.

End ScanFacts.

(* ===================================================================== *)
(** * The palette choice *)
(* ===================================================================== *)

Section PaletteFacts.

Import InitBlog.

Implicit Types k s x y cur : text.

Lemma occurs_around k v x y :
  inert k v = true -> occurs k (x ++ v ++ y) = occurs k x || occurs k y.
Proof.
  intros Hi. destruct (occurs k x) eqn:Hx; simpl.
  - rewrite <- (app_nil_l x), <- app_assoc. by apply occurs_inside.
  - destruct (occurs k y) eqn:Hy.
    + rewrite app_assoc, <- (app_nil_r y). by apply occurs_inside.
    + apply occurs_false. intros a b E.
      apply (inert_split _ _ _ _ _ _ Hi) in E as [[u ->] | (w & _ & ->)].
      * by rewrite occurs_here in Hx.
      * by rewrite occurs_here in Hy.
Qed.


Lemma occurs_nil_r k : k <> [] -> occurs k [] = false.
Proof. by destruct k. Qed.

Lemma inert_nonempty k v : inert k v = true -> k <> [].
Proof. unfold inert. destruct k; [simpl; by rewrite andb_false_r | done]. Qed.

(** A line-oriented search for a word without newline sees what a search
    of the whole text sees. *)
Lemma lines_from_occurs k cur s :
  inert k [nl] = true ->
  existsb (occurs k) (Bash.lines_from cur s) = occurs k (rev cur ++ s).
Proof.
  intros Hi. revert cur. induction s as [|c s IH]; intros cur; simpl.
  - by rewrite orb_false_r, app_nil_r.
  - destruct (Ascii.eqb c nl) eqn:E.
    + apply Ascii.eqb_eq in E as ->. simpl. rewrite IH. simpl.
      change (rev cur ++ nl :: s) with (rev cur ++ [nl] ++ s).
      by rewrite (occurs_around k [nl] (rev cur) s Hi).
    + rewrite IH. simpl. by rewrite <- app_assoc.
Qed.

Lemma existsb_swap {A B} (f : A -> B -> bool) (la : list A) (lb : list B) :
  existsb (fun a => existsb (f a) lb) la
  = existsb (fun b => existsb (fun a => f a b) la) lb.
Proof.
  induction la as [|a la IH]; simpl.
  - induction lb; simpl; auto.
  - rewrite IH. clear IH. induction lb as [|b lb IH]; simpl; [done|].
    rewrite <- IH. destruct (f a b), (existsb (f a) lb); simpl;
      rewrite ?orb_true_r; try done.
Qed.

Lemma grep_Eq_occurs alts input :
  forallb (fun k => inert k [nl]) alts = true ->
  Bash.grep_Eq alts input = existsb (fun k => occurs k input) alts.
Proof.
  intros H. unfold Bash.grep_Eq, Bash.lines.
  rewrite (existsb_swap (fun line alt => occurs alt line)).
  induction alts as [|k alts IH]; simpl in *; [done|].
  apply andb_true_iff in H as [Hk H]. rewrite (IH H). f_equal.
  apply (lines_from_occurs k [] input Hk).
Qed.

Lemma strip_newlines_front_spec s :
  exists j, s = replicate j nl ++ Bash.strip_newlines_front s.
Proof.
  induction s as [|c s [j IH]]; simpl.
  - by exists 0.
  - destruct (Ascii.eqb c nl) eqn:E.
    + apply Ascii.eqb_eq in E as ->. exists (S j). simpl. by rewrite <- IH.
    + by exists 0.
Qed.

Lemma rev_replicate (j : nat) (c : ascii) : rev (replicate j c) = replicate j c.
Proof.
  induction j as [|j IH]; simpl; [done|].
  rewrite IH. clear IH. induction j as [|j IH]; simpl; [done|]. by rewrite IH.
Qed.

Lemma command_subst_spec s :
  exists j, s = Bash.command_subst s ++ replicate j nl.
Proof.
  unfold Bash.command_subst.
  destruct (strip_newlines_front_spec (rev s)) as [j E]. exists j.
  rewrite <- (rev_involutive s) at 1. rewrite E at 1.
  by rewrite rev_app_distr, rev_replicate.
Qed.

Lemma occurs_newlines k j : k <> [] -> inert k [nl] = true -> occurs k (replicate j nl) = false.
Proof.
  intros Hk Hi. induction j as [|j IH]; simpl replicate.
  - by apply occurs_nil_r.
  - change (nl :: replicate j nl) with ([] ++ [nl] ++ replicate j nl).
    rewrite (occurs_around _ _ _ _ Hi), IH. by rewrite occurs_nil_r.
Qed.

Lemma occurs_trailing_newlines k s j :
  inert k [nl] = true -> occurs k (s ++ replicate j nl) = occurs k s.
Proof.
  intros Hi. pose proof (inert_nonempty _ _ Hi) as Hk.
  destruct j as [|j]; simpl replicate; [by rewrite app_nil_r|].
  change (nl :: replicate j nl) with ([nl] ++ replicate j nl).
  by rewrite (occurs_around _ _ _ _ Hi), occurs_newlines, orb_false_r.
Qed.

Lemma occurs_command_subst k s :
  inert k [nl] = true -> occurs k (Bash.command_subst s) = occurs k s.
Proof.
  intros Hi. destruct (command_subst_spec s) as [j E].
  rewrite E at 2. by rewrite occurs_trailing_newlines.
Qed.

Lemma occurs_needs_head k (c : ascii) s :
  hd_error k = Some c -> occurs k s = true -> c ∈ s.
Proof.
  intros Hc (a & b & ->)%occurs_spec. destruct k as [|c' k]; [done|].
  injection Hc as ->. rewrite !elem_of_app. right. left. left.
Qed.

Lemma echo_option_chars x (c : ascii) :
  Bash.echo_option x = true -> c ∈ x -> mem c (T "-neE") = true.
Proof.
  unfold Bash.echo_option. destruct x as [|d x]; [done|].
  destruct (decide (d = "-"%char)) as [->|Hd].
  - destruct x as [|d' x]; [done|]. intros H Hc.
    apply elem_of_cons in Hc as [->|Hc]; [done|].
    rewrite forallb_forall in H. apply list_elem_of_In in Hc.
    specialize (H _ Hc). apply mem_spec in H. apply mem_spec.
    simpl. by right.
  - destruct d as [[] [] [] [] [] [] [] []]; try done.
Qed.

(** A word that starts with none of the characters of an [echo] option
    and holds no newline is found in what [echo] prints exactly when it is
    found in the argument. *)
Lemma occurs_echo k (c : ascii) x :
  inert k [nl] = true -> hd_error k = Some c -> mem c (T "-neE") = false ->
  occurs k (Bash.echo x) = occurs k x.
Proof.
  intros Hi Hc Hout. pose proof (inert_nonempty _ _ Hi) as Hk.
  unfold Bash.echo. destruct (Bash.echo_option x) eqn:E.
  - transitivity false.
    + destruct (mem _ x); [by apply occurs_nil_r | by apply (occurs_newlines k 1)].
    + symmetry. apply not_true_iff_false. intros Ho.
      apply (occurs_needs_head _ _ _ Hc) in Ho.
      by rewrite (echo_option_chars _ _ E Ho) in Hout.
  - change (x ++ [nl]) with (x ++ replicate 1 nl). by apply occurs_trailing_newlines.
Qed.

Lemma to_lower_flag (c : ascii) :
  mem c (T "-neE") = true -> mem (to_lower c) (T "-neE") = true.
Proof.
  intros H. apply mem_spec in H.
  repeat (apply elem_of_cons in H as [->|H]; [done|]). by apply elem_of_nil in H.
Qed.

Lemma occurs_lower_echo k (c : ascii) x :
  inert k [nl] = true -> hd_error k = Some c -> mem c (T "-neE") = false ->
  occurs k (Bash.tr_upper_lower (Bash.echo x)) = occurs k (map to_lower x).
Proof.
  intros Hi Hc Hout. pose proof (inert_nonempty _ _ Hi) as Hk.
  unfold Bash.echo, Bash.tr_upper_lower. destruct (Bash.echo_option x) eqn:E.
  - transitivity false.
    + destruct (mem _ x); [by apply occurs_nil_r | by apply (occurs_newlines k 1)].
    + symmetry. apply not_true_iff_false. intros Ho.
      apply (occurs_needs_head _ _ _ Hc) in Ho.
      apply list_elem_of_fmap in Ho as (d & -> & Hd).
      by rewrite (to_lower_flag _ (echo_option_chars _ _ E Hd)) in Hout.
  - rewrite map_app. change (map to_lower [nl]) with (replicate 1 nl).
    by apply occurs_trailing_newlines.
Qed.

Lemma wine_words_inert : forallb (fun k => inert k [nl]) wine_words = true.
Proof. reflexivity. Qed.

(** The test of the palette branch is a search of the lower-cased topic
    for the three words. *)
Lemma is_wine_topic_spec topic :
  is_wine_topic topic
  = existsb (fun k => occurs k (map to_lower topic)) wine_words.
Proof.
  unfold is_wine_topic. rewrite (grep_Eq_occurs _ _ wine_words_inert).
  unfold wine_words, topic_lc. simpl existsb.
  rewrite !(occurs_echo _ "w"%char), !(occurs_echo _ "v"%char) by done.
  rewrite !occurs_command_subst by done.
  rewrite (occurs_lower_echo (T "wine") "w"%char) by done.
  rewrite (occurs_lower_echo (T "vino") "v"%char) by done.
  by rewrite (occurs_lower_echo (T "vin") "v"%char) by done.
Qed.

End PaletteFacts.

(* ===================================================================== *)
(** * Values that share no border with a word *)
(* ===================================================================== *)

Section BorderFacts.

Implicit Types k v s p x y a b u w t out : text.
Implicit Types m : matcher.

Lemma ends_with_spec k s : ends_with k s = true <-> exists r, s = r ++ k.
Proof.
  unfold ends_with. rewrite starts_with_spec. split.
  - intros [r Hr]. exists (rev r).
    rewrite <- (rev_involutive s), Hr, rev_app_distr. by rewrite rev_involutive.
  - intros [r ->]. exists (rev r). by rewrite rev_app_distr.
Qed.

Lemma apart_spec k v :
  apart k v = true ->
  occurs v k = false /\ occurs k v = false
  /\ forall i, 1 <= i < length k ->
       starts_with (drop i k) v = false /\ ends_with (take i k) v = false.
Proof.
  unfold apart. rewrite !andb_true_iff, !negb_true_iff, forallb_forall.
  intros [[H1 H2] H3]. split; [done|]. split; [done|]. intros i Hi.
  specialize (H3 i). rewrite in_seq, andb_true_iff, !negb_true_iff in H3.
  apply H3. lia.
Qed.

Lemma inert_seamless k v : inert k v = true -> seamless k v.
Proof. intros H x y a b. by apply inert_split. Qed.

(** The condition [apart] is enough for splicing. *)
Lemma apart_seamless k v : apart k v = true -> seamless k v.
Proof.
  intros (H1 & H2 & H3)%apart_spec x y a b E.
  apply app_eq_inv in E as [(w & -> & E) | (w & -> & E)].
  - (* the occurrence starts within [x] *)
    apply app_eq_inv in E as [(u & Ek & E) | (u & -> & E)].
    + destruct u as [|u0 u'].
      { left. exists []. rewrite app_nil_r in Ek. by rewrite Ek, !app_nil_r. }
      exfalso. symmetry in E.
      apply app_eq_inv in E as [(t & Eu & _) | (t & Ev & _)].
      * (* [v] lies inside [k] *)
        apply (proj1 (occurs_false _ _) H1 w t). by rewrite Ek, Eu.
      * (* an end of [k] begins [v] *)
        destruct w as [|w0 w'].
        { cbn [app] in Ek. subst k.
          apply (proj1 (occurs_false _ _) H2 [] t). by rewrite Ev. }
        destruct (H3 (length (w0 :: w'))) as [H _].
        { rewrite Ek, length_app. cbn [length]. lia. }
        rewrite Ek, drop_app_length in H.
        apply not_true_iff_false in H. apply H, starts_with_spec. eauto.
    + left. by exists u.
  - (* the occurrence starts at or after the start of [v] *)
    symmetry in E.
    apply app_eq_inv in E as [(u & -> & E) | (u & Ev & E)].
    + right. by exists u.
    + destruct u as [|u0 u'].
      { right. exists []. rewrite app_nil_r in Ev. subst w.
        rewrite app_nil_r. split; [done|]. cbn [app] in *. by rewrite E. }
      exfalso. apply app_eq_inv in E as [(t & Ek & _) | (t & Eu & _)].
      * (* a beginning of [k] ends [v] *)
        destruct t as [|t0 t'].
        { rewrite app_nil_r in Ek. subst k.
          apply (proj1 (occurs_false _ _) H2 w []). by rewrite app_nil_r. }
        destruct (H3 (length (u0 :: u'))) as [_ H].
        { rewrite Ek, length_app. cbn [length]. lia. }
        rewrite Ek, take_app_length in H.
        apply not_true_iff_false in H. apply H, ends_with_spec. eauto.
      * (* [k] lies inside [v] *)
        apply (proj1 (occurs_false _ _) H2 w t). by rewrite Ev, Eu.
Qed.

Lemma seamless_around k v x y :
  seamless k v -> occurs k x = false -> occurs k y = false ->
  occurs k (x ++ v ++ y) = false.
Proof.
  intros Hi Hx Hy. apply occurs_false. intros a b E.
  apply Hi in E as [[u ->] | (w & _ & ->)].
  - by rewrite occurs_here in Hx.
  - by rewrite occurs_here in Hy.
Qed.

(** Substitution cannot create an occurrence of [k] when every
    replacement can be spliced in. *)
Lemma scan_keeps_clear m k :
  (forall t out n, m t = Some (out, n) -> seamless k out) ->
  forall s p, occurs k (p ++ s) = false -> occurs k (p ++ scan m 0 s) = false.
Proof.
  intros Hm s. remember (length s) as n eqn:Hn.
  revert s Hn. induction n as [n IH] using lt_wf_ind. intros s -> p H.
  destruct s as [|c s]; [done|].
  destruct (m (c :: s)) as [[out j]|] eqn:E.
  - rewrite (scan_match _ _ _ _ _ E), app_assoc.
    apply (IH (length (drop j s))); [rewrite length_drop; simpl; lia | done |].
    rewrite <- app_assoc. apply occurs_false. intros a b Eab.
    apply (Hm _ _ _ E) in Eab as [[u ->] | (w & -> & Ew)].
    + apply (proj1 (occurs_false _ _) H a (u ++ c :: s)).
      by rewrite <- !app_assoc.
    + apply (proj1 (occurs_false _ _) H (p ++ c :: take j s ++ w) b).
      rewrite <- (take_drop j s) at 1. rewrite Ew.
      rewrite <- !app_assoc. simpl. by rewrite <- !app_assoc.
  - rewrite (scan_no_match _ _ _ E).
    replace (p ++ c :: scan m 0 s) with ((p ++ [c]) ++ scan m 0 s)
      by (by rewrite <- app_assoc).
    apply (IH (length s)); [simpl; lia | done |]. by rewrite <- app_assoc.
Qed.

Lemma str_replace_clear k old new s :
  old <> [] -> seamless k new -> occurs k s = false ->
  occurs k (str_replace old new s) = false.
Proof.
  intros Ho Hi H. destruct old as [|c old]; [done|].
  simpl. apply (scan_keeps_clear _ k) with (p := []); [|done].
  unfold literal. intros t out n.
  destruct (starts_with _ _); [|done]. by intros [= <- _].
Qed.

(** Replacing [k] by a text that can be spliced in leaves no occurrence
    of [k]. *)
Lemma replace_clears_from k v :
  k <> [] -> seamless k v ->
  forall s p,
    (forall a b, p ++ s = a ++ k ++ b -> length p <= length a) ->
    occurs k (p ++ str_replace k v s) = false.
Proof.
  intros Hne Hi.
  assert (Hlen : 0 < length k) by (destruct k; [done | simpl; lia]).
  assert (Hrep : forall s, str_replace k v s = scan (literal k v) 0 s)
    by (by destruct k).
  intros s. remember (length s) as n eqn:Hn.
  revert s Hn. induction n as [n IH] using lt_wf_ind. intros s -> p H.
  rewrite Hrep. destruct s as [|c s].
  - simpl. apply occurs_false. intros a b E.
    specialize (H a b E). apply (f_equal length) in E.
    rewrite !length_app in E. simpl in E. lia.
  - destruct (literal k v (c :: s)) as [[out j]|] eqn:E.
    + rewrite (scan_match _ _ _ _ _ E), app_assoc, <- Hrep.
      unfold literal in E. destruct (starts_with k (c :: s)) eqn:Es; [|done].
      injection E as <- <-. apply starts_with_spec in Es as [r Er].
      assert (Hr : drop (Nat.pred (length k)) s = r).
      { destruct k as [|k0 k']; [done|]. simpl in *. injection Er as _ ->.
        by rewrite drop_app_length. }
      rewrite Hr.
      apply (IH (length r)); [|done|].
      { rewrite <- Hr, length_drop. simpl. lia. }
      intros a b Eab. rewrite <- app_assoc in Eab.
      apply Hi in Eab as [[u Eu] | (w & -> & Ew)].
      * exfalso. assert (length p <= length a).
        { apply (H a (u ++ c :: s)). rewrite Eu. by rewrite <- !app_assoc. }
        rewrite Eu, !length_app in *. lia.
      * rewrite !length_app. lia.
    + rewrite (scan_no_match _ _ _ E), <- Hrep.
      replace (p ++ c :: str_replace k v s) with ((p ++ [c]) ++ str_replace k v s)
        by (by rewrite <- app_assoc).
      apply (IH (length s)); [simpl; lia | done |].
      intros a b Eab. rewrite <- app_assoc in Eab. simpl in Eab.
      pose proof (H a b Eab) as Hle. rewrite length_app. simpl.
      destruct (decide (length a = length p)) as [Heq|]; [|lia].
      exfalso. apply app_inj_1 in Eab as [_ Eab]; [|done].
      unfold literal in E. rewrite Eab, starts_with_app in E. done.
Qed.

Lemma replace_clears k v s :
  k <> [] -> seamless k v -> occurs k (str_replace k v s) = false.
Proof.
  intros Hne Hi. apply (replace_clears_from k v Hne Hi s []).
  intros a b _. simpl. lia.
Qed.

End BorderFacts.

Section ReadFacts.

Implicit Types k v s x y z : text.

Lemma line_end_out t out n : line_end t = Some (out, n) -> out = [nl].
Proof.
  unfold line_end. destruct t as [|c r]; [done|].
  destruct (Ascii.eqb c cr); [|done]. by intros [= <- _].
Qed.

Lemma line_end_None (c : ascii) r : c <> cr -> line_end (c :: r) = None.
Proof.
  intros H. unfold line_end. by rewrite (proj2 (Ascii.eqb_neq c cr) H).
Qed.

(** Reading a text creates no occurrence of a word without newline. *)
Lemma read_text_clear k s :
  inert k [nl] = true -> occurs k s = false -> occurs k (read_text s) = false.
Proof.
  intros Hi H. unfold read_text. apply scan_free; [|done].
  intros t out n ->%line_end_out. done.
Qed.

(** A text that has been read holds no carriage return. *)
Lemma read_text_no_cr s : mem cr (read_text s) = false.
Proof.
  unfold read_text. remember (length s) as n eqn:Hn.
  revert s Hn. induction n as [n IH] using lt_wf_ind. intros s ->.
  destruct s as [|c s]; [done|].
  destruct (line_end (c :: s)) as [[out j]|] eqn:E.
  - rewrite (scan_match _ _ _ _ _ E). apply line_end_out in E as ->.
    cbn [app mem existsb]. apply orb_false_iff. split; [done|].
    apply (IH (length (drop j s))); [rewrite length_drop; simpl; lia | done].
  - rewrite (scan_no_match _ _ _ E). cbn [mem existsb].
    apply orb_false_iff. split.
    + unfold line_end in E. rewrite Ascii.eqb_sym. by destruct (Ascii.eqb c cr).
    + by apply (IH (length s)); [simpl; lia|].
Qed.

(** A text without carriage return is read as it is. *)
Lemma read_text_id s : mem cr s = false -> read_text s = s.
Proof.
  intros H. unfold read_text. apply scan_id. intros a b ->.
  destruct b as [|c r]; [done|]. apply line_end_None. intros ->.
  apply not_true_iff_false in H. apply H, mem_spec.
  apply elem_of_app. right. left.
Qed.

Lemma read_text_twice s : read_text (read_text s) = read_text s.
Proof. apply read_text_id, read_text_no_cr. Qed.

(** Reading goes through a seam that no line end crosses. *)
Lemma read_text_app x z :
  hd_error z <> Some nl -> read_text (x ++ z) = read_text x ++ read_text z.
Proof.
  intros Hz. unfold read_text. remember (length x) as n eqn:Hn.
  revert x Hn. induction n as [n IH] using lt_wf_ind. intros x ->.
  destruct x as [|c x]; [done|]. cbn [app].
  destruct (decide (c = cr)) as [->|Hc].
  - destruct x as [|d x].
    + (* the carriage return is the last character before the seam *)
      cbn [app]. destruct z as [|e z]; [done|].
      assert (He : Ascii.eqb e nl = false).
      { apply Ascii.eqb_neq. intros ->. by apply Hz. }
      cbn [scan line_end]. rewrite Ascii.eqb_refl, He. done.
    + cbn [app]. destruct (Ascii.eqb d nl) eqn:Ed.
      * rewrite (scan_match _ _ _ [nl] 1), (scan_match _ _ (d :: x) [nl] 1);
          [| by cbn; rewrite Ed | by cbn; rewrite Ed].
        cbn [drop app]. f_equal. rewrite !drop_0.
        apply (IH (length x)); [simpl; lia | done].
      * rewrite (scan_match _ _ _ [nl] 0), (scan_match _ _ (d :: x) [nl] 0);
          [| by cbn; rewrite Ed | by cbn; rewrite Ed].
        cbn [app]. f_equal. rewrite !drop_0.
        apply (IH (length (d :: x)) ltac:(simpl; lia) (d :: x) eq_refl).
  - rewrite !scan_no_match by by apply line_end_None.
    cbn [app]. f_equal. by apply (IH (length x)); [simpl; lia|].
Qed.

End ReadFacts.

Section PaletteClaim.

Import InitBlog.

(** C1 (as amended): for a topic that is one line once it is
    lower-cased, the palette branch is taken exactly when the lower-cased
    topic holds one of the words [wine], [vino], [vin]; every other such
    topic gets the default palette. *)
Theorem palette_for_wine_words (topic : text) :
  one_line topic = true ->
  let lc := map to_lower topic in
  let found := occurs (T "wine") lc || occurs (T "vino") lc || occurs (T "vin") lc in
  (palette_for topic = wine_palette <-> found = true)
  /\ (palette_for topic = default_palette <-> found = false).
Proof.
  intros _ lc found. unfold palette_for. rewrite is_wine_topic_spec.
  assert (E : existsb (fun k => occurs k (map to_lower topic)) wine_words = found)
    by (unfold found, lc, wine_words; simpl existsb;
        by rewrite orb_false_r, orb_assoc).
  rewrite E. clearbody found.
  destruct found; (split; split; intros H); try reflexivity; discriminate.
Qed.

(** C1, witness: the topic of the README. *)
Lemma palette_for_wine_words_sample :
  palette_for (T "wine trends and guides") = wine_palette.
Proof.
  exact (proj2 (proj1 (palette_for_wine_words (T "wine trends and guides") eq_refl))
           eq_refl).
Defined.

(** C1, counterexample: the topic [Vinyl records], of one line, does not
    hold [wine] in any letter case, and still gets the wine palette. *)
Lemma vinyl_gets_wine_palette :
  one_line (T "Vinyl records") = true
  /\ occurs (T "wine") (map to_lower (T "Vinyl records")) = false
  /\ palette_for (T "Vinyl records") = wine_palette
  /\ palette_for (T "Vinyl records") <> default_palette.
Proof. split; [|split; [|split]]; [reflexivity | reflexivity | reflexivity | discriminate]. Qed.

End PaletteClaim.

(* ===================================================================== *)
(** * Arguments: animation speed and subscribe address *)
(* ===================================================================== *)

Section ArgumentFacts.

Import InitBlog.

(** The theme-config variant clamps the speed. *)
Lemma animationSpeedSec_clamped (speed : Z) :
  (8 <= ThemeConfig.animationSpeedSec speed <= 60)%Z
  /\ ((speed < 8)%Z -> ThemeConfig.animationSpeedSec speed = 8%Z)
  /\ ((60 < speed)%Z -> ThemeConfig.animationSpeedSec speed = 60%Z)
  /\ ((8 <= speed <= 60)%Z -> ThemeConfig.animationSpeedSec speed = speed).
Proof. unfold ThemeConfig.animationSpeedSec. lia. Qed.

(** C2: with [--speed 5] the placeholder pipeline substitutes the text
    [5] for the speed placeholder, unclamped, where the theme-config
    variant of the script writes 8; likewise 999 stays 999 there and
    becomes 60 here. *)
Theorem speed_placeholder_is_verbatim :
  read_args Samples.speed5_argv = Some Samples.speed5_args
  /\ InitPy.value_of (T "__ANIM_SPEED__") (InitPy.repl (export Samples.speed5_args))
     = Some (T "5")
  /\ InitPy.substitute (export Samples.speed5_args) (T "speed: __ANIM_SPEED__s")
     = T "speed: 5s"
  /\ ThemeConfig.speed_written (T "5") = Some 8%Z
  /\ ThemeConfig.speed_written (T "999") = Some 60%Z.
Proof. repeat split; reflexivity. Qed.

Lemma set_flag_other flag v a a' :
  set_flag flag v a = Some a' -> flag <> T "--subscribe-email" ->
  SUBSCRIBE_EMAIL a' = SUBSCRIBE_EMAIL a.
Proof.
  unfold set_flag. intros H Hne.
  repeat (case_decide; [by injection H as <-|]). done.
Qed.

Lemma set_flag_domain flag v a a' :
  set_flag flag v a = Some a' -> flag <> T "--domain" -> DOMAIN a' = DOMAIN a.
Proof.
  unfold set_flag. intros H Hne.
  repeat (case_decide; [by injection H as <-|]). done.
Qed.

Lemma parse_args_keeps_email argv :
  forall a a', T "--subscribe-email" ∉ argv -> parse_args argv a = Some a' ->
    SUBSCRIBE_EMAIL a' = SUBSCRIBE_EMAIL a.
Proof.
  remember (length argv) as n eqn:Hn. revert argv Hn.
  induction n as [n IH] using lt_wf_ind. intros argv -> a a' Hno H.
  destruct argv as [|flag [|v rest]]; simpl in H.
  - by injection H as <-.
  - by destruct (set_flag flag [] a).
  - destruct (set_flag flag v a) as [a1|] eqn:E; [|done].
    rewrite (IH (length rest)) with (argv := rest) (a := a1); try done.
    + eapply set_flag_other; [done|]. intros ->. apply Hno. left.
    + simpl. lia.
    + intros Hin. apply Hno. by do 2 right.
Qed.

Lemma parse_args_words (pairs : list (text * text)) rest a :
  parse_args (flat_map (fun p => [fst p; snd p]) pairs ++ rest) a
  = match parse_args (flat_map (fun p => [fst p; snd p]) pairs) a with
    | Some a' => parse_args rest a'
    | None => None
    end.
Proof.
  revert a. induction pairs as [|[f v] pairs IH]; intros a; simpl; [done|].
  destruct (set_flag f v a); [apply IH | done].
Qed.

Lemma validate_email a0 a :
  validate a0 = Some a ->
  DOMAIN a = DOMAIN a0
  /\ SUBSCRIBE_EMAIL a
     = if is_empty (SUBSCRIBE_EMAIL a0) then T "info@" ++ DOMAIN a0
       else SUBSCRIBE_EMAIL a0.
Proof.
  unfold validate. destruct (_ || _); [done|].
  destruct (is_empty (SUBSCRIBE_EMAIL a0)) eqn:E; intros [= <-]; simpl; by rewrite ?E.
Qed.

(** The subscribe address of the arguments: when the flag is omitted (or
    its value is empty) it is [info@] followed by the domain, and a
    non-empty value given with the flag is taken as it is. *)
Lemma subscribe_email_rule (argv : list text) (a : args) :
  read_args argv = Some a ->
  (T "--subscribe-email" ∉ argv ->
   SUBSCRIBE_EMAIL a = T "info@" ++ DOMAIN a)
  /\ (forall (pairs : list (text * text)) (v : text) (post : list text),
        argv = flat_map (fun p => [fst p; snd p]) pairs
                 ++ T "--subscribe-email" :: v :: post ->
        T "--subscribe-email" ∉ post ->
        SUBSCRIBE_EMAIL a = if is_empty v then T "info@" ++ DOMAIN a else v).
Proof.
  unfold read_args. destruct (parse_args argv initial_args) as [a0|] eqn:Hp; [|done].
  intros Hv. destruct (validate_email _ _ Hv) as [Hd He]. split.
  - intros Hno. rewrite He, Hd.
    by rewrite (parse_args_keeps_email _ _ _ Hno Hp).
  - intros pairs v post -> Hno. rewrite parse_args_words in Hp.
    destruct (parse_args (flat_map _ pairs) initial_args) as [a1|]; [|done].
    simpl in Hp. rewrite He, Hd.
    by rewrite (parse_args_keeps_email _ _ _ Hno Hp).
Qed.

End ArgumentFacts.

(* ===================================================================== *)
(** * Asset provisioning *)
(* ===================================================================== *)

Section AssetFacts.

Import InitBlog InitPy.

Implicit Types fs : files.
Implicit Types e : env.
Implicit Types w : world.

(** The brand file names never collide with the canonical names, with
    each other, or with the shells. *)
Lemma logo_path_export a :
  exists rest, logo_path (export a) = String "l" (String "o" (String "g" (String "o" (String "-" rest)))).
Proof. eexists. reflexivity. Qed.

Lemma hero_path_export a :
  exists rest, hero_path (export a) = String "h" (String "e" (String "r" (String "o" (String "-" rest)))).
Proof. eexists. reflexivity. Qed.

Lemma generate_assets_other e w fs p :
  p <> logo_path e -> p <> hero_path e ->
  fst (generate_assets e w fs) !! p = fs !! p.
Proof.
  intros Hl Hh. unfold generate_assets, try_generate.
  destruct (is_empty (api_key w)); [done|].
  destruct (logo_answer w), (hero_answer w); simpl;
    by rewrite ?lookup_insert_ne.
Qed.

Lemma copy_if_missing_other source target fs p :
  p <> target -> copy_if_missing source target fs !! p = fs !! p.
Proof.
  intros H. unfold copy_if_missing.
  destruct (fs !! target), (fs !! source); by rewrite ?lookup_insert_ne.
Qed.

Lemma copy_if_present_other source target fs p :
  p <> target -> copy_if_present source target fs !! p = fs !! p.
Proof.
  intros H. unfold copy_if_present.
  destruct (fs !! source); by rewrite ?lookup_insert_ne.
Qed.

Lemma copy_if_missing_target source target fs :
  copy_if_missing source target fs !! target
  = match fs !! target with Some b => Some b | None => fs !! source end.
Proof.
  unfold copy_if_missing.
  destruct (fs !! target) eqn:Et, (fs !! source) eqn:Es;
    by rewrite ?lookup_insert_eq.
Qed.

Lemma copy_if_present_target source target fs :
  copy_if_present source target fs !! target
  = match fs !! source with Some b => Some b | None => fs !! target end.
Proof.
  unfold copy_if_present. destruct (fs !! source) eqn:Es; by rewrite ?lookup_insert_eq.
Qed.

Lemma canonicalize_other e fs p :
  p ∉ asset_paths e -> canonicalize e fs !! p = fs !! p.
Proof.
  unfold asset_paths. rewrite !not_elem_of_cons. intros (? & ? & ? & ? & _).
  unfold canonicalize.
  by rewrite !copy_if_present_other, !copy_if_missing_other.
Qed.

(** Provisioning touches the four image files only. *)
Lemma provision_other e w fs p :
  p ∉ asset_paths e -> fst (provision e w fs) !! p = fs !! p.
Proof.
  intros H. unfold provision. simpl. rewrite canonicalize_other by done.
  unfold asset_paths in H. rewrite !not_elem_of_cons in H.
  destruct H as (? & ? & _). by apply generate_assets_other.
Qed.

(** What the canonical copies leave behind, for distinct file names. *)
Lemma canonicalize_logo e fs :
  logo_path e <> "logo.png"%string -> logo_path e <> hero_path e ->
  logo_path e <> "hero_ai.jpg"%string -> hero_path e <> "logo.png"%string ->
  let merged := match fs !! logo_path e with
                | Some b => Some b
                | None => fs !! "logo.png"%string
                end in
  canonicalize e fs !! logo_path e = merged
  /\ canonicalize e fs !! "logo.png"%string = merged.
Proof.
  intros H1 H2 H3 H4 merged. unfold canonicalize.
  set (fs1 := copy_if_missing "logo.png" (logo_path e) fs).
  set (fs2 := copy_if_missing "hero_ai.jpg" (hero_path e) fs1).
  assert (E1 : fs1 !! logo_path e = merged) by apply copy_if_missing_target.
  assert (E1' : fs1 !! "logo.png"%string = fs !! "logo.png"%string)
    by (by apply copy_if_missing_other).
  assert (E2 : fs2 !! logo_path e = merged)
    by (unfold fs2; by rewrite copy_if_missing_other).
  assert (E2' : fs2 !! "logo.png"%string = fs !! "logo.png"%string)
    by (unfold fs2; by rewrite copy_if_missing_other).
  split.
  - rewrite copy_if_present_other by done.
    rewrite copy_if_present_other by done. done.
  - rewrite copy_if_present_other by done.
    rewrite copy_if_present_target, E2, E2'. subst merged.
    destruct (fs !! logo_path e); [done|].
    by destruct (fs !! "logo.png"%string).
Qed.

Lemma canonicalize_hero e fs :
  hero_path e <> "hero_ai.jpg"%string -> logo_path e <> hero_path e ->
  logo_path e <> "hero_ai.jpg"%string -> hero_path e <> "logo.png"%string ->
  let merged := match fs !! hero_path e with
                | Some b => Some b
                | None => fs !! "hero_ai.jpg"%string
                end in
  canonicalize e fs !! hero_path e = merged
  /\ canonicalize e fs !! "hero_ai.jpg"%string = merged.
Proof.
  intros H1 H2 H3 H4 merged. unfold canonicalize.
  set (fs1 := copy_if_missing "logo.png" (logo_path e) fs).
  set (fs2 := copy_if_missing "hero_ai.jpg" (hero_path e) fs1).
  set (fs3 := copy_if_present (logo_path e) "logo.png" fs2).
  assert (E1 : fs1 !! hero_path e = fs !! hero_path e)
    by (by apply copy_if_missing_other).
  assert (E1' : fs1 !! "hero_ai.jpg"%string = fs !! "hero_ai.jpg"%string)
    by (apply copy_if_missing_other; congruence).
  assert (E2 : fs2 !! hero_path e = merged)
    by (unfold fs2; by rewrite copy_if_missing_target, E1, E1').
  assert (E2' : fs2 !! "hero_ai.jpg"%string = fs !! "hero_ai.jpg"%string)
    by (unfold fs2; rewrite copy_if_missing_other by congruence; done).
  assert (E3 : fs3 !! hero_path e = merged)
    by (unfold fs3; by rewrite copy_if_present_other).
  assert (E3' : fs3 !! "hero_ai.jpg"%string = fs !! "hero_ai.jpg"%string)
    by (unfold fs3; by rewrite copy_if_present_other).
  split.
  - by rewrite copy_if_present_other.
  - rewrite copy_if_present_target, E3, E3'. subst merged.
    destruct (fs !! hero_path e); [done|].
    by destruct (fs !! "hero_ai.jpg"%string).
Qed.

End AssetFacts.

Section ProvisionClaims.

Import InitBlog InitPy.

Implicit Types fs : files.
Implicit Types w : world.
Implicit Types a : args.

Lemma export_paths_distinct a :
  let e := export a in
  logo_path e <> "logo.png"%string /\ hero_path e <> "hero_ai.jpg"%string
  /\ logo_path e <> hero_path e /\ logo_path e <> "hero_ai.jpg"%string
  /\ hero_path e <> "logo.png"%string.
Proof.
  intros e.
  destruct (logo_path_export a) as [l Hl], (hero_path_export a) as [h Hh].
  subst e. rewrite Hl, Hh. repeat split; discriminate.
Qed.

Lemma shells_not_assets a :
  (home_shell ∉ asset_paths (export a)) /\ (blog_shell ∉ asset_paths (export a)).
Proof.
  unfold asset_paths.
  destruct (logo_path_export a) as [l ->], (hero_path_export a) as [h ->].
  rewrite !not_elem_of_cons. repeat split; try discriminate; apply not_elem_of_nil.
Qed.

(** What generation leaves in the brand files. *)
Lemma generate_assets_logo a w fs :
  fst (generate_assets (export a) w fs) !! logo_path (export a)
  = match logo_answer w with
    | Some image => if is_empty (api_key w) then fs !! logo_path (export a)
                    else Some image
    | None => fs !! logo_path (export a)
    end.
Proof.
  destruct (export_paths_distinct a) as (_ & _ & Hlh & _).
  unfold generate_assets, try_generate.
  destruct (is_empty (api_key w)); [by destruct (logo_answer w)|].
  destruct (logo_answer w), (hero_answer w); simpl;
    rewrite ?lookup_insert_ne by done; by rewrite ?lookup_insert_eq.
Qed.

Lemma generate_assets_hero a w fs :
  fst (generate_assets (export a) w fs) !! hero_path (export a)
  = match hero_answer w with
    | Some image => if is_empty (api_key w) then fs !! hero_path (export a)
                    else Some image
    | None => fs !! hero_path (export a)
    end.
Proof.
  destruct (export_paths_distinct a) as (_ & _ & Hlh & _).
  unfold generate_assets, try_generate.
  destruct (is_empty (api_key w)); [by destruct (hero_answer w)|].
  destruct (logo_answer w), (hero_answer w); simpl;
    rewrite ?lookup_insert_eq; by rewrite ?lookup_insert_ne.
Qed.

Lemma generate_assets_canonical a w fs p :
  p = "logo.png"%string \/ p = "hero_ai.jpg"%string ->
  fst (generate_assets (export a) w fs) !! p = fs !! p.
Proof.
  destruct (export_paths_distinct a) as (H1 & H2 & H3 & H4 & H5).
  intros [-> | ->]; by apply generate_assets_other.
Qed.

(** C6 (as amended): after provisioning the brand file and the canonical
    file hold the same thing, for the logo and for the hero image: both
    exist with equal content when the image was generated in this run or
    one of the two files was there before, and neither exists otherwise. *)
Theorem canonical_assets_agree (a : args) (w : world) (fs : files) :
  let e := export a in
  let fs' := fst (provision e w fs) in
  let generated (answer : option text) :=
    if is_empty (api_key w) then None else answer in
  fs' !! logo_path e = fs' !! "logo.png"%string
  /\ fs' !! hero_path e = fs' !! "hero_ai.jpg"%string
  /\ (is_Some (fs' !! "logo.png"%string) <->
      is_Some (generated (logo_answer w)) \/ is_Some (fs !! logo_path e)
      \/ is_Some (fs !! "logo.png"%string))
  /\ (is_Some (fs' !! "hero_ai.jpg"%string) <->
      is_Some (generated (hero_answer w)) \/ is_Some (fs !! hero_path e)
      \/ is_Some (fs !! "hero_ai.jpg"%string)).
Proof.
  intros e fs' generated.
  destruct (export_paths_distinct a) as (H1 & H2 & H3 & H4 & H5).
  set (fs0 := fst (generate_assets e w fs)).
  destruct (canonicalize_logo e fs0 H1 H3 H4 H5) as [El Ec].
  destruct (canonicalize_hero e fs0 H2 H3 H4 H5) as [Eh Ej].
  assert (Hfs' : fs' = canonicalize e fs0) by done.
  rewrite Hfs', El, Ec, Eh, Ej. unfold fs0, e.
  rewrite generate_assets_logo, generate_assets_hero.
  rewrite !generate_assets_canonical by auto.
  unfold generated. split; [done|]. split; [done|]. split.
  - destruct (is_empty (api_key w)), (logo_answer w),
      (fs !! logo_path (export a)), (fs !! "logo.png"%string);
      rewrite !is_Some_alt; tauto.
  - destruct (is_empty (api_key w)), (hero_answer w),
      (fs !! hero_path (export a)), (fs !! "hero_ai.jpg"%string);
      rewrite !is_Some_alt; tauto.
Qed.

(** C6, counterexample: in an empty site directory and without a
    credential neither the brand logo nor [logo.png] exists afterwards. *)
Lemma no_logo_from_nothing :
  let e := export Samples.example_args in
  let fs' := fst (provision e Samples.offline Samples.empty_site) in
  logo_path e = "logo-example-co.png"%string
  /\ fs' !! "logo-example-co.png"%string = None
  /\ fs' !! "logo.png"%string = None.
Proof. repeat split; vm_compute; reflexivity. Qed.

End ProvisionClaims.

Section AbortClaims.

Import InitBlog InitPy.

Implicit Types fs : files.
Implicit Types w : world.
Implicit Types a : args.

Lemma accent_rgb a : exists rgb, hex_to_rgb (INIT_ACCENT (export a)) = Some rgb.
Proof.
  simpl. unfold palette_for. destruct (is_wine_topic (TOPIC a));
    eexists; vm_compute; reflexivity.
Qed.

Lemma provision_shells a w fs :
  fst (provision (export a) w fs) !! home_shell = fs !! home_shell
  /\ fst (provision (export a) w fs) !! blog_shell = fs !! blog_shell.
Proof.
  destruct (shells_not_assets a) as [Hh Hb].
  split; by apply provision_other.
Qed.

Lemma printed_prefix a w fs :
  exists tail, printed (main (export a) w fs)
               = snd (generate_assets (export a) w fs) ++ tail.
Proof.
  unfold main. destruct (materialize _); cbn [printed].
  - exists []. by rewrite app_nil_r.
  - destruct (patch_blog_template_palette _ _); cbn [printed]; eauto.
    exists []. by rewrite app_nil_r.
Qed.

(** The program finishes only when both shells are there. *)
Lemma main_finished_shells a w fs :
  how (main (export a) w fs) = Finished ->
  is_Some (fs !! home_shell) /\ is_Some (fs !! blog_shell).
Proof.
  destruct (provision_shells a w fs) as [Eh Eb].
  unfold main, materialize. rewrite Eh, Eb.
  destruct (fs !! home_shell) as [home|], (fs !! blog_shell) as [blog|];
    cbn [how]; try discriminate. eauto.
Qed.

(** C3 (as amended): when a shell is missing the program stops with
    [SystemExit] right after asset provisioning.  No page has been written
    and no placeholder replaced: the site is the one provisioning left,
    which differs from the one the program started with in the four image
    files at most. *)
Theorem missing_shell_stops_after_assets (a : args) (w : world) (fs : files) :
  fs !! home_shell = None \/ fs !! blog_shell = None ->
  let r := main (export a) w fs in
  (exists msg, how r = SystemExit msg)
  /\ site r = fst (provision (export a) w fs)
  /\ (forall p, p ∉ asset_paths (export a) -> site r !! p = fs !! p)
  /\ placeholders_applied ∉ printed r.
Proof.
  intros Hmiss r. subst r.
  destruct (provision_shells a w fs) as [Eh Eb].
  assert (Hm : exists msg, materialize (fst (provision (export a) w fs)) = inl msg).
  { unfold materialize. rewrite Eh, Eb.
    destruct Hmiss as [-> | ->]; [eauto|]. destruct (fs !! home_shell); eauto. }
  destruct Hm as [msg Hm]. unfold main. rewrite Hm. cbn [how site printed provision snd].
  split; [eauto|]. split; [done|]. split.
  - intros p Hp. by apply provision_other.
  - unfold generate_assets, try_generate.
    destruct (is_empty (api_key w)); [apply not_elem_of_nil|].
    destruct (logo_answer w), (hero_answer w); cbn [snd app];
      rewrite !not_elem_of_cons; repeat split; try discriminate;
      apply not_elem_of_nil.
Qed.

(** C3, witness: the site that holds only [logo.png]. *)
Lemma missing_shell_stops_sample :
  exists msg,
    how (main (export Samples.example_args) Samples.offline Samples.logo_only_site)
    = SystemExit msg.
Proof.
  exact (proj1 (missing_shell_stops_after_assets Samples.example_args
                  Samples.offline Samples.logo_only_site (or_introl eq_refl))).
Defined.

(** C3, counterexample: without the shells the run ends with exit status
    1, and the brand logo, which was not there before, has been written. *)
Lemma abort_leaves_a_new_file :
  let r := Orchestrator.init_blog Samples.offline Samples.example_argv
             Samples.logo_only_site in
  Orchestrator.status r = Orchestrator.Exit1
  /\ Samples.logo_only_site !! "logo-example-co.png"%string = None
  /\ Orchestrator.final r !! "logo-example-co.png"%string = Some (T "default logo").
Proof. repeat split; vm_compute; reflexivity. Qed.

(** C5: a run without a credential on the template site goes through to
    exit status 0 and prints nothing about the images: no generation is
    tried and no warning is logged, where the claim has a warning for a
    missing credential.  With a credential the same script logs each
    failed generation, and the theme-config variant of the script prints
    its two warnings without a credential too. *)
Theorem missing_credential_logs_nothing :
  let r := Orchestrator.init_blog Samples.offline Samples.example_argv
             Samples.template_site in
  let r' := Orchestrator.init_blog Samples.failing_service Samples.example_argv
              Samples.template_site in
  api_key Samples.offline = []
  /\ Orchestrator.status r = Orchestrator.Exit0
  /\ Orchestrator.log r = [placeholders_applied]
  /\ existsb is_warning (Orchestrator.log r) = false
  /\ Orchestrator.log r'
     = [logo_generation_failed; hero_generation_failed; placeholders_applied]
  /\ snd (ThemeInit.images [] None None Samples.template_site)
     = [ThemeInit.warn_logo; ThemeInit.warn_hero].
Proof. repeat split; vm_compute; reflexivity. Qed.

(** C7: without a credential, a brand logo left by an earlier run
    replaces the current [logo.png], where the claim has [logo.png] kept
    byte for byte; the run ends with exit status 0.  The theme-config
    variant of the script writes no image without a credential. *)
Theorem stale_brand_logo_replaces_logo :
  let r := Orchestrator.init_blog Samples.offline Samples.example_argv
             Samples.stale_logo_site in
  api_key Samples.offline = []
  /\ Samples.stale_logo_site !! "logo.png"%string = Some (T "default logo")
  /\ Samples.stale_logo_site !! "logo-example-co.png"%string
     = Some (T "earlier brand logo")
  /\ Orchestrator.status r = Orchestrator.Exit0
  /\ Orchestrator.final r !! "logo.png"%string = Some (T "earlier brand logo")
  /\ fst (ThemeInit.images [] None None Samples.stale_logo_site)
       !! "logo.png"%string
     = Some (T "default logo").
Proof. repeat split; vm_compute; reflexivity. Qed.

End AbortClaims.

(* ===================================================================== *)
(** * Policy pages *)
(* ===================================================================== *)

Section PolicyFacts.

Import InitBlog InitPy.

Implicit Types fs : files.
Implicit Types e : env.
Implicit Types k x y : text.

Lemma occurs_skip k x y : occurs k y = true -> occurs k (x ++ y) = true.
Proof.
  intros H. pose proof (occurs_inside k x y [] H) as Hi.
  by rewrite app_nil_r in Hi.
Qed.

Lemma occurs_take k x y : occurs k x = true -> occurs k (x ++ y) = true.
Proof. intros H. by apply (occurs_inside k [] x y). Qed.

Lemma occurs_refl k : occurs k k = true.
Proof. rewrite <- (app_nil_r k) at 2. apply (occurs_here k []). Qed.

(** The link every policy page carries. *)
Lemma mail_button_link e :
  occurs (Q "href=`mailto:info@" ++ INIT_DOMAIN e ++ Q "`") (mail_button e) = true.
Proof.
  unfold mail_button.
  change (Q "<a class=`btn` href=`mailto:info@")
    with (Q "<a class=`btn` " ++ Q "href=`mailto:info@").
  change (Q "`>info@") with (Q "`" ++ T ">info@").
  rewrite <- !app_assoc.
  apply occurs_skip. rewrite !app_assoc. do 3 apply occurs_take.
  apply occurs_refl.
Qed.

Lemma mail_button_domain e : occurs (INIT_DOMAIN e) (mail_button e) = true.
Proof. unfold mail_button. apply occurs_skip, occurs_take, occurs_refl. Qed.

Lemma page_holds_body e k title body :
  occurs k body = true -> occurs k (page e title body) = true.
Proof.
  intros H. unfold page.
  (* walk along the chain of appends to the body *)
  repeat first [ apply occurs_take; exact H | apply occurs_skip ].
Qed.

Lemma policy_bodies_hold_button e k :
  occurs k (mail_button e) = true ->
  occurs k (privacy_body e) = true /\ occurs k (terms_body e) = true
  /\ occurs k (refund_body e) = true.
Proof.
  intros H. unfold privacy_body, terms_body, refund_body.
  repeat split;
    repeat first [ apply occurs_take; exact H | apply occurs_skip ].
Qed.

(** Every policy page names the domain and links to [info@] at the
    domain, whatever the domain is. *)
Lemma pages_hold_domain e p html :
  (p, html) ∈ pages e ->
  occurs (INIT_DOMAIN e) html = true
  /\ occurs (Q "href=`mailto:info@" ++ INIT_DOMAIN e ++ Q "`") html = true.
Proof.
  destruct (policy_bodies_hold_button e _ (mail_button_domain e)) as (D1 & D2 & D3).
  destruct (policy_bodies_hold_button e _ (mail_button_link e)) as (L1 & L2 & L3).
  unfold pages. rewrite !elem_of_cons.
  intros [[= -> ->] | [[= -> ->] | [[= -> ->] | []%elem_of_nil]]];
    split; by apply page_holds_body.
Qed.

Lemma write_policy_pages_lookup e fs p :
  write_policy_pages e fs !! p
  = if decide (p = refund_path) then Some (page e (T "Refund Policy") (refund_body e))
    else if decide (p = terms_path)
         then Some (page e (T "Terms of Service") (terms_body e))
    else if decide (p = privacy_path)
         then Some (page e (T "Privacy Policy") (privacy_body e))
    else fs !! p.
Proof.
  unfold write_policy_pages, pages. cbn [fold_left fst snd].
  rewrite !lookup_insert. repeat case_decide; congruence.
Qed.

Lemma write_policy_pages_written e fs p :
  p ∈ [privacy_path; terms_path; refund_path] ->
  exists html, (p, html) ∈ pages e /\ write_policy_pages e fs !! p = Some html.
Proof.
  rewrite write_policy_pages_lookup, !elem_of_cons. unfold pages.
  intros [-> | [-> | [-> | []%elem_of_nil]]]; eexists; (split; [|reflexivity]);
    rewrite !elem_of_cons; auto.
Qed.

Lemma patch_other e fs fs' p :
  patch_blog_template_palette e fs = Some fs' -> p <> template_path ->
  fs' !! p = fs !! p.
Proof.
  unfold patch_blog_template_palette. intros H Hp.
  destruct (fs !! template_path); [|by injection H as <-].
  destruct (hex_to_rgb _); [|done]. injection H as <-.
  by rewrite lookup_insert_ne.
Qed.

Lemma make_logo_transparent_other w logo fs p :
  p <> logo -> p <> "logo.png"%string ->
  Orchestrator.make_logo_transparent w logo fs !! p = fs !! p.
Proof.
  intros H1 H2. unfold Orchestrator.make_logo_transparent.
  destruct (convert_installed w); [|done].
  destruct (fs !! logo) as [img|]; [|done].
  destruct (is_empty _); [done|].
  rewrite copy_if_present_other by done.
  destruct (convert_transparent _ _ _); by rewrite ?lookup_insert_ne.
Qed.

(** What a finished program leaves at a policy path. *)
Lemma main_policy_page e w fs p :
  how (main e w fs) = Finished ->
  p ∈ [privacy_path; terms_path; refund_path] ->
  exists html, (p, html) ∈ pages e /\ site (main e w fs) !! p = Some html.
Proof.
  unfold main. destruct (materialize _) as [msg|fs1]; [done|].
  destruct (patch_blog_template_palette _ _) as [fs3|] eqn:Hp; [|done].
  intros _ Hin. cbn [site].
  destruct (write_policy_pages_written e (substitute_html e fs1) p Hin)
    as (html & Hpage & Hl).
  exists html. split; [done|]. rewrite (patch_other _ _ _ _ Hp); [done|].
  revert Hin. rewrite !elem_of_cons.
  intros [-> | [-> | [-> | []%elem_of_nil]]]; discriminate.
Qed.

End PolicyFacts.

Section PolicyClaim.

Import InitBlog InitPy.

(** C9: for the domain [example.com] and the brand [Example Co], each of
    the three policy pages of a successful run holds the text
    [example.com] and a link to [mailto:info@example.com]. *)
Theorem policy_pages_example_com
    (w : world) (argv : list text) (a : args) (fs : files) :
  read_args argv = Some a ->
  DOMAIN a = T "example.com" ->
  BRAND a = T "Example Co" ->
  Orchestrator.status (Orchestrator.init_blog w argv fs) = Orchestrator.Exit0 ->
  forall p, p ∈ [privacy_path; terms_path; refund_path] ->
    exists html,
      Orchestrator.final (Orchestrator.init_blog w argv fs) !! p = Some html
      /\ occurs (T "example.com") html = true
      /\ occurs (Q "href=`mailto:info@example.com`") html = true.
Proof.
  intros Hargs Hd Hb. unfold Orchestrator.init_blog. rewrite Hargs.
  destruct (Bootstrap.main _ _ _) as [fs1| |]; cbn [Orchestrator.status]; try done.
  destruct (how (main (export a) w fs1)) eqn:Hhow;
    cbn [Orchestrator.status Orchestrator.final]; try done.
  intros _ p Hp.
  destruct (main_policy_page _ _ _ _ Hhow Hp) as (html & Hpage & Hl).
  destruct (pages_hold_domain _ _ _ Hpage) as [Hdom Hlink].
  exists html. split; [|split].
  - rewrite make_logo_transparent_other; [done| |].
    + destruct (logo_path_export a) as [rest ->]. revert Hp.
      rewrite !elem_of_cons. intros [-> | [-> | [-> | []%elem_of_nil]]]; discriminate.
    + revert Hp. rewrite !elem_of_cons.
      intros [-> | [-> | [-> | []%elem_of_nil]]]; discriminate.
  - change (INIT_DOMAIN (export a)) with (DOMAIN a) in Hdom. by rewrite Hd in Hdom.
  - change (INIT_DOMAIN (export a)) with (DOMAIN a) in Hlink. by rewrite Hd in Hlink.
Qed.

(** C9, witness: the sample run on the template site. *)
Lemma policy_pages_example_com_sample :
  exists html,
    Orchestrator.final
      (Orchestrator.init_blog Samples.offline Samples.example_argv Samples.template_site)
      !! privacy_path = Some html
    /\ occurs (T "example.com") html = true
    /\ occurs (Q "href=`mailto:info@example.com`") html = true.
Proof.
  refine (policy_pages_example_com Samples.offline Samples.example_argv
            Samples.example_args Samples.template_site _ _ _ _ privacy_path _).
  - reflexivity.
  - reflexivity.
  - reflexivity.
  - vm_compute. reflexivity.
  - apply list_elem_of_here.
Defined.

End PolicyClaim.

(* ===================================================================== *)
(** * No placeholder is left behind *)
(* ===================================================================== *)

Section PlaceholderFacts.

Import InitBlog InitPy Claims.

Implicit Types k v s t cur : text.
Implicit Types e : env.

Lemma replace_all_keeps_free (kvs : list (text * text)) k s :
  (forall k' v', (k', v') ∈ kvs -> k' <> [] /\ inert k v' = true) ->
  occurs k s = false -> occurs k (replace_all kvs s) = false.
Proof.
  unfold replace_all. revert s.
  induction kvs as [|[k0 v0] kvs IH]; intros s Hin Hs; [done|].
  cbn [fold_left fst snd]. apply IH.
  - intros k' v' H. apply Hin. by right.
  - destruct (Hin k0 v0) as [Hk0 Hv0]; [left|]. by apply str_replace_free.
Qed.

(** After the loop over a dictionary whose values are inert for all its
    keys, no key occurs any more. *)
Lemma replace_all_removes (kvs : list (text * text)) s :
  (forall k v k' v', (k, v) ∈ kvs -> (k', v') ∈ kvs -> inert k v' = true) ->
  forall k v, (k, v) ∈ kvs -> occurs k (replace_all kvs s) = false.
Proof.
  revert s. induction kvs as [|[k0 v0] kvs IH]; intros s Hin k v Hk.
  - by apply elem_of_nil in Hk.
  - assert (Hne : forall k' v', (k', v') ∈ (k0, v0) :: kvs -> k' <> []).
    { intros k' v' H'. apply (inert_nonempty k' v0). eapply Hin; [done | left]. }
    apply elem_of_cons in Hk as [[= -> ->] | Hk].
    + change (replace_all ((k0, v0) :: kvs) s)
        with (replace_all kvs (str_replace k0 v0 s)).
      apply replace_all_keeps_free.
      * intros k' v' H'. split; [eapply Hne; by right|].
        eapply Hin; [left | by right].
      * apply replace_removes. eapply Hin; left.
    + change (replace_all ((k0, v0) :: kvs) s)
        with (replace_all kvs (str_replace k0 v0 s)).
      eapply IH; [|done]. intros k1 v1 k2 v2 H1 H2.
      eapply Hin; by right.
Qed.

Lemma placeholder_free_spec s :
  placeholder_free s = true <-> forall k, k ∈ placeholders -> occurs k s = false.
Proof.
  unfold placeholder_free. rewrite forallb_forall. split.
  - intros H k Hk. apply negb_true_iff, H. by apply list_elem_of_In.
  - intros H k Hk. apply negb_true_iff, H. by apply list_elem_of_In.
Qed.

Lemma inert_values_spec e :
  inert_values e = true ->
  forall k v, k ∈ placeholders -> v ∈ map snd (repl e) -> inert k v = true.
Proof.
  unfold inert_values, inert_value. rewrite forallb_forall.
  intros H k v Hk Hv. apply list_elem_of_In in Hv. specialize (H v Hv).
  rewrite forallb_forall in H. apply H. by apply list_elem_of_In.
Qed.

Lemma repl_keys e : map fst (repl e) = placeholders.
Proof. reflexivity. Qed.

(** The substitution pass leaves no placeholder when the values are
    inert. *)
Lemma substitute_free e s :
  inert_values e = true -> placeholder_free (substitute e s) = true.
Proof.
  intros Hv. pose proof (inert_values_spec e Hv) as Hi.
  apply placeholder_free_spec. intros k Hk. unfold substitute.
  assert (Hd : inert k (INIT_DOMAIN e) = true).
  { apply Hi; [done|]. cbn. right. left. }
  do 2 (apply str_replace_free; [done | done |]).
  rewrite <- (repl_keys e) in Hk. apply list_elem_of_fmap in Hk as ([k' v] & -> & Hk).
  apply (replace_all_removes (repl e) s) with (v := v); [|done].
  intros k1 v1 k2 v2 H1 H2. apply Hi.
  - rewrite <- (repl_keys e). apply list_elem_of_fmap. by exists (k1, v1).
  - apply list_elem_of_fmap. by exists (k2, v2).
Qed.

End PlaceholderFacts.

Section ChainFacts.

Import InitBlog InitPy Claims.

Implicit Types k v s t cur : text.
Implicit Types e : env.
Implicit Types ps : list part.

Lemma flatten_cons values p ps :
  flatten values (p :: ps) = part_text values p ++ flatten values ps.
Proof. destruct ps; [by rewrite app_nil_r | done]. Qed.

(** The check [quiet] is sound: a placeholder that is in no literal
    stretch is not in the text either, when the values are inert. *)
Lemma quiet_sound k values ps :
  Forall (fun v => inert k v = true) values ->
  forall cur, quiet k cur (length values) ps = true ->
    occurs k (cur ++ flatten values ps) = false.
Proof.
  intros Hv. induction ps as [|[t|i] ps IH]; intros cur H.
  - cbn in H. rewrite app_nil_r. by apply negb_true_iff.
  - rewrite flatten_cons, app_assoc. by apply IH.
  - rewrite flatten_cons. cbn [quiet] in H.
    apply andb_true_iff in H as [[Hi Hc]%andb_true_iff Hq].
    apply Nat.ltb_lt in Hi. cbn [part_text].
    rewrite occurs_around.
    + apply negb_true_iff in Hc. rewrite Hc. by apply (IH []).
    + rewrite Forall_forall in Hv. apply Hv, list_elem_of_In, nth_In. done.
Qed.

Lemma page_values_inert e k :
  inert_values e = true -> k ∈ placeholders ->
  Forall (fun v => inert k v = true) (page_values e).
Proof.
  intros Hv Hk. pose proof (inert_values_spec e Hv k) as Hi.
  unfold page_values. repeat constructor; apply Hi; try done; cbn;
    rewrite !elem_of_cons; auto 12.
Qed.

(** The three policy pages hold no placeholder when the values are
    inert. *)
Lemma pages_free e p html :
  inert_values e = true -> (p, html) ∈ pages e -> placeholder_free html = true.
Proof.
  intros Hv. unfold pages. rewrite !elem_of_cons.
  intros [[= -> ->] | [[= -> ->] | [[= -> ->] | []%elem_of_nil]]];
    apply placeholder_free_spec; intros k Hk;
    unfold page, base_css, privacy_body, terms_body, refund_body, mail_button,
      policy_logo;
    rewrite <- !app_assoc;
    (* read the page as a chain of literal pieces and values *)
    lazymatch goal with
    | |- occurs _ ?t = false =>
        let part_of x :=
          lazymatch x with
          | INIT_BRAND _ => constr:(Val 0)
          | INIT_DOMAIN _ => constr:(Val 1)
          | INIT_BG0 _ => constr:(Val 2)
          | INIT_BG1 _ => constr:(Val 3)
          | INIT_BG2 _ => constr:(Val 4)
          | INIT_ACCENT _ => constr:(Val 5)
          | INIT_ACCENT_HOVER _ => constr:(Val 6)
          | _ => constr:(Lit x)
          end in
        let rec chain_of t :=
          lazymatch t with
          | ?x ++ ?y =>
              let p := part_of x in let ps := chain_of y in constr:(p :: ps)
          | ?x => let p := part_of x in constr:([p])
          end in
        let ps := chain_of t in
        change t with ([] ++ flatten (page_values e) ps)
    end;
    (apply quiet_sound; [by apply page_values_inert|]);
    cbn [length page_values];
    revert Hk; unfold placeholders; rewrite !elem_of_cons; intros Hk;
    repeat (destruct Hk as [-> | Hk]; [vm_compute; reflexivity|]);
    by apply elem_of_nil in Hk.
Qed.

End ChainFacts.

Section PatchFacts.

Import InitBlog InitPy Claims.

Implicit Types k v s t out : text.
Implicit Types e : env.

Lemma inert_value_spec v :
  inert_value v = true <-> forall k, k ∈ placeholders -> inert k v = true.
Proof.
  unfold inert_value. rewrite forallb_forall. split.
  - intros H k Hk. apply H. by apply list_elem_of_In.
  - intros H k Hk. apply H. by apply list_elem_of_In.
Qed.

Lemma scan_placeholder_free (m : matcher) s :
  (forall t out n, m t = Some (out, n) -> inert_value out = true) ->
  placeholder_free s = true -> placeholder_free (scan m 0 s) = true.
Proof.
  intros Hm Hs. apply placeholder_free_spec. intros k Hk.
  apply scan_free; [|by apply placeholder_free_spec].
  intros t out n H. by apply (proj1 (inert_value_spec out) (Hm _ _ _ H)).
Qed.

Lemma re_sub_free (p : piece) out s :
  inert_value out = true ->
  placeholder_free s = true -> placeholder_free (re_sub p out s) = true.
Proof.
  intros Ho. apply scan_placeholder_free. unfold pattern. intros t o n.
  destruct (p t); [|done]. by intros [= <- _].
Qed.

Lemma str_replace_placeholder_free old new s :
  old <> [] -> inert_value new = true ->
  placeholder_free s = true -> placeholder_free (str_replace old new s) = true.
Proof.
  intros Hold Hn Hs. apply placeholder_free_spec. intros k Hk.
  apply str_replace_free; [done| |by apply placeholder_free_spec].
  by apply inert_value_spec.
Qed.

Lemma occurs_chars out k (c : ascii) : occurs out k = true -> c ∈ out -> c ∈ k.
Proof.
  intros (a & b & ->)%occurs_spec Hc. rewrite !elem_of_app. auto.
Qed.

(** A text with a lower-case letter and no underscore is inert for every
    placeholder. *)
Lemma lower_case_inert out (c : ascii) :
  c ∈ out -> is_lower c = true -> mem "_" out = false -> inert_value out = true.
Proof.
  intros Hc Hl Hu. apply inert_value_spec. intros k Hk.
  assert (Hk' : hd_error k = Some "_"%char /\ last k = Some "_"%char
                /\ forallb (fun d => negb (is_lower d)) k = true).
  { revert Hk. unfold placeholders. rewrite !elem_of_cons.
    intros Hk. repeat (destruct Hk as [-> | Hk]; [by vm_compute|]).
    by apply elem_of_nil in Hk. }
  destruct Hk' as (Hh & Hla & Hlow). unfold inert. rewrite Hh, Hla, Hu.
  destruct out as [|c0 out']; [by apply elem_of_nil in Hc|]. cbn [negb andb].
  apply negb_true_iff, not_true_iff_false. intros Ho.
  pose proof (occurs_chars _ _ _ Ho Hc) as Hin.
  rewrite forallb_forall in Hlow. apply list_elem_of_In in Hin.
  specialize (Hlow _ Hin). by rewrite Hl in Hlow.
Qed.

Lemma run_of_all (p : ascii -> bool) s : forallb p (run_of p s) = true.
Proof.
  induction s as [|c s IH]; [done|]. cbn [run_of].
  destruct (p c) eqn:E; [|done]. cbn. by rewrite E, IH.
Qed.

Lemma alpha_no_underscore alpha :
  forallb is_alpha_char alpha = true -> mem "_" alpha = false.
Proof.
  induction alpha as [|c alpha IH]; [done|]. intros H.
  cbn [forallb] in H. apply andb_true_iff in H as [Hc H].
  unfold mem. cbn [existsb]. fold (mem "_" alpha).
  rewrite (IH H), orb_false_r.
  destruct (Ascii.eqb_spec "_"%char c) as [<-|]; [by vm_compute in Hc | done].
Qed.

Lemma mem_app (c : ascii) x y : mem c (x ++ y) = mem c x || mem c y.
Proof. unfold mem. apply existsb_app. Qed.

(** What the palette patch writes for a legacy [rgba(...)] colour. *)
Lemma rgba_legacy_out r g b head t out n :
  rgba_legacy r g b head t = Some (out, n) ->
  exists alpha, out = head ++ alpha ++ T ")"
                /\ forallb is_alpha_char alpha = true.
Proof.
  unfold rgba_legacy. destruct (rgba_head r g b t) as [s1|]; [|done].
  destruct (run_of is_alpha_char s1) as [|c alpha] eqn:E; [done|].
  destruct ((spaces >> lit ")") _); [|done]. intros [= <- _].
  exists (c :: alpha). split; [done|]. rewrite <- E. apply run_of_all.
Qed.

Lemma rgba_legacy_free r g b head s :
  starts_with (T "rgba(") head = true -> mem "_" head = false ->
  placeholder_free s = true ->
  placeholder_free (scan (rgba_legacy r g b head) 0 s) = true.
Proof.
  intros Hh Hu. apply scan_placeholder_free. intros t out n H.
  apply rgba_legacy_out in H as (alpha & -> & Ha).
  apply starts_with_spec in Hh as [rest ->].
  apply (lower_case_inert _ "r"%char); [by left | done |].
  rewrite !mem_app in *. rewrite Hu, (alpha_no_underscore _ Ha). done.
Qed.

Lemma patch_text_export a rgb s :
  patch_text (export a) rgb s
  = patch_text (palette_env (palette_for (TOPIC a))) rgb s.
Proof. reflexivity. Qed.

Lemma hex_to_rgb_export a :
  hex_to_rgb (INIT_ACCENT (export a))
  = hex_to_rgb (ACCENT (palette_for (TOPIC a))).
Proof. reflexivity. Qed.

(** The palette patch brings no placeholder into the post template. *)
Lemma patch_text_free a rgb s :
  hex_to_rgb (INIT_ACCENT (export a)) = Some rgb ->
  placeholder_free s = true ->
  placeholder_free (patch_text (export a) rgb s) = true.
Proof.
  rewrite hex_to_rgb_export, patch_text_export. unfold palette_for.
  destruct (is_wine_topic (TOPIC a)); intros Hrgb Hs;
    vm_compute in Hrgb; injection Hrgb as <-;
    unfold patch_text;
    cbn [fold_left combine legacy_hex replace_legacy_hex fst snd palette_env
           wine_palette default_palette INIT_BG0 INIT_BG1 INIT_BG2 INIT_ACCENT
           INIT_ACCENT_HOVER INIT_RAD1 INIT_RAD2 BG0 BG1 BG2 ACCENT ACCENT_HOVER
           RAD1 RAD2];
    repeat first
      [ apply str_replace_placeholder_free; [by vm_compute | by vm_compute |]
      | apply re_sub_free; [by vm_compute |]
      | apply rgba_legacy_free; [by vm_compute | by vm_compute |] ];
    exact Hs.
Qed.

End PatchFacts.

Section PlaceholderClaim.

Import InitBlog InitPy Claims.

Implicit Types fs : files.
Implicit Types w : world.
Implicit Types a : args.

Lemma is_html_path_of (l : text) : is_html (path_of l) = ends_with (T ".html") l.
Proof.
  unfold is_html, has_suffix, path_of.
  by rewrite list_ascii_of_string_of_list_ascii.
Qed.

(** None of the image files is an HTML file. *)
Lemma assets_not_html a p :
  p ∈ asset_paths (export a) -> is_html p = false.
Proof.
  unfold asset_paths. rewrite !elem_of_cons.
  intros [-> | [-> | [-> | [-> | []%elem_of_nil]]]]; try done.
  - unfold logo_path. cbn [INIT_LOGO_FILE export]. rewrite is_html_path_of.
    unfold logo_file_name, ends_with. by rewrite !rev_app_distr.
  - unfold hero_path. cbn [INIT_HERO_FILE export]. rewrite is_html_path_of.
    unfold hero_file_name, ends_with. by rewrite !rev_app_distr.
Qed.

Lemma substitute_html_lookup e fs p :
  substitute_html e fs !! p
  = (fun s => if is_html p then rewritten e s else s) <$> fs !! p.
Proof.
  unfold substitute_html, rewritten. rewrite map_lookup_imap.
  by destruct (fs !! p).
Qed.

Lemma read_text_placeholder_free s :
  placeholder_free s = true -> placeholder_free (read_text s) = true.
Proof.
  intros H. unfold read_text. apply scan_placeholder_free; [|done].
  intros t out n ->%line_end_out. reflexivity.
Qed.

(** Every HTML file a finished program leaves is a policy page, or went
    through the substitution pass, and then through the palette patch if
    it is the post template. *)
Lemma main_html_shape a w fs p s :
  how (main (export a) w fs) = Finished ->
  is_html p = true ->
  site (main (export a) w fs) !! p = Some s ->
  (exists q, (q, s) ∈ pages (export a))
  \/ (exists s0, s = substitute (export a) s0)
  \/ (exists s0 rgb, hex_to_rgb (INIT_ACCENT (export a)) = Some rgb
                     /\ s = patch_text (export a) rgb
                              (read_text (substitute (export a) s0))).
Proof.
  unfold main. destruct (materialize _) as [msg|fs1]; [done|].
  destruct (patch_blog_template_palette _ _) as [fs3|] eqn:Hp; [|done].
  intros _ Hhtml. cbn [site]. intros Hs.
  set (e := export a) in *.
  set (fs2 := write_policy_pages e (substitute_html e fs1)) in *.
  assert (H2 : forall q s2, is_html q = true -> fs2 !! q = Some s2 ->
            (q, s2) ∈ pages e \/ (exists s0, s2 = substitute e s0)).
  { intros q s2 Hq. unfold fs2. rewrite write_policy_pages_lookup.
    unfold pages. repeat case_decide.
    - intros [= <-]. subst q. left. rewrite !elem_of_cons. auto.
    - intros [= <-]. subst q. left. rewrite !elem_of_cons. auto.
    - intros [= <-]. subst q. left. rewrite !elem_of_cons. auto.
    - rewrite substitute_html_lookup, Hq. destruct (fs1 !! q) as [s0|]; [|done].
      intros [= <-]. right. unfold rewritten. eauto. }
  unfold patch_blog_template_palette in Hp.
  destruct (fs2 !! template_path) as [st|] eqn:Ht.
  - destruct (hex_to_rgb (INIT_ACCENT e)) as [rgb|] eqn:Hrgb; [|done].
    injection Hp as <-. destruct (decide (p = template_path)) as [->|Hne].
    + rewrite lookup_insert_eq in Hs. injection Hs as <-.
      destruct (H2 template_path st eq_refl Ht) as [Hq | [s0 ->]].
      * exfalso. revert Hq. unfold pages. rewrite !elem_of_cons.
        intros [[= ? ?] | [[= ? ?] | [[= ? ?] | []%elem_of_nil]]]; discriminate.
      * right. right. eauto.
    + rewrite lookup_insert_ne in Hs by done.
      destruct (H2 p s Hhtml Hs); eauto.
  - injection Hp as <-. destruct (H2 p s Hhtml Hs); eauto.
Qed.

(** The closing [convert] block touches no HTML file. *)
Lemma make_logo_transparent_html a w fs p :
  is_html p = true ->
  Orchestrator.make_logo_transparent w (logo_path (export a)) fs !! p = fs !! p.
Proof.
  intros Hp. apply make_logo_transparent_other; intros ->.
  - rewrite (assets_not_html a) in Hp; [done|]. unfold asset_paths. left.
  - done.
Qed.

(** C4 (as amended): after a successful run no HTML file of the site
    holds a placeholder, provided every replacement value is inert: not
    empty, without underscore, and not a part of a placeholder. *)
Theorem no_placeholder_left
    (w : world) (argv : list text) (a : args) (fs : files) :
  read_args argv = Some a ->
  inert_values (export a) = true ->
  Orchestrator.status (Orchestrator.init_blog w argv fs) = Orchestrator.Exit0 ->
  forall p s,
    is_html p = true ->
    Orchestrator.final (Orchestrator.init_blog w argv fs) !! p = Some s ->
    placeholder_free s = true.
Proof.
  intros Hargs Hv. unfold Orchestrator.init_blog. rewrite Hargs.
  destruct (Bootstrap.main _ _ _) as [fs1| |]; cbn [Orchestrator.status]; try done.
  destruct (how (main (export a) w fs1)) eqn:Hhow;
    cbn [Orchestrator.status Orchestrator.final]; try done.
  intros _ p s Hp. rewrite make_logo_transparent_html by done. intros Hs.
  destruct (main_html_shape _ _ _ _ _ Hhow Hp Hs)
    as [[q Hq] | [[s0 ->] | (s0 & rgb & Hrgb & ->)]].
  - by apply (pages_free (export a) q).
  - by apply substitute_free.
  - apply patch_text_free; [done|].
    by apply read_text_placeholder_free, substitute_free.
Qed.

(** C4, witness: the home page of the sample run. *)
Lemma no_placeholder_left_sample :
  placeholder_free
    (T "<title>Example Co</title><a href=mailto:info@example.com>example.com</a>")
  = true.
Proof.
  refine (no_placeholder_left Samples.offline Samples.example_argv
            Samples.example_args Samples.template_site _ _ _
            "index.html"%string _ _ _).
  - reflexivity.
  - vm_compute. reflexivity.
  - vm_compute. reflexivity.
  - reflexivity.
  - vm_compute. reflexivity.
Defined.

(** C4, counterexample: with the brand [__BRAND__] the run succeeds and
    the home page still holds the placeholder [__BRAND__]. *)
Lemma brand_placeholder_survives :
  let r := Orchestrator.init_blog Samples.offline Samples.token_brand_argv
             Samples.template_site in
  Orchestrator.status r = Orchestrator.Exit0
  /\ is_html "index.html" = true
  /\ exists s, Orchestrator.final r !! "index.html"%string = Some s
               /\ occurs (T "__BRAND__") s = true
               /\ placeholder_free s = false.
Proof.
  split; [by vm_compute|]. split; [by vm_compute|].
  eexists. split; [vm_compute; reflexivity|]. split; by vm_compute.
Qed.

End PlaceholderClaim.

(* ===================================================================== *)
(** * What a finished program leaves in the HTML files *)
(* ===================================================================== *)

Section MaterializeFacts.

Import InitBlog InitPy Claims.

Implicit Types fs : files.
Implicit Types w : world.
Implicit Types a : args.
Implicit Types e : env.

Lemma fold_write_blog_pages (rels : list string) fs (b : text) :
  fs !! blog_shell = Some b -> blog_shell ∉ rels ->
  forall p, fold_left write_blog_page rels fs !! p
            = if decide (p ∈ rels) then Some (read_text b) else fs !! p.
Proof.
  revert fs. induction rels as [|rel rels IH]; intros fs Hb Hn p.
  - cbn. case_decide as H; [by apply elem_of_nil in H | done].
  - apply not_elem_of_cons in Hn as [Hne Hn]. cbn [fold_left].
    unfold write_blog_page at 2. rewrite Hb.
    rewrite IH; [| by rewrite lookup_insert_ne | done].
    destruct (decide (p = rel)) as [->|Hp].
    + rewrite lookup_insert_eq.
      destruct (decide (rel ∈ rels)), (decide (rel ∈ rel :: rels)) as [|Hc];
        try done; exfalso; apply Hc; left.
    + rewrite lookup_insert_ne by done.
      destruct (decide (p ∈ rels)) as [Hi|Hi],
        (decide (p ∈ rel :: rels)) as [Hc|Hc]; try done.
      * exfalso. apply Hc. by right.
      * apply elem_of_cons in Hc as [?|?]; done.
Qed.

Lemma materialize_lookup fs fs1 :
  materialize fs = inr fs1 ->
  exists home blog,
    fs !! home_shell = Some home /\ fs !! blog_shell = Some blog
    /\ forall p, fs1 !! p = materialized home blog (fs !! p) p.
Proof.
  unfold materialize.
  destruct (fs !! home_shell) as [home|] eqn:Hh; [|done].
  destruct (fs !! blog_shell) as [blog|] eqn:Hb; [|done].
  intros H.
  assert (E : fs1 = fold_left write_blog_page blog_pages
                      (<["index.html"%string := read_text home]> fs))
    by congruence.
  clear H. subst fs1. exists home, blog. repeat split. intros p.
  rewrite (fold_write_blog_pages _ _ blog).
  - unfold materialized. case_decide; [done|].
    rewrite lookup_insert. repeat case_decide; congruence.
  - by rewrite lookup_insert_ne.
  - unfold blog_pages. rewrite !not_elem_of_cons.
    repeat split; try discriminate. apply not_elem_of_nil.
Qed.

End MaterializeFacts.

Section HtmlLookup.

Import InitBlog InitPy Claims.

Implicit Types fs : files.
Implicit Types w : world.
Implicit Types a : args.
Implicit Types e : env.

Lemma policy_lookup e fs p :
  write_policy_pages e fs !! p
  = if decide (p ∈ policy_paths) then write_policy_pages e ∅ !! p else fs !! p.
Proof.
  rewrite !write_policy_pages_lookup. unfold policy_paths.
  destruct (decide (p = refund_path)) as [->|H1]; [done|].
  destruct (decide (p = terms_path)) as [->|H2]; [done|].
  destruct (decide (p = privacy_path)) as [->|H3]; [done|].
  case_decide as H; [|done].
  rewrite !elem_of_cons in H. destruct H as [?|[?|[?|[]%elem_of_nil]]]; done.
Qed.

Lemma html_not_asset a p : is_html p = true -> p ∉ asset_paths (export a).
Proof. intros Hp Hin. by rewrite (assets_not_html a p Hin) in Hp. Qed.

(** The HTML files of a finished program, file by file. *)
Lemma main_html_lookup a w fs :
  how (main (export a) w fs) = Finished ->
  exists home blog rgb,
    fs !! home_shell = Some home /\ fs !! blog_shell = Some blog
    /\ hex_to_rgb (INIT_ACCENT (export a)) = Some rgb
    /\ forall p, is_html p = true ->
         site (main (export a) w fs) !! p
         = html_after (export a) rgb home blog (fs !! p) p.
Proof.
  set (e := export a). unfold main.
  destruct (materialize _) as [msg|fs1] eqn:Hm; [done|].
  apply materialize_lookup in Hm as (home & blog & Hh & Hb & H1).
  destruct (provision_shells a w fs) as [Eh Eb]. fold e in Eh, Eb.
  rewrite Eh in Hh. rewrite Eb in Hb.
  destruct (accent_rgb a) as [rgb Hrgb]. fold e in Hrgb.
  destruct (patch_blog_template_palette _ _) as [fs3|] eqn:Hp; [|done].
  intros _. exists home, blog, rgb. repeat split; try done.
  cbn [site].
  set (fs2 := write_policy_pages e (substitute_html e fs1)) in *.
  assert (H2 : forall p, is_html p = true ->
            fs2 !! p = if decide (p ∈ policy_paths) then write_policy_pages e ∅ !! p
                       else option_map (rewritten e)
                              (materialized home blog (fs !! p) p)).
  { intros p Hhtml. unfold fs2. rewrite policy_lookup. case_decide; [done|].
    rewrite substitute_html_lookup, Hhtml, H1.
    rewrite (provision_other e w fs p) by (by apply html_not_asset).
    by destruct (materialized _ _ _ _). }
  intros p Hhtml. unfold html_after.
  unfold patch_blog_template_palette in Hp. rewrite Hrgb in Hp.
  pose proof (H2 template_path eq_refl) as Ht.
  destruct (decide (template_path ∈ policy_paths)) as [Hbad|_].
  { exfalso. revert Hbad. unfold policy_paths. rewrite !elem_of_cons.
    intros [?|[?|[?|[]%elem_of_nil]]]; discriminate. }
  destruct (decide (p = template_path)) as [->|Hne].
  - destruct (decide (template_path ∈ policy_paths)) as [Hbad|_].
    { exfalso. revert Hbad. unfold policy_paths. rewrite !elem_of_cons.
      intros [?|[?|[?|[]%elem_of_nil]]]; discriminate. }
    destruct (fs2 !! template_path) as [st|] eqn:Est.
    + injection Hp as <-. rewrite lookup_insert_eq.
      destruct (materialized _ _ _ _); [|done]. by injection Ht as ->.
    + injection Hp as <-. rewrite Est. by destruct (materialized _ _ _ _).
  - assert (E3 : fs3 !! p = fs2 !! p).
    { destruct (fs2 !! template_path); injection Hp as <-;
        by rewrite ?lookup_insert_ne. }
    rewrite E3. by apply H2.
Qed.

End HtmlLookup.

(* ===================================================================== *)
(** * Running the orchestrator twice *)
(* ===================================================================== *)

Section SecondRun.

Import InitBlog InitPy Claims.

Implicit Types fs : files.
Implicit Types w : world.
Implicit Types a : args.
Implicit Types e : env.
Implicit Types s k : text.

Lemma replace_all_id (kvs : list (text * text)) s :
  (forall k v, (k, v) ∈ kvs -> occurs k s = false) -> replace_all kvs s = s.
Proof.
  unfold replace_all. induction kvs as [|[k v] kvs IH]; intros H; [done|].
  cbn [fold_left fst snd]. rewrite str_replace_id by (eapply H; left).
  apply IH. intros k' v' Hin. eapply H. by right.
Qed.

Lemma legacy_free_spec s :
  legacy_free s = true ->
  occurs (T "myugc.studio") s = false /\ occurs (T "My UGC Studio") s = false
  /\ occurs (T "MYUGC Studio") s = false.
Proof.
  unfold legacy_free, Bootstrap.legacy_words. cbn [forallb].
  rewrite !andb_true_iff, !negb_true_iff. tauto.
Qed.

(** The substitution pass changes nothing in a text that holds neither a
    placeholder nor the legacy domain. *)
Lemma substitute_id e s :
  placeholder_free s = true -> legacy_free s = true -> substitute e s = s.
Proof.
  intros Hp (Hl & _)%legacy_free_spec. unfold substitute.
  rewrite replace_all_id.
  - rewrite (str_replace_id (T "web.myugc.studio")).
    + by apply str_replace_id.
    + apply not_true_iff_false. intros Hw.
      rewrite (occurs_trans (T "myugc.studio") (T "web.myugc.studio") s) in Hl; done.
  - intros k v Hin. apply (proj1 (placeholder_free_spec s) Hp).
    rewrite <- (repl_keys e). apply list_elem_of_fmap. by exists (k, v).
Qed.

Lemma legacy_words_inert :
  forallb (fun k => inert k [nl]) Bootstrap.legacy_words = true.
Proof. reflexivity. Qed.

Lemma listed_legacy_free w p s :
  (searched p = true -> legacy_free s = true) -> Bootstrap.listed w p s = false.
Proof.
  intros H. unfold Bootstrap.listed.
  destruct (search_visits w p); [|done]. cbn [andb]. fold (searched p).
  destruct (searched p); [|done]. cbn [andb].
  rewrite (grep_Eq_occurs _ _ legacy_words_inert).
  specialize (H eq_refl). unfold legacy_free in H.
  apply not_true_iff_false. intros (k & Hk & Ho)%existsb_exists.
  rewrite forallb_forall in H. specialize (H k Hk). by rewrite Ho in H.
Qed.

Lemma html_searched p : is_html p = true -> searched p = true.
Proof.
  intros H. unfold searched, Bootstrap.searched_suffixes. cbn [existsb].
  fold (is_html p). by rewrite H.
Qed.

Lemma reset_lastmod_other w fs p :
  p <> "sitemap.xml"%string -> Bootstrap.reset_lastmod w fs !! p = fs !! p.
Proof.
  intros H. unfold Bootstrap.reset_lastmod.
  destruct (fs !! "sitemap.xml"%string); by rewrite ?lookup_insert_ne.
Qed.

Lemma reset_lastmod_html w fs p :
  is_html p = true -> Bootstrap.reset_lastmod w fs !! p = fs !! p.
Proof. intros H. apply reset_lastmod_other. by intros ->. Qed.

(** A successful run, taken apart. *)
Lemma init_blog_Exit0 w argv a fs :
  read_args argv = Some a ->
  Orchestrator.status (Orchestrator.init_blog w argv fs) = Orchestrator.Exit0 <->
  exists fs0,
    Bootstrap.main w [T "--domain"; DOMAIN a; T "--brand"; BRAND a] fs
      = Bootstrap.Done fs0
    /\ how (main (export a) w fs0) = Finished.
Proof.
  intros Ha. unfold Orchestrator.init_blog. rewrite Ha.
  destruct (Bootstrap.main _ _ _) as [fs0| |]; cbn [Orchestrator.status].
  - destruct (how (main (export a) w fs0)) eqn:E; cbn [Orchestrator.status];
      split; try done; try (intros (? & [= <-] & ?); congruence).
    intros _. eauto.
  - split; [done | by intros (? & ? & ?)].
  - split; [done | by intros (? & ? & ?)].
Qed.

Lemma init_blog_final_html w argv a fs fs0 p :
  read_args argv = Some a ->
  Bootstrap.main w [T "--domain"; DOMAIN a; T "--brand"; BRAND a] fs
    = Bootstrap.Done fs0 ->
  how (main (export a) w fs0) = Finished ->
  is_html p = true ->
  Orchestrator.final (Orchestrator.init_blog w argv fs) !! p
  = site (main (export a) w fs0) !! p.
Proof.
  intros Ha Hb Hf Hp. unfold Orchestrator.init_blog. rewrite Ha, Hb, Hf.
  cbn [Orchestrator.final]. by apply make_logo_transparent_html.
Qed.

End SecondRun.

Section SpecialPaths.

Import InitBlog InitPy Claims.

Implicit Types fs : files.
Implicit Types w : world.
Implicit Types a : args.

Lemma special_paths_html :
  is_html home_shell = true /\ is_html blog_shell = true
  /\ is_html template_path = true /\ is_html "index.html" = true
  /\ Forall (fun p => is_html p = true) blog_pages
  /\ Forall (fun p => is_html p = true) policy_paths.
Proof. repeat split; repeat constructor. Qed.

(** A shell is neither a policy page, nor a generated page, nor the post
    template: it only goes through the substitution pass. *)
Lemma html_after_shell e rgb home blog old p :
  p = home_shell \/ p = blog_shell ->
  html_after e rgb home blog old p = option_map (rewritten e) old.
Proof. by intros [-> | ->]. Qed.

End SpecialPaths.

(* ===================================================================== *)
(** * Worked examples *)
(* ===================================================================== *)

Section Examples.

Import InitBlog InitPy.

Example slug_of_example_co : slug (T "Example Co") = T "example-co".
Proof. reflexivity. Qed.

Example slug_of_symbols : slug (T "***") = T "site".
Proof. reflexivity. Qed.

Example slug_of_echo_option : slug (T "-n") = T "site".
Proof. reflexivity. Qed.

Example palette_of_wine_bar : palette_for (T "Natural WINE bars") = wine_palette.
Proof. reflexivity. Qed.

Example palette_of_coffee : palette_for (T "Specialty coffee") = default_palette.
Proof. reflexivity. Qed.

Example replace_is_left_to_right :
  str_replace (T "aa") (T "b") (T "aaaaa") = T "bba".
Proof. reflexivity. Qed.

Example replace_can_rebuild_its_key :
  str_replace (T "__BRAND__") (T "BRAND") (T "____BRAND____") = T "__BRAND__".
Proof. reflexivity. Qed.

Example read_args_fills_the_address :
  read_args Samples.example_argv = Some Samples.example_args.
Proof. reflexivity. Qed.

Example read_args_needs_a_value :
  read_args (Samples.example_argv ++ [T "--speed"]) = None.
Proof. reflexivity. Qed.

Example read_args_keeps_the_address :
  option_map SUBSCRIBE_EMAIL (read_args Samples.hello_argv)
  = Some (T "hello@example.org").
Proof. reflexivity. Qed.

Example substitute_home_shell :
  substitute (export Samples.example_args)
    (T "<title>__BRAND__</title> __HERO_TITLE__ (web.myugc.studio)")
  = T "<title>Example Co</title> Example Co: practical insights about wine (example.com)".
Proof. vm_compute. reflexivity. Qed.

Example patch_wine_template :
  patch_text (export Samples.example_args) (182, 58, 90)%Z
    (T ":root{--bg-dark:#0a0514;--accent-green: #8B5CF6 ;} a{color:rgba( 139, 92 ,246, .5 )}")
  = T ":root{--bg-dark: #12070c;--accent-green: #b63a5a;} a{color:rgba(182, 58, 90, .5)}".
Proof. vm_compute. reflexivity. Qed.

Example accent_of_wine : hex_to_rgb (T "#b63a5a") = Some (182, 58, 90)%Z.
Proof. reflexivity. Qed.

(** With a credential and a failing image service both warnings are
    printed and the run still ends with exit status 0. *)
Example failing_service_warns :
  let r := Orchestrator.init_blog Samples.failing_service Samples.example_argv
             Samples.template_site in
  Orchestrator.status r = Orchestrator.Exit0
  /\ Orchestrator.log r
     = [logo_generation_failed; hero_generation_failed; placeholders_applied].
Proof. split; vm_compute; reflexivity. Qed.

(** The bootstrap script on a file that names the legacy brand; an
    ampersand in the new brand stands for the matched text, as in sed. *)
Example bootstrap_rewrites_legacy_words :
  Bootstrap.rewrite {| Bootstrap.DOMAIN := T "example.com"; Bootstrap.BRAND := T "B&W" |}
    (T "My UGC Studio at https://myugc.studio")
  = T "BMy UGC StudioW at https://example.com".
Proof. vm_compute. reflexivity. Qed.

End Examples.

(* ===================================================================== *)
(** * The slug of the brand *)
(* ===================================================================== *)

Section SlugFacts.

Import InitBlog Invariants.

Implicit Types s x l cur : text.
Implicit Types c : ascii.

Lemma drop_leading_dash_spec s :
  Bash.drop_leading_dash s
  = match s with
    | c :: s' => if Ascii.eqb c "-"%char then s' else s
    | [] => []
    end.
Proof.
  destruct s as [|c s']; [done|].
  by destruct c as [[|] [|] [|] [|] [|] [|] [|] [|]].
Qed.

Lemma drop_trailing_dash_snoc x c :
  Bash.drop_trailing_dash (x ++ [c])
  = if Ascii.eqb c "-"%char then x else x ++ [c].
Proof.
  unfold Bash.drop_trailing_dash. rewrite rev_app_distr. cbn [rev app].
  rewrite drop_leading_dash_spec. destruct (Ascii.eqb c "-"%char).
  - apply rev_involutive.
  - cbn [rev]. by rewrite rev_involutive.
Qed.

Lemma squeeze_dashes_cons (a b : ascii) (r : text) :
  Bash.squeeze_dashes (a :: b :: r)
  = if Ascii.eqb a "-"%char && Ascii.eqb b "-"%char
    then Bash.squeeze_dashes (b :: r)
    else a :: Bash.squeeze_dashes (b :: r).
Proof. reflexivity. Qed.

Lemma squeeze_dashes_head s :
  hd_error (Bash.squeeze_dashes s) = hd_error s.
Proof.
  induction s as [|a s IH]; [done|]. destruct s as [|b r]; [done|].
  rewrite squeeze_dashes_cons.
  destruct (Ascii.eqb_spec a "-"%char) as [->|]; [|done].
  destruct (Ascii.eqb_spec b "-"%char) as [->|]; [|done].
  cbn [andb]. by rewrite IH.
Qed.

Lemma squeeze_dashes_chars s c :
  c ∈ Bash.squeeze_dashes s -> c ∈ s.
Proof.
  induction s as [|a s IH]; [done|]. destruct s as [|b r]; [done|].
  rewrite squeeze_dashes_cons.
  destruct (Ascii.eqb a "-"%char && Ascii.eqb b "-"%char).
  - intros H. right. by apply IH.
  - intros [->|H]%elem_of_cons; [left|right; by apply IH].
Qed.

Lemma occurs_dashes_cons a s :
  occurs (T "--") (a :: s)
  = (Ascii.eqb a "-"%char
     && match s with b :: _ => Ascii.eqb b "-"%char | [] => false end)
    || occurs (T "--") s.
Proof.
  cbn [occurs T list_ascii_of_string starts_with].
  rewrite (Ascii.eqb_sym "-"%char a). f_equal. f_equal.
  destruct s as [|b r]; [done|].
  by rewrite (Ascii.eqb_sym "-"%char b), andb_true_r.
Qed.

Lemma squeeze_dashes_single s :
  occurs (T "--") (Bash.squeeze_dashes s) = false.
Proof.
  induction s as [|a s IH]; [done|]. destruct s as [|b r].
  - cbn [Bash.squeeze_dashes]. rewrite occurs_dashes_cons.
    by rewrite andb_false_r.
  - rewrite squeeze_dashes_cons.
    destruct (Ascii.eqb a "-"%char && Ascii.eqb b "-"%char) eqn:E; [done|].
    rewrite occurs_dashes_cons, IH, orb_false_r.
    pose proof (squeeze_dashes_head (b :: r)) as Hh.
    destruct (Bash.squeeze_dashes (b :: r)) as [|b' t]; [done|].
    cbn [hd_error] in Hh. by injection Hh as ->.
Qed.

Lemma slug_char_ok c : is_slug_char (Bash.slug_char c) = true.
Proof.
  unfold Bash.slug_char, is_slug_char.
  destruct (is_lower c || is_digit c) eqn:E; [by rewrite E|done].
Qed.

(** One line through the four substitutions: only letters, digits and
    single dashes, none at either end. *)
Lemma slug_line_clean l :
  let s := Bash.slug_line l in
  Forall (fun c => is_slug_char c = true) s
  /\ hd_error s <> Some "-"%char
  /\ last s <> Some "-"%char
  /\ occurs (T "--") s = false.
Proof.
  cbn zeta. unfold Bash.slug_line.
  set (q := Bash.squeeze_dashes (map Bash.slug_char l)).
  assert (Hq : Forall (fun c => is_slug_char c = true) q).
  { apply Forall_forall. intros c Hc%squeeze_dashes_chars.
    apply list_elem_of_fmap in Hc as (c0 & -> & _). apply slug_char_ok. }
  assert (Hqd : occurs (T "--") q = false) by apply squeeze_dashes_single.
  clearbody q.
  set (d := Bash.drop_leading_dash q).
  assert (Hd : Forall (fun c => is_slug_char c = true) d
               /\ occurs (T "--") d = false /\ hd_error d <> Some "-"%char).
  { subst d. rewrite drop_leading_dash_spec. destruct q as [|c q']; [done|].
    destruct (Ascii.eqb_spec c "-"%char) as [->|Hc].
    - split; [by inversion Hq|]. rewrite occurs_dashes_cons in Hqd.
      apply orb_false_iff in Hqd as [H1 H2]. split; [done|].
      destruct q' as [|b t]; [done|]. cbn [Ascii.eqb andb] in H1.
      cbn [hd_error]. intros [= ->]. done.
    - repeat split; [done..|]. cbn [hd_error]. by intros [= ->]. }
  clearbody d. clear q Hq Hqd. destruct Hd as (Hc & Hdd & Hh).
  destruct (rev d) as [|c r] eqn:Er.
  { apply (f_equal (@rev _)) in Er. rewrite rev_involutive in Er. by subst d. }
  apply (f_equal (@rev _)) in Er. rewrite rev_involutive in Er.
  cbn [rev] in Er. set (x := rev r) in *. clearbody x. subst d.
  rewrite drop_trailing_dash_snoc.
  destruct (Ascii.eqb_spec c "-"%char) as [->|Hne].
  - repeat split.
    + by apply Forall_app in Hc as [? _].
    + destruct x; [done|]. done.
    + destruct (rev x) as [|c' r'] eqn:Ex.
      { apply (f_equal (@rev _)) in Ex. rewrite rev_involutive in Ex. by subst x. }
      apply (f_equal (@rev _)) in Ex. rewrite rev_involutive in Ex.
      cbn [rev] in Ex. subst x. rewrite last_snoc. intros [= ->].
      rewrite <- app_assoc in Hdd. cbn [app] in Hdd.
      pose proof (occurs_here (T "--") (rev r') []) as Hx.
      change (T "--" ++ []) with ["-"%char; "-"%char] in Hx. congruence.
    + by apply (occurs_app_l _ _ [("-")%char]).
  - repeat split; [done..| |done]. rewrite last_snoc. by intros [= ->].
Qed.

Lemma sed_slug_chars input :
  Forall (fun c => is_slug_char c || Ascii.eqb c nl = true) (Bash.sed_slug input).
Proof.
  unfold Bash.sed_slug. induction (Bash.sed_lines input) as [|l ls IH]; [done|].
  cbn [flat_map]. rewrite <- app_assoc. apply Forall_app. split.
  - destruct (slug_line_clean l) as (H & _).
    eapply Forall_impl; [exact H|]. cbn beta. intros c ->. done.
  - by constructor.
Qed.

Lemma command_subst_chars s c : c ∈ Bash.command_subst s -> c ∈ s.
Proof.
  destruct (command_subst_spec s) as [j E]. intros H.
  rewrite E. apply elem_of_app. by left.
Qed.

(** Every character of a slug is a lower-case letter, a digit, a dash or
    a newline. *)
Lemma slug_chars brand :
  Forall (fun c => is_slug_char c || Ascii.eqb c nl = true) (slug brand).
Proof.
  unfold slug.
  destruct (is_empty _) eqn:E; [by repeat constructor|].
  apply Forall_forall. intros c Hc%command_subst_chars.
  revert c Hc. apply Forall_forall, sed_slug_chars.
Qed.

Lemma slug_no_underscore brand : mem "_"%char (slug brand) = false.
Proof.
  apply not_true_iff_false. intros H%mem_spec.
  pose proof (slug_chars brand) as Hc.
  rewrite Forall_forall in Hc. by specialize (Hc _ H).
Qed.

Lemma lines_from_plain cur s :
  mem nl s = false -> Bash.lines_from cur (s ++ [nl]) = [rev cur ++ s; []].
Proof.
  revert cur. induction s as [|c s IH]; intros cur H.
  - cbn. by rewrite app_nil_r.
  - cbn [mem existsb] in H. apply orb_false_iff in H as [H1 H2].
    cbn [app Bash.lines_from]. rewrite (Ascii.eqb_sym c nl), H1.
    rewrite IH by done. cbn [rev]. by rewrite <- app_assoc.
Qed.

Lemma sed_slug_plain s :
  mem nl s = false -> Bash.sed_slug (s ++ [nl]) = Bash.slug_line s ++ [nl].
Proof.
  intros H. unfold Bash.sed_slug, Bash.sed_lines, Bash.lines.
  rewrite lines_from_plain by done. cbn. by rewrite app_nil_r.
Qed.

Lemma command_subst_plain x :
  mem nl x = false -> Bash.command_subst (x ++ [nl]) = x.
Proof.
  intros H. unfold Bash.command_subst. rewrite rev_app_distr.
  cbn [rev app Bash.strip_newlines_front]. rewrite Ascii.eqb_refl.
  assert (Hr : mem nl (rev x) = false).
  { apply not_true_iff_false. intros Hm%mem_spec%list_elem_of_In.
    apply in_rev, list_elem_of_In, mem_spec in Hm. congruence. }
  destruct (rev x) as [|c r] eqn:Er.
  - apply (f_equal (@rev _)) in Er. by rewrite rev_involutive in Er.
  - cbn [mem existsb] in Hr. apply orb_false_iff in Hr as [H1 _].
    cbn [Bash.strip_newlines_front]. rewrite (Ascii.eqb_sym c nl), H1.
    rewrite <- Er. apply rev_involutive.
Qed.

Lemma to_lower_newline c : to_lower c = nl -> c = nl.
Proof.
  destruct c as [[|] [|] [|] [|] [|] [|] [|] [|]]; vm_compute; congruence.
Qed.

Lemma mem_to_lower_newline s : mem nl s = false -> mem nl (map to_lower s) = false.
Proof.
  intros H. apply not_true_iff_false. intros Hm%mem_spec.
  apply list_elem_of_fmap in Hm as (c & Hc & Hin).
  symmetry in Hc. apply to_lower_newline in Hc as ->.
  apply mem_spec in Hin. congruence.
Qed.

Lemma slug_chars_no_newline s :
  Forall (fun c => is_slug_char c = true) s -> mem nl s = false.
Proof.
  intros H. apply not_true_iff_false. intros Hm%mem_spec.
  rewrite Forall_forall in H. by specialize (H _ Hm).
Qed.

(** The slug of a brand of one line. *)
Lemma slug_plain brand :
  mem nl brand = false ->
  slug brand = T "site"
  \/ (slug brand = Bash.slug_line (map to_lower brand) /\ slug brand <> []).
Proof.
  intros Hnl. unfold slug, Bash.echo.
  destruct (Bash.echo_option brand) eqn:Eo.
  { left. by destruct (mem "n"%char brand). }
  unfold Bash.tr_upper_lower. rewrite map_app. cbn [map].
  change (to_lower nl) with nl.
  rewrite sed_slug_plain by by apply mem_to_lower_newline.
  rewrite command_subst_plain
    by (apply slug_chars_no_newline, slug_line_clean).
  destruct (Bash.slug_line (map to_lower brand)) as [|c r]; [by left|].
  right. by cbn.
Qed.

End SlugFacts.

Section SlugShape.

Import InitBlog Invariants.

(** X1: the slug is never empty and holds only lower-case letters,
    digits, dashes and newlines; for a brand of one line it holds no
    newline, no dash at either end and no two dashes in a row. *)
Theorem slug_is_clean (brand : text) :
  let s := slug brand in
  s <> []
  /\ forallb (fun c => is_slug_char c || Ascii.eqb c nl) s = true
  /\ (mem nl brand = false ->
      forallb is_slug_char s = true
      /\ hd_error s <> Some "-"%char
      /\ last s <> Some "-"%char
      /\ occurs (T "--") s = false).
Proof.
  cbn zeta. split; [|split].
  - unfold slug. destruct (Bash.command_subst _); done.
  - apply forallb_forall. intros c Hc%list_elem_of_In.
    pose proof (slug_chars brand) as H. rewrite Forall_forall in H. by apply H.
  - intros Hnl. destruct (slug_plain brand Hnl) as [->|[-> Hne]]; [done|].
    destruct (slug_line_clean (map to_lower brand)) as (Hc & Hh & Hl & Hd).
    repeat split; [|done..].
    apply forallb_forall. intros c Hin%list_elem_of_In.
    rewrite Forall_forall in Hc. by apply Hc.
Qed.

End SlugShape.

(* ===================================================================== *)
(** * Arguments, derived values and the palette *)
(* ===================================================================== *)

Section DerivedValues.

Import InitBlog InitPy Claims Invariants.

Implicit Types a : args.
Implicit Types v s : text.

Lemma inert_value_no_underscore v :
  inert_value v = true -> mem "_"%char v = false.
Proof.
  intros H. apply inert_value_spec with (k := T "__BRAND__") in H; [|by left].
  unfold inert in H. apply andb_true_iff in H as [H _].
  apply andb_true_iff in H as [H _]. apply andb_true_iff in H as [_ H].
  change (hd_error (T "__BRAND__")) with (Some "_"%char) in H.
  by apply negb_true_iff in H.
Qed.

Lemma file_name_inert (head : string) brand :
  mem "_"%char (T head) = false ->
  (exists c, c ∈ T head /\ is_lower c = true) ->
  inert_value (T head ++ slug brand ++ T ".png") = true.
Proof.
  intros Hu (c & Hc & Hl). apply (lower_case_inert _ c); [|done|].
  - apply elem_of_app. by left.
  - by rewrite !mem_app, Hu, slug_no_underscore.
Qed.

Lemma palette_values_inert topic :
  let p := palette_for topic in
  forallb inert_value
    [BG0 p; BG1 p; BG2 p; ACCENT p; ACCENT_HOVER p; RAD1 p; RAD2 p; RAD3 p] = true.
Proof. unfold palette_for. by destruct (is_wine_topic topic). Qed.

(** X2: when brand, domain, speed and subscribe address are inert and the
    topic holds no underscore, every value of the dictionary is inert
    (the file names, the palette and the two hero texts are so by
    themselves), and the substitution pass leaves no placeholder in any
    text. *)
Theorem plain_arguments_leave_no_placeholder (a : args) :
  inert_value (BRAND a) = true ->
  inert_value (DOMAIN a) = true ->
  inert_value (SPEED a) = true ->
  inert_value (SUBSCRIBE_EMAIL a) = true ->
  mem "_"%char (TOPIC a) = false ->
  inert_values (export a) = true
  /\ forall s, placeholder_free (substitute (export a) s) = true.
Proof.
  intros Hb Hd Hs He Ht.
  assert (Hi : inert_values (export a) = true).
  { pose proof (palette_values_inert (TOPIC a)) as Hp. cbn zeta in Hp.
    cbn [forallb] in Hp. rewrite !andb_true_iff in Hp.
    destruct Hp as (P0 & P1 & P2 & P3 & P4 & P5 & P6 & P7 & _).
    pose proof (inert_value_no_underscore _ Hb) as Hbu.
    unfold inert_values, repl, hero_title, hero_subtitle.
    cbn [map snd forallb export INIT_BRAND INIT_DOMAIN INIT_TOPIC INIT_SPEED
         INIT_SUBSCRIBE_EMAIL INIT_LOGO_FILE INIT_HERO_FILE INIT_BG0 INIT_BG1
         INIT_BG2 INIT_ACCENT INIT_ACCENT_HOVER INIT_RAD1 INIT_RAD2 INIT_RAD3].
    rewrite Hb, Hd, Hs, He, P0, P1, P2, P3, P4, P5, P6, P7.
    unfold logo_file_name, hero_file_name.
    rewrite (file_name_inert "logo-"), (file_name_inert "hero-");
      [|done|exists "h"%char; split; [by left|done]
       |done|exists "l"%char; split; [by left|done]].
    rewrite (lower_case_inert (BRAND a ++ _) "p"%char);
      [|apply elem_of_app; right; apply elem_of_app; left;
        apply mem_spec; reflexivity
       |done|by rewrite !mem_app, Hbu, Ht].
    rewrite (lower_case_inert (T "Actionable guides and frameworks for " ++ _)
               "c"%char);
      [done|apply elem_of_app; left; apply mem_spec; reflexivity
       |done|by rewrite !mem_app, Ht]. }
  split; [done|]. intros s. by apply substitute_free.
Qed.

(** X2, witness: the sample arguments and a heading with two placeholders. *)
Lemma plain_arguments_leave_no_placeholder_sample :
  placeholder_free
    (substitute (export Samples.example_args) (T "<h1>__BRAND__ | __HERO_TITLE__</h1>"))
  = true.
Proof.
  apply (plain_arguments_leave_no_placeholder Samples.example_args);
    vm_compute; reflexivity.
Defined.

End DerivedValues.

Section ArgumentShape.

Import InitBlog Invariants.

Implicit Types a : args.
Implicit Types argv : list text.

Lemma set_flag_known flag v a a' :
  set_flag flag v a = Some a' -> flag ∈ known_flags.
Proof.
  unfold set_flag, known_flags. intros H.
  repeat (case_decide; [subst flag; set_solver|]). done.
Qed.

Lemma parse_args_shape (n : nat) :
  forall argv a a', length argv <= n -> parse_args argv a = Some a' ->
    Nat.even (length argv) = true
    /\ Forall (fun f => f ∈ known_flags) (flag_words argv).
Proof.
  induction n as [|n IH]; intros argv a a' Hn H.
  - destruct argv; [by split; [|constructor]|cbn in Hn; lia].
  - destruct argv as [|flag [|v rest]].
    + by split; [|constructor].
    + cbn [parse_args] in H. by destruct (set_flag flag [] a).
    + cbn [parse_args] in H. destruct (set_flag flag v a) as [a1|] eqn:Ef; [|done].
      cbn [length] in Hn. destruct (IH rest a1 a') as [He Hf]; [lia|done|].
      split; [done|]. cbn [flag_words]. constructor; [|done].
      by eapply set_flag_known.
Qed.

(** The values the usage check lets through. *)
Lemma read_args_required argv a :
  read_args argv = Some a ->
  DOMAIN a <> [] /\ BRAND a <> [] /\ TOPIC a <> [] /\ SUBSCRIBE_EMAIL a <> [].
Proof.
  unfold read_args. destruct (parse_args argv initial_args) as [a0|]; [|done].
  unfold validate.
  destruct (DOMAIN a0) as [|d ds] eqn:Ed; [done|].
  destruct (BRAND a0) as [|b bs] eqn:Eb; [done|].
  destruct (TOPIC a0) as [|t ts] eqn:Et; [done|].
  cbn [is_empty orb].
  destruct (SUBSCRIBE_EMAIL a0) as [|m ms] eqn:Em; cbn [is_empty];
    intros [= <-]; cbn; rewrite ?Ed, ?Eb, ?Et, ?Em; done.
Qed.

(** X3: an argument list the script accepts has an even number of words,
    one of the five flags at every odd position, and gives a domain, a
    brand, a topic and a subscribe address that are not empty. *)
Theorem read_args_well_formed (argv : list text) (a : args) :
  read_args argv = Some a ->
  Nat.even (length argv) = true
  /\ Forall (fun f => f ∈ known_flags) (flag_words argv)
  /\ DOMAIN a <> [] /\ BRAND a <> [] /\ TOPIC a <> []
  /\ SUBSCRIBE_EMAIL a <> [].
Proof.
  intros H. pose proof (read_args_required _ _ H) as Hr.
  unfold read_args in H.
  destruct (parse_args argv initial_args) as [a0|] eqn:Ep; [|done].
  destruct (parse_args_shape (length argv) argv _ _ (le_n _) Ep) as [He Hf].
  tauto.
Qed.

(** X3, witness: the sample arguments with a subscribe address. *)
Lemma read_args_well_formed_sample :
  Nat.even (length Samples.hello_argv) = true
  /\ Forall (fun f => f ∈ known_flags) (flag_words Samples.hello_argv).
Proof.
  pose proof (read_args_well_formed Samples.hello_argv
    {| DOMAIN := T "example.com"; BRAND := T "Example Co"; TOPIC := T "wine";
       SPEED := T "26"; SUBSCRIBE_EMAIL := T "hello@example.org" |} eq_refl)
    as (H1 & H2 & _).
  by split.
Defined.

End ArgumentShape.

Section PaletteShape.

Import InitBlog.

Lemma to_lower_to_upper (c : ascii) : to_lower (to_upper c) = to_lower c.
Proof. by destruct c as [[|] [|] [|] [|] [|] [|] [|] [|]]. Qed.

Lemma to_lower_to_lower (c : ascii) : to_lower (to_lower c) = to_lower c.
Proof. by destruct c as [[|] [|] [|] [|] [|] [|] [|] [|]]. Qed.

(** X4: for topics of one line, the palette does not depend on the case
    of the letters of the topic, and text around a topic that gets the
    wine palette does not take it away. *)
Theorem palette_ignores_case_and_context (topic pre post : text) :
  one_line topic = true ->
  one_line (pre ++ topic ++ post) = true ->
  palette_for (map to_upper topic) = palette_for topic
  /\ palette_for (map to_lower topic) = palette_for topic
  /\ (palette_for topic = wine_palette ->
      palette_for (pre ++ topic ++ post) = wine_palette).
Proof.
  intros _ _.
  unfold palette_for. rewrite !is_wine_topic_spec, !map_map.
  rewrite (map_ext _ to_lower to_lower_to_upper).
  rewrite (map_ext _ to_lower to_lower_to_lower).
  split; [done|]. split; [done|].
  rewrite !map_app.
  destruct (existsb _ wine_words) eqn:E; [|done]. intros _.
  apply existsb_exists in E as (k & Hk & Ho).
  assert (E' : existsb
    (fun k => occurs k (map to_lower pre ++ map to_lower topic ++ map to_lower post))
    wine_words = true).
  { apply existsb_exists. exists k. split; [done|]. by apply occurs_inside. }
  by rewrite E'.
Qed.

(** X4, witness: a topic in capitals inside a longer one. *)
Lemma palette_ignores_case_and_context_sample :
  palette_for (T "All about WINE today") = wine_palette.
Proof.
  exact (proj2 (proj2 (palette_ignores_case_and_context (T "WINE") (T "All about ")
                         (T " today") eq_refl eq_refl)) eq_refl).
Defined.

End PaletteShape.

(* ===================================================================== *)
(** * What a run does to the files of the site *)
(* ===================================================================== *)

Section FileEffects.

Import InitBlog InitPy Claims Invariants.

Implicit Types fs : files.
Implicit Types w : world.
Implicit Types a : args.
Implicit Types e : env.
Implicit Types p : string.

Lemma fmap_id_option (x : option text) : (fun s => s) <$> x = x.
Proof. by destruct x. Qed.

Lemma blog_pages_html p : p ∈ blog_pages -> is_html p = true.
Proof.
  destruct special_paths_html as (_ & _ & _ & _ & H & _).
  rewrite Forall_forall in H. apply H.
Qed.

Lemma policy_paths_html p : p ∈ policy_paths -> is_html p = true.
Proof.
  destruct special_paths_html as (_ & _ & _ & _ & _ & H).
  rewrite Forall_forall in H. apply H.
Qed.

(** The program writes HTML files and the four images, nothing else. *)
Lemma main_keeps_non_html e w fs p :
  is_html p = false ->
  site (main e w fs) !! p = fst (provision e w fs) !! p.
Proof.
  intros Hp. unfold main.
  destruct (materialize _) as [msg|fs1] eqn:Hm; [done|].
  destruct (materialize_lookup _ _ Hm) as (home & blog & _ & _ & Hl).
  assert (H2 : write_policy_pages e (substitute_html e fs1) !! p
               = fst (provision e w fs) !! p).
  { rewrite policy_lookup. case_decide as Hin.
    { apply policy_paths_html in Hin. congruence. }
    rewrite substitute_html_lookup, Hp, fmap_id_option, Hl.
    unfold materialized. case_decide as Hb.
    { apply blog_pages_html in Hb. congruence. }
    case_decide as Hi; [|done]. subst p. done. }
  destruct (patch_blog_template_palette _ _) as [fs3|] eqn:Hpatch; cbn [site];
    [|done].
  rewrite (patch_other _ _ _ _ Hpatch); [done|]. by intros ->.
Qed.

Lemma unsearched_not_html p : searched p = false -> is_html p = false.
Proof.
  intros H. apply not_true_iff_false. intros Hh%html_searched. congruence.
Qed.

Lemma listed_searched w p s : Bootstrap.listed w p s = true -> searched p = true.
Proof.
  unfold Bootstrap.listed. fold (searched p).
  intros [[_ H]%andb_true_iff _]%andb_true_iff. done.
Qed.

Lemma rewritten_lookup w (a : Bootstrap.args) fs p :
  map_imap (fun p s => Some (if Bootstrap.listed w p s
                             then Bootstrap.rewrite a s else s)) fs !! p
  = (fun s => if Bootstrap.listed w p s then Bootstrap.rewrite a s else s)
      <$> fs !! p.
Proof. rewrite map_lookup_imap. by destruct (fs !! p). Qed.

Lemma reset_lastmod_is_Some w fs p :
  is_Some (Bootstrap.reset_lastmod w fs !! p) <-> is_Some (fs !! p).
Proof.
  unfold Bootstrap.reset_lastmod.
  destruct (fs !! "sitemap.xml"%string) as [s|] eqn:E; [|done].
  rewrite lookup_insert_is_Some.
  destruct (decide ("sitemap.xml"%string = p)) as [<-|]; [|tauto].
  rewrite E. split; eauto.
Qed.

(** What the bootstrap script does to a file. *)
Lemma bootstrap_lookup w argv fs fs' p :
  Bootstrap.main w argv fs = Bootstrap.Done fs' ->
  (is_Some (fs' !! p) <-> is_Some (fs !! p))
  /\ (searched p = false -> fs' !! p = fs !! p)
  /\ (p <> "sitemap.xml"%string ->
      forall s, fs !! p = Some s -> legacy_free s = true -> fs' !! p = Some s).
Proof.
  unfold Bootstrap.main. destruct (Bootstrap.read_args argv) as [b|]; [|done].
  assert (Hs : searched p = false -> p <> "sitemap.xml"%string).
  { by intros H ->. }
  destruct (Bootstrap.any_listed w fs).
  - destruct (_ && _); [|done]. intros [= <-]. repeat split.
    + rewrite reset_lastmod_is_Some, rewritten_lookup.
      by rewrite fmap_is_Some.
    + rewrite reset_lastmod_is_Some, rewritten_lookup.
      by rewrite fmap_is_Some.
    + intros H. rewrite reset_lastmod_other by auto. rewrite rewritten_lookup.
      destruct (fs !! p) as [s|]; [|done]. cbn.
      destruct (Bootstrap.listed w p s) eqn:El; [|done].
      apply listed_searched in El. congruence.
    + intros Hne s E Hl. rewrite reset_lastmod_other by done.
      rewrite rewritten_lookup, E. cbn.
      by rewrite (listed_legacy_free w p s (fun _ => Hl)).
  - intros [= <-]. repeat split.
    + by rewrite reset_lastmod_is_Some.
    + by rewrite reset_lastmod_is_Some.
    + intros H. by rewrite reset_lastmod_other by auto.
    + intros Hne s E _. by rewrite reset_lastmod_other.
Qed.

Lemma bootstrap_read_args (d b : text) :
  d <> [] -> b <> [] ->
  Bootstrap.read_args [T "--domain"; d; T "--brand"; b]
  = Some {| Bootstrap.DOMAIN := d; Bootstrap.BRAND := b |}.
Proof. intros Hd Hb. destruct d; [done|]. destruct b; [done|]. reflexivity. Qed.

(** The call of the bootstrap script made by [init-blog.sh] never ends in
    its usage message. *)
Lemma bootstrap_not_Failed w argv a fs :
  read_args argv = Some a ->
  Bootstrap.main w [T "--domain"; DOMAIN a; T "--brand"; BRAND a] fs
  <> Bootstrap.Failed.
Proof.
  intros (Hd & Hb & _)%read_args_required.
  unfold Bootstrap.main. rewrite bootstrap_read_args by done.
  by repeat destruct (_ : bool).
Qed.

Lemma try_generate_keeps answer target ok warn (st : files * list message) p :
  is_Some (fst st !! p) -> is_Some (fst (try_generate answer target ok warn st) !! p).
Proof.
  unfold try_generate. destruct answer; cbn [fst]; [|done].
  rewrite lookup_insert_is_Some. destruct (decide (target = p)); auto.
Qed.

Lemma copy_if_missing_keeps source target fs p :
  is_Some (fs !! p) -> is_Some (copy_if_missing source target fs !! p).
Proof.
  unfold copy_if_missing. destruct (fs !! target); [done|].
  destruct (fs !! source); [|done].
  rewrite lookup_insert_is_Some. destruct (decide (target = p)); auto.
Qed.

Lemma copy_if_present_keeps source target fs p :
  is_Some (fs !! p) -> is_Some (copy_if_present source target fs !! p).
Proof.
  unfold copy_if_present. destruct (fs !! source); [|done].
  rewrite lookup_insert_is_Some. destruct (decide (target = p)); auto.
Qed.

Lemma provision_keeps e w fs p :
  is_Some (fs !! p) -> is_Some (fst (provision e w fs) !! p).
Proof.
  intros H. unfold provision, canonicalize. cbn [fst].
  do 2 apply copy_if_present_keeps. do 2 apply copy_if_missing_keeps.
  unfold generate_assets. destruct (is_empty _); [done|].
  by do 2 apply try_generate_keeps.
Qed.

Lemma main_keeps e w fs p :
  is_Some (fs !! p) -> is_Some (site (main e w fs) !! p).
Proof.
  intros H%(provision_keeps e w). unfold main.
  destruct (materialize _) as [msg|fs1] eqn:Hm; [done|].
  destruct (materialize_lookup _ _ Hm) as (home & blog & _ & _ & Hl).
  assert (H2 : is_Some (write_policy_pages e (substitute_html e fs1) !! p)).
  { rewrite policy_lookup. case_decide as Hin.
    { destruct (write_policy_pages_written e ∅ p Hin) as (html & _ & ->). eauto. }
    rewrite substitute_html_lookup, fmap_is_Some, Hl. unfold materialized.
    repeat case_decide; eauto. }
  destruct (patch_blog_template_palette _ _) as [fs3|] eqn:Hpatch; cbn [site];
    [|done].
  unfold patch_blog_template_palette in Hpatch.
  destruct (_ !! template_path); [|by injection Hpatch as <-].
  destruct (hex_to_rgb _); [|done]. injection Hpatch as <-.
  rewrite lookup_insert_is_Some. destruct (decide (template_path = p)); auto.
Qed.

Lemma make_logo_transparent_keeps w logo fs p :
  is_Some (fs !! p) -> is_Some (Orchestrator.make_logo_transparent w logo fs !! p).
Proof.
  intros H. unfold Orchestrator.make_logo_transparent.
  destruct (convert_installed w); [|done].
  destruct (fs !! logo) as [img|]; [|done].
  destruct (is_empty _); [done|].
  apply copy_if_present_keeps.
  destruct (convert_transparent _ _ _); [|done].
  rewrite lookup_insert_is_Some. destruct (decide (logo = p)); auto.
Qed.

(** The closing [convert] block keeps the brand logo and [logo.png] equal. *)
Lemma make_logo_transparent_equal w logo fs :
  fs !! logo = fs !! "logo.png"%string ->
  Orchestrator.make_logo_transparent w logo fs !! logo
  = Orchestrator.make_logo_transparent w logo fs !! "logo.png"%string.
Proof.
  intros H. unfold Orchestrator.make_logo_transparent.
  destruct (convert_installed w); [|done].
  destruct (fs !! logo) as [img|] eqn:El; [|congruence].
  destruct (is_empty _); [congruence|].
  rewrite copy_if_present_target.
  destruct (decide (logo = "logo.png"%string)) as [->|Hne].
  { by rewrite copy_if_present_target. }
  rewrite copy_if_present_other by done.
  destruct (convert_transparent _ _ _).
  - by rewrite lookup_insert_eq.
  - by rewrite El.
Qed.

Lemma provision_equal a w fs :
  let fs' := fst (provision (export a) w fs) in
  fs' !! logo_path (export a) = fs' !! "logo.png"%string
  /\ fs' !! hero_path (export a) = fs' !! "hero_ai.jpg"%string.
Proof.
  cbn zeta. unfold provision. cbn [fst].
  destruct (export_paths_distinct a) as (H1 & H2 & H3 & H4 & H5).
  destruct (canonicalize_logo (export a) (fst (generate_assets (export a) w fs))
              H1 H3 H4 H5) as [-> ->].
  destruct (canonicalize_hero (export a) (fst (generate_assets (export a) w fs))
              H2 H3 H4 H5) as [-> ->].
  done.
Qed.

End FileEffects.

Section RunEffects.

Import InitBlog InitPy Claims Invariants.

(** X5: a run of [init-blog.sh] within the modelled fragment (no slash,
    backslash or newline in a value that sed is given to paste) leaves
    alone every file whose name has none of the suffixes the bootstrap
    script searches ([.html], [.xml], [.txt], [.js], [.json]) and is not
    one of the four image files, whether the exit status is 0 or 1. *)
Theorem unsearched_files_are_left_alone
    (w : world) (argv : list text) (a : args) (fs : files) (p : string) :
  read_args argv = Some a ->
  Orchestrator.status (Orchestrator.init_blog w argv fs) <> Orchestrator.BeyondModel ->
  searched p = false ->
  p ∉ asset_paths (export a) ->
  Orchestrator.final (Orchestrator.init_blog w argv fs) !! p = fs !! p.
Proof.
  intros Ha Hm Hs Hp. revert Hm. unfold Orchestrator.init_blog. rewrite Ha.
  destruct (Bootstrap.main _ _ _) as [fs1| |] eqn:Hb; [|done..]. intros _.
  destruct (bootstrap_lookup _ _ _ _ p Hb) as (_ & Hf & _).
  rewrite <- (Hf Hs). clear Hf.
  assert (Hm : site (main (export a) w fs1) !! p = fs1 !! p).
  { rewrite main_keeps_non_html by by apply unsearched_not_html.
    by apply provision_other. }
  destruct (how _); cbn [Orchestrator.final]; [|done..].
  rewrite make_logo_transparent_other; [done| |].
  - intros ->. apply Hp. by left.
  - intros ->. apply Hp. do 2 right. by left.
Qed.

(** X5, witness: a note beside the templates, with a legacy word and a placeholder in it. *)
Lemma unsearched_files_are_left_alone_sample :
  Orchestrator.final
    (Orchestrator.init_blog Scenarios.with_convert Samples.example_argv
       Scenarios.mixed_site) !! "notes.md"%string
  = Some (T "myugc.studio __BRAND__").
Proof.
  refine (unsearched_files_are_left_alone Scenarios.with_convert
            Samples.example_argv Samples.example_args Scenarios.mixed_site
            "notes.md" _ _ _ _).
  - reflexivity.
  - vm_compute. discriminate.
  - reflexivity.
  - unfold asset_paths. rewrite !elem_of_cons.
    intros [H|[H|[H|[H|H%elem_of_nil]]]]; try done; vm_compute in H; discriminate.
Defined.

(** X6: a run of [init-blog.sh] within the modelled fragment (no slash,
    backslash or newline in a value that sed is given to paste) deletes
    no file: whatever the site held before is still a file afterwards. *)
Theorem no_file_is_deleted (w : world) (argv : list text) (fs : files) :
  Orchestrator.status (Orchestrator.init_blog w argv fs) <> Orchestrator.BeyondModel ->
  dom fs ⊆ dom (Orchestrator.final (Orchestrator.init_blog w argv fs)).
Proof.
  intros Hm p. rewrite !elem_of_dom. intros H. revert Hm.
  unfold Orchestrator.init_blog.
  destruct (read_args argv) as [a|]; [|done].
  destruct (Bootstrap.main _ _ _) as [fs1| |] eqn:Hb; [|done..]. intros _.
  destruct (bootstrap_lookup _ _ _ _ p Hb) as (H1 & _). apply H1 in H.
  apply (main_keeps (export a) w) in H.
  destruct (how _); cbn [Orchestrator.final]; [|done..].
  by apply make_logo_transparent_keeps.
Qed.

(** X6, witness: the note of the same site is still there. *)
Lemma no_file_is_deleted_sample :
  "notes.md"%string
  ∈ dom (Orchestrator.final
           (Orchestrator.init_blog Scenarios.with_convert Samples.example_argv
              Scenarios.mixed_site)).
Proof.
  apply (no_file_is_deleted Scenarios.with_convert Samples.example_argv
           Scenarios.mixed_site).
  - vm_compute. discriminate.
  - apply elem_of_dom. by eexists.
Defined.

(** X7: whenever the Python program has run, the brand logo and
    [logo.png] end with the same content (or are both missing), and so
    do the brand hero image and [hero_ai.jpg]; the closing [convert]
    block keeps that. *)
Theorem brand_and_canonical_images_end_equal
    (w : world) (argv : list text) (a : args) (fs : files) :
  read_args argv = Some a ->
  Orchestrator.status (Orchestrator.init_blog w argv fs) <> Orchestrator.BeyondModel ->
  let f := Orchestrator.final (Orchestrator.init_blog w argv fs) in
  f !! logo_path (export a) = f !! "logo.png"%string
  /\ f !! hero_path (export a) = f !! "hero_ai.jpg"%string.
Proof.
  intros Ha. unfold Orchestrator.init_blog. rewrite Ha.
  destruct (Bootstrap.main _ _ _) as [fs1| |] eqn:Hb; [| |done].
  2:{ by apply (bootstrap_not_Failed w) with (fs := fs) in Ha. }
  intros _.
  destruct (provision_equal a w fs1) as [Hl Hh]. cbn zeta in Hl, Hh.
  destruct (export_paths_distinct a) as (H1 & H2 & H3 & H4 & H5).
  assert (Hn : forall p, p ∈ asset_paths (export a) ->
                 site (main (export a) w fs1) !! p
                 = fst (provision (export a) w fs1) !! p).
  { intros p Hp. apply main_keeps_non_html. by eapply assets_not_html. }
  assert (El : site (main (export a) w fs1) !! logo_path (export a)
               = site (main (export a) w fs1) !! "logo.png"%string).
  { rewrite !Hn; [done| |]; unfold asset_paths; set_solver. }
  assert (Eh : site (main (export a) w fs1) !! hero_path (export a)
               = site (main (export a) w fs1) !! "hero_ai.jpg"%string).
  { rewrite !Hn; [done| |]; unfold asset_paths; set_solver. }
  destruct (how _); cbn [Orchestrator.final]; [|done..].
  cbn zeta. split; [by apply make_logo_transparent_equal|].
  rewrite !make_logo_transparent_other; done.
Qed.

(** X7, witness: a run with a generated logo and ImageMagick at hand. *)
Lemma brand_and_canonical_images_end_equal_sample :
  let f := Orchestrator.final
             (Orchestrator.init_blog Scenarios.with_convert Samples.example_argv
                Scenarios.mixed_site) in
  f !! "logo-example-co.png"%string = f !! "logo.png"%string
  /\ f !! "hero-example-co.png"%string = f !! "hero_ai.jpg"%string.
Proof.
  refine (brand_and_canonical_images_end_equal Scenarios.with_convert
            Samples.example_argv Samples.example_args Scenarios.mixed_site _ _).
  - reflexivity.
  - vm_compute. discriminate.
Defined.

End RunEffects.

(* ===================================================================== *)
(** * How a run ends and what its pages hold *)
(* ===================================================================== *)

Section Endings.

Import InitBlog InitPy Claims Invariants.

Implicit Types fs : files.
Implicit Types w : world.
Implicit Types a : args.

(** X8: how the Python program ends when a shell is missing: the home
    shell is looked for first, then the blog shell, and the program stops
    with the message of the first one that is missing.  It finishes only
    with both shells in place, and [hex_to_rgb] raises no ValueError: the
    accent colour of either palette splits into three numbers. *)
Theorem program_endings (a : args) (w : world) (fs : files) :
  (fs !! home_shell = None ->
   how (main (export a) w fs)
   = SystemExit (T "Missing universal_blog_shell.html in project root"))
  /\ (is_Some (fs !! home_shell) -> fs !! blog_shell = None ->
      how (main (export a) w fs)
      = SystemExit (T "Missing universal_blog_index.html in project root"))
  /\ (how (main (export a) w fs) = Finished ->
      is_Some (fs !! home_shell) /\ is_Some (fs !! blog_shell))
  /\ (exists rgb, hex_to_rgb (INIT_ACCENT (export a)) = Some rgb)
  /\ how (main (export a) w fs) <> ValueError.
Proof.
  destruct (provision_shells a w fs) as [Hh Hb].
  split; [|split; [|split; [|split]]].
  - intros E. unfold main, materialize. by rewrite Hh, E.
  - intros [home E] E'. unfold main, materialize. by rewrite Hh, Hb, E, E'.
  - apply main_finished_shells.
  - apply accent_rgb.
  - unfold main. destruct (materialize _) as [msg|fs1]; [done|].
    unfold patch_blog_template_palette.
    destruct (accent_rgb a) as [rgb ->]. by destruct (_ !! template_path).
Qed.

(** X9: with a domain and a brand that sed pastes as they are, the run
    stays within the modelled fragment; its exit status is 1 when a shell
    is missing from the site, and it is 0 only when both shells are
    there. *)
Theorem exit_status_of_plain_arguments
    (w : world) (argv : list text) (a : args) (fs : files) :
  read_args argv = Some a ->
  Bash.sed_rhs_plain (DOMAIN a) = true ->
  Bash.sed_rhs_plain (BRAND a) = true ->
  (fs !! home_shell = None \/ fs !! blog_shell = None ->
   Orchestrator.status (Orchestrator.init_blog w argv fs) = Orchestrator.Exit1)
  /\ (Orchestrator.status (Orchestrator.init_blog w argv fs) = Orchestrator.Exit0 ->
      is_Some (fs !! home_shell) /\ is_Some (fs !! blog_shell))
  /\ Orchestrator.status (Orchestrator.init_blog w argv fs)
     <> Orchestrator.BeyondModel.
Proof.
  intros Ha Hd Hb.
  destruct (read_args_required _ _ Ha) as (Hdn & Hbn & _).
  unfold Orchestrator.init_blog. rewrite Ha.
  destruct (Bootstrap.main _ _ _) as [fs1| |] eqn:Hm.
  - destruct (bootstrap_lookup _ _ _ _ home_shell Hm) as (H1 & _).
    destruct (bootstrap_lookup _ _ _ _ blog_shell Hm) as (H2 & _).
    pose proof (main_finished_shells a w fs1) as Hf. rewrite H1, H2 in Hf.
    split; [|split].
    + intros Hmiss. destruct (how _); cbn [Orchestrator.status]; [|done..].
      exfalso. destruct (Hf eq_refl) as [[? Eh] [? Eb]].
      destruct Hmiss; congruence.
    + destruct (how _); cbn [Orchestrator.status]; [|done..]. intros _. by apply Hf.
    + by destruct (how _).
  - by apply (bootstrap_not_Failed w) with (fs := fs) in Ha.
  - unfold Bootstrap.main in Hm. rewrite bootstrap_read_args in Hm by done.
    cbn [Bootstrap.DOMAIN Bootstrap.BRAND] in Hm. rewrite Hd, Hb in Hm.
    by destruct (Bootstrap.any_listed w fs).
Qed.

(** X9, witness: a site without shells. *)
Lemma exit_status_of_plain_arguments_sample :
  Orchestrator.status
    (Orchestrator.init_blog Samples.failing_service Samples.example_argv
       Samples.logo_only_site)
  = Orchestrator.Exit1.
Proof.
  exact (proj1 (exit_status_of_plain_arguments Samples.failing_service
                  Samples.example_argv Samples.example_args Samples.logo_only_site
                  eq_refl eq_refl eq_refl) (or_introl eq_refl)).
Defined.

End Endings.

Section Pages.

Import InitBlog InitPy Claims Invariants.

Implicit Types fs : files.
Implicit Types w : world.
Implicit Types a : args.

Lemma html_after_home e rgb home blog old :
  html_after e rgb home blog old "index.html" = Some (rewritten e home).
Proof.
  unfold html_after, materialized.
  rewrite decide_False.
  2:{ unfold policy_paths. rewrite !elem_of_cons, elem_of_nil.
      intros [?|[?|[?|[]]]]; discriminate. }
  rewrite decide_False by done.
  rewrite decide_False.
  2:{ unfold blog_pages. rewrite !elem_of_cons, elem_of_nil.
      intros [?|[?|[?|[?|[?|[]]]]]]; discriminate. }
  rewrite decide_True by done. cbn [option_map]. unfold rewritten.
  by rewrite read_text_twice.
Qed.

Lemma html_after_listing e rgb home blog old p :
  p ∈ blog_pages ->
  html_after e rgb home blog old p = Some (rewritten e blog).
Proof.
  intros Hp. unfold html_after, materialized.
  rewrite decide_False.
  2:{ revert Hp. unfold blog_pages, policy_paths. rewrite !elem_of_cons.
      intros H H'. rewrite !elem_of_nil in H, H'.
      destruct H as [->|[->|[->|[->|[->|[]]]]]];
        destruct H' as [?|[?|[?|[]]]]; discriminate. }
  rewrite decide_False.
  2:{ intros ->. revert Hp. unfold blog_pages. rewrite !elem_of_cons.
      rewrite elem_of_nil. intros [?|[?|[?|[?|[?|[]]]]]]; discriminate. }
  rewrite decide_True by done. cbn [option_map]. unfold rewritten.
  by rewrite read_text_twice.
Qed.

(** X10: after a successful run the home page holds the same text as the
    home shell and each of the five listing pages the same text as the
    blog shell: the substitution pass rewrites the shells themselves,
    not only their copies. *)
Theorem pages_equal_rewritten_shells
    (w : world) (argv : list text) (a : args) (fs : files) :
  read_args argv = Some a ->
  Orchestrator.status (Orchestrator.init_blog w argv fs) = Orchestrator.Exit0 ->
  let f := Orchestrator.final (Orchestrator.init_blog w argv fs) in
  is_Some (f !! home_shell) /\ is_Some (f !! blog_shell)
  /\ f !! "index.html"%string = f !! home_shell
  /\ forall p, p ∈ blog_pages -> f !! p = f !! blog_shell.
Proof.
  intros Ha Hs. cbn zeta.
  apply (init_blog_Exit0 _ _ _ _ Ha) in Hs as (fs0 & Hb & Hf).
  destruct (main_html_lookup _ _ _ Hf) as (home & blog & rgb & Hh & Hbl & _ & Hl).
  destruct special_paths_html as (S1 & S2 & _ & S4 & _).
  assert (E : forall p, is_html p = true ->
            Orchestrator.final (Orchestrator.init_blog w argv fs) !! p
            = html_after (export a) rgb home blog (fs0 !! p) p).
  { intros p Hp. rewrite (init_blog_final_html _ _ _ _ _ _ Ha Hb Hf Hp).
    by apply Hl. }
  rewrite !E by done. rewrite !html_after_shell by auto.
  rewrite Hh, Hbl, html_after_home. cbn [option_map].
  repeat split; eauto.
  intros p Hp. rewrite E by by apply blog_pages_html.
  by rewrite html_after_listing.
Qed.

(** X10, witness: the sample run on the template site. *)
Lemma pages_equal_rewritten_shells_sample :
  let f := Orchestrator.final
             (Orchestrator.init_blog Samples.offline Samples.example_argv
                Samples.template_site) in
  f !! "index.html"%string = f !! home_shell.
Proof.
  exact (proj1 (proj2 (proj2
    (pages_equal_rewritten_shells Samples.offline Samples.example_argv
       Samples.example_args Samples.template_site eq_refl
       ltac:(vm_compute; reflexivity))))).
Defined.

(** X11: whatever the domain, each of the three policy pages of a
    successful run is the page [write_policy_pages] makes for it, whatever
    the site held there before, and holds the domain and a link to
    [mailto:info@] followed by the domain. *)
Theorem policy_pages_name_the_domain
    (w : world) (argv : list text) (a : args) (fs : files) (p : string) :
  read_args argv = Some a ->
  Orchestrator.status (Orchestrator.init_blog w argv fs) = Orchestrator.Exit0 ->
  p ∈ policy_paths ->
  exists title body,
    Orchestrator.final (Orchestrator.init_blog w argv fs) !! p
    = Some (page (export a) title body)
    /\ (p, page (export a) title body) ∈ pages (export a)
    /\ occurs (DOMAIN a) (page (export a) title body) = true
    /\ occurs (Q "href=`mailto:info@" ++ DOMAIN a ++ Q "`")
         (page (export a) title body) = true.
Proof.
  intros Ha Hs Hp.
  apply (init_blog_Exit0 _ _ _ _ Ha) in Hs as (fs0 & Hb & Hf).
  rewrite (init_blog_final_html _ _ _ _ _ _ Ha Hb Hf (policy_paths_html _ Hp)).
  destruct (main_policy_page _ _ _ _ Hf Hp) as (html & Hpage & Hl).
  destruct (pages_hold_domain _ _ _ Hpage) as [Hdom Hlink].
  assert (Ht : exists title body, html = page (export a) title body).
  { revert Hpage. unfold pages. rewrite !elem_of_cons, elem_of_nil.
    intros [[= _ ->]|[[= _ ->]|[[= _ ->]|[]]]]; eauto. }
  destruct Ht as (title & body & ->). exists title, body. by rewrite Hl.
Qed.

(** X11, witness: the terms page of a run with a subscribe address of another domain. *)
Lemma policy_pages_name_the_domain_sample :
  exists title body,
    Orchestrator.final
      (Orchestrator.init_blog Samples.offline Samples.hello_argv
         Samples.template_site) !! terms_path
    = Some (page (export Samples.example_args) title body).
Proof.
  destruct (policy_pages_name_the_domain Samples.offline Samples.hello_argv
              {| DOMAIN := T "example.com"; BRAND := T "Example Co";
                 TOPIC := T "wine"; SPEED := T "26";
                 SUBSCRIBE_EMAIL := T "hello@example.org" |}
              Samples.template_site terms_path eq_refl
              ltac:(vm_compute; reflexivity)
              ltac:(right; left))
    as (title & body & H & _).
  exists title, body. exact H.
Defined.

End Pages.

(* ===================================================================== *)
(** * The accent colour and the bootstrap script *)
(* ===================================================================== *)

Section HexFacts.

Import InitBlog InitPy Invariants.

Implicit Types c : ascii.
Implicit Types x d h : text.

Lemma is_hex_facts c :
  is_hex c = true ->
  is_int_space c = false /\ c <> "-"%char /\ c <> "+"%char /\ c <> "#"%char
  /\ (0 <= hex_value c <= 15)%Z.
Proof.
  destruct c as [[|] [|] [|] [|] [|] [|] [|] [|]]; intros H; try discriminate H;
    (split; [reflexivity|]); (split; [discriminate|]); (split; [discriminate|]);
    (split; [discriminate|]); vm_compute; split; discriminate.
Qed.

Lemma skip_spaces_hex x : forallb is_hex x = true -> skip_while is_int_space x = x.
Proof.
  destruct x as [|c r]; [done|]. cbn [forallb skip_while].
  intros [Hc _]%andb_true_iff. by destruct (is_hex_facts c Hc) as (-> & _).
Qed.

Lemma forallb_rev (f : ascii -> bool) x : forallb f (rev x) = forallb f x.
Proof.
  induction x as [|c r IH]; [done|]. cbn [rev forallb].
  rewrite forallb_app, IH. cbn [forallb]. by rewrite andb_true_r, andb_comm.
Qed.

(** [int(x, 16)] on hexadecimal digits. *)
Lemma int16_hex x :
  x <> [] -> forallb is_hex x = true -> int16 x = Some (hex_number x).
Proof.
  intros Hne Hx. unfold int16. rewrite (skip_spaces_hex x Hx).
  rewrite skip_spaces_hex by by rewrite forallb_rev.
  rewrite rev_involutive. destruct x as [|c r]; [done|].
  assert (Hd : hex_digits (c :: r) = Some (hex_number (c :: r))).
  { unfold hex_digits. by rewrite Hx. }
  cbn [forallb] in Hx. apply andb_true_iff in Hx as [Hc _].
  destruct (is_hex_facts c Hc) as (_ & H1 & H2 & _).
  destruct c as [[|] [|] [|] [|] [|] [|] [|] [|]]; done.
Qed.

Lemma hex_number_pair (c1 c2 : ascii) :
  is_hex c1 = true -> is_hex c2 = true ->
  hex_number [c1; c2] = (16 * hex_value c1 + hex_value c2)%Z
  /\ (0 <= hex_number [c1; c2] <= 255)%Z.
Proof.
  intros (_ & _ & _ & _ & H1)%is_hex_facts (_ & _ & _ & _ & H2)%is_hex_facts.
  unfold hex_number. cbn [fold_left]. lia.
Qed.

Lemma skip_hashes_short h :
  length (skip_while (Ascii.eqb "#"%char) h) < 5 ->
  take 2 (drop 4 (skip_while (Ascii.eqb "#"%char) h)) = [].
Proof.
  intros H. rewrite drop_ge by lia. done.
Qed.

End HexFacts.

Section AccentColour.

Import InitBlog InitPy Invariants.

(** X12: [hex_to_rgb] drops the leading [#] signs and reads three pairs
    of digits.  With fewer than five characters left the third pair is
    empty and [int] raises ValueError; with six hexadecimal digits in
    front the three components are between 0 and 255 and make up the
    number the six digits spell. *)
Theorem hex_to_rgb_reads_three_pairs (h : text) :
  let d := skip_while (Ascii.eqb "#"%char) h in
  (length d < 5 -> hex_to_rgb h = None)
  /\ (6 <= length d -> forallb is_hex (take 6 d) = true ->
      exists r g b,
        hex_to_rgb h = Some (r, g, b)
        /\ (0 <= r <= 255)%Z /\ (0 <= g <= 255)%Z /\ (0 <= b <= 255)%Z
        /\ (65536 * r + 256 * g + b)%Z = hex_number (take 6 d)).
Proof.
  cbn zeta. unfold hex_to_rgb. split.
  - intros H. rewrite (skip_hashes_short h H).
    change (int16 []) with (@None Z). by repeat destruct (int16 _).
  - set (d := skip_while _ h). clearbody d. intros Hl Hx.
    destruct d as [|c1 [|c2 [|c3 [|c4 [|c5 [|c6 rest]]]]]]; cbn in Hl; try lia.
    cbn [take drop] in *. cbn [forallb] in Hx.
    rewrite !andb_true_iff in Hx.
    destruct Hx as (H1 & H2 & H3 & H4 & H5 & H6 & _).
    rewrite !int16_hex by (done || (cbn [forallb]; by rewrite ?H1, ?H2, ?H3, ?H4, ?H5, ?H6)).
    destruct (hex_number_pair c1 c2 H1 H2) as [E1 B1].
    destruct (hex_number_pair c3 c4 H3 H4) as [E2 B2].
    destruct (hex_number_pair c5 c6 H5 H6) as [E3 B3].
    exists (hex_number [c1; c2]), (hex_number [c3; c4]), (hex_number [c5; c6]).
    split; [done|]. split; [done|]. split; [done|]. split; [done|].
    rewrite E1, E2, E3. unfold hex_number. rewrite take_0. cbn [fold_left]. lia.
Qed.

End AccentColour.

Section BootstrapFacts.

Import InitBlog InitPy Claims Invariants.

Implicit Types fs : files.
Implicit Types w : world.
Implicit Types v k s : text.

Lemma sed_rhs_literal v matched : mem "&"%char v = false -> Bash.sed_rhs v matched = v.
Proof.
  unfold Bash.sed_rhs. induction v as [|c v IH]; [done|].
  cbn [mem existsb flat_map]. intros [H1 H2]%orb_false_iff.
  rewrite (Ascii.eqb_sym c "&"%char), H1. cbn [app]. f_equal. by apply IH.
Qed.

Lemma sed_s_g_literal k v s :
  k <> [] -> mem "&"%char v = false -> Bash.sed_s_g k v s = str_replace k v s.
Proof.
  intros Hk Hv. unfold Bash.sed_s_g, str_replace. rewrite sed_rhs_literal by done.
  by destruct k.
Qed.

Lemma legacy_inert_spec v :
  legacy_inert v = true ->
  inert (T "myugc.studio") v = true /\ inert (T "My UGC Studio") v = true
  /\ inert (T "MYUGC Studio") v = true.
Proof.
  unfold legacy_inert, Bootstrap.legacy_words. cbn [forallb].
  rewrite !andb_true_iff. tauto.
Qed.

(** With values that share no border with a legacy word, the three
    substitutions leave none of the words. *)
Lemma rewrite_legacy_free (a : Bootstrap.args) s :
  sed_literal (Bootstrap.DOMAIN a) = true -> sed_literal (Bootstrap.BRAND a) = true ->
  legacy_inert (Bootstrap.DOMAIN a) = true -> legacy_inert (Bootstrap.BRAND a) = true ->
  legacy_free (Bootstrap.rewrite a s) = true.
Proof.
  unfold sed_literal.
  intros [_ Hd%negb_true_iff]%andb_true_iff [_ Hb%negb_true_iff]%andb_true_iff.
  intros (D1 & D2 & D3)%legacy_inert_spec (B1 & B2 & B3)%legacy_inert_spec.
  unfold Bootstrap.rewrite. rewrite !sed_s_g_literal by done.
  unfold legacy_free, Bootstrap.legacy_words. cbn [forallb].
  rewrite !andb_true_iff, !negb_true_iff. repeat split.
  - do 2 (apply str_replace_free; [done|done|]). by apply replace_removes.
  - apply str_replace_free; [done|done|]. by apply replace_removes.
  - by apply replace_removes.
Qed.

End BootstrapFacts.

Section BootstrapEffects.

Import InitBlog InitPy Claims Invariants.

(** X13: the bootstrap script neither adds nor removes a file; it leaves
    alone every file without one of the searched suffixes, and every file
    but the site map that holds none of the legacy words. *)
Theorem bootstrap_keeps_the_file_set
    (w : world) (argv : list text) (fs fs' : files) :
  Bootstrap.main w argv fs = Bootstrap.Done fs' ->
  dom fs' = dom fs
  /\ (forall p, searched p = false -> fs' !! p = fs !! p)
  /\ (forall p s, p <> "sitemap.xml"%string -> fs !! p = Some s ->
        legacy_free s = true -> fs' !! p = Some s).
Proof.
  intros H. split; [|split].
  - apply set_eq. intros p. rewrite !elem_of_dom.
    by destruct (bootstrap_lookup _ _ _ _ p H) as (? & _).
  - intros p. by destruct (bootstrap_lookup _ _ _ _ p H) as (_ & ? & _).
  - intros p s Hp. destruct (bootstrap_lookup _ _ _ _ p H) as (_ & _ & H3). eauto.
Qed.

(** X13, witness: the bootstrap script on a site with a note, a script and a site map. *)
Lemma bootstrap_keeps_the_file_set_sample :
  exists fs',
    Bootstrap.main Samples.offline Scenarios.vines_argv Scenarios.mixed_site
    = Bootstrap.Done fs'
    /\ dom fs' = dom Scenarios.mixed_site.
Proof.
  destruct (Bootstrap.main Samples.offline Scenarios.vines_argv Scenarios.mixed_site)
    as [fs'| |] eqn:E; [|by vm_compute in E..].
  exists fs'. split; [done|].
  exact (proj1 (bootstrap_keeps_the_file_set _ _ _ _ E)).
Defined.

(** X14: when the domain and the brand are pasted as they are and share
    no border with a legacy word (they are not empty, hold neither the
    first nor the last letter of one and are not a part of one), every
    file the bootstrap script rewrites is left without any legacy word;
    the site map apart, whose dates are reset afterwards. *)
Theorem bootstrap_removes_legacy_words
    (w : world) (argv : list text) (a : Bootstrap.args) (fs fs' : files)
    (p : string) (s : text) :
  Bootstrap.read_args argv = Some a ->
  sed_literal (Bootstrap.DOMAIN a) = true ->
  sed_literal (Bootstrap.BRAND a) = true ->
  legacy_inert (Bootstrap.DOMAIN a) = true ->
  legacy_inert (Bootstrap.BRAND a) = true ->
  Bootstrap.main w argv fs = Bootstrap.Done fs' ->
  p <> "sitemap.xml"%string ->
  fs !! p = Some s ->
  Bootstrap.listed w p s = true ->
  fs' !! p = Some (Bootstrap.rewrite a s)
  /\ legacy_free (Bootstrap.rewrite a s) = true.
Proof.
  intros Ha Hd Hb Hdi Hbi Hm Hp Hs Hl.
  split; [|by apply rewrite_legacy_free].
  unfold Bootstrap.main in Hm. rewrite Ha in Hm.
  assert (Hany : Bootstrap.any_listed w fs = true).
  { unfold Bootstrap.any_listed. apply bool_decide_eq_true. by exists p, s. }
  rewrite Hany in Hm. destruct (_ && _); [|done]. injection Hm as <-.
  rewrite reset_lastmod_other by done. rewrite rewritten_lookup, Hs.
  cbn [fmap option_fmap option_map]. by rewrite Hl.
Qed.

(** X14, witness: the script of the same site. *)
Lemma bootstrap_removes_legacy_words_sample :
  exists fs',
    Bootstrap.main Samples.offline Scenarios.vines_argv Scenarios.mixed_site
    = Bootstrap.Done fs'
    /\ fs' !! "app.js"%string = Some (T "const host = 'vines.net'; // Vines").
Proof.
  destruct (Bootstrap.main Samples.offline Scenarios.vines_argv Scenarios.mixed_site)
    as [fs'| |] eqn:E; [|by vm_compute in E..].
  exists fs'. split; [done|].
  exact (proj1 (bootstrap_removes_legacy_words Samples.offline Scenarios.vines_argv
           Scenarios.vines_args Scenarios.mixed_site fs' "app.js"
           (T "const host = 'myugc.studio'; // My UGC Studio")
           eq_refl eq_refl eq_refl eq_refl eq_refl E
           ltac:(discriminate) eq_refl eq_refl)).
Defined.

End BootstrapEffects.

(* ===================================================================== *)
(** * The dictionary, the theme configuration and a second provisioning *)
(* ===================================================================== *)

Section DictionaryFacts.

Import InitBlog InitPy Claims Invariants.

Implicit Types k v s : text.
Implicit Types e : env.

Lemma str_replace_whole k v : k <> [] -> str_replace k v k = v.
Proof.
  intros Hk. destruct k as [|c r]; [done|]. unfold str_replace.
  rewrite (scan_match _ c r v (length r)).
  - rewrite drop_all. cbn [scan]. apply app_nil_r.
  - unfold literal.
    by rewrite <- (app_nil_r (c :: r)) at 2; rewrite starts_with_app.
Qed.

Lemma replace_all_app (l1 l2 : list (text * text)) s :
  replace_all (l1 ++ l2) s = replace_all l2 (replace_all l1 s).
Proof. unfold replace_all. apply fold_left_app. Qed.

Lemma replace_all_lone (l1 l2 : list (text * text)) k v :
  k <> [] ->
  (forall k' v', (k', v') ∈ l1 -> occurs k' k = false) ->
  (forall k' v', (k', v') ∈ l2 -> occurs k' v = false) ->
  replace_all (l1 ++ (k, v) :: l2) k = v.
Proof.
  intros Hk H1 H2. rewrite replace_all_app, (replace_all_id l1) by done.
  change (replace_all ((k, v) :: l2) k) with (replace_all l2 (str_replace k v k)).
  rewrite str_replace_whole by done. by apply replace_all_id.
Qed.

(** No placeholder is a part of another one. *)
Lemma placeholders_apart k k' :
  k ∈ placeholders -> k' ∈ placeholders -> k <> k' -> occurs k' k = false.
Proof.
  assert (H : forallb (fun k => forallb (fun k' =>
                bool_decide (k = k') || negb (occurs k' k)) placeholders)
              placeholders = true) by (vm_compute; reflexivity).
  intros Hk Hk' Hne. rewrite forallb_forall in H.
  specialize (H k (proj1 (list_elem_of_In _ _) Hk)). rewrite forallb_forall in H.
  specialize (H k' (proj1 (list_elem_of_In _ _) Hk')).
  apply orb_true_iff in H as [H|H].
  - by apply bool_decide_eq_true in H.
  - by apply negb_true_iff in H.
Qed.

Lemma placeholders_NoDup : NoDup placeholders.
Proof. apply (bool_decide_unpack _). vm_compute. exact I. Qed.

Lemma find_key (l1 l2 : list (text * text)) k v :
  k ∉ map fst l1 ->
  find (fun kv => bool_decide (fst kv = k)) (l1 ++ (k, v) :: l2) = Some (k, v).
Proof.
  induction l1 as [|[k' v'] l1 IH]; cbn [map fst app find]; intros H.
  - by rewrite bool_decide_eq_true_2.
  - apply not_elem_of_cons in H as [H1 H2].
    rewrite bool_decide_eq_false_2 by done. by apply IH.
Qed.

End DictionaryFacts.

Section Dictionary.

Import InitBlog InitPy Claims Invariants.

(** X15: a placeholder standing alone becomes its value: for every entry
    of the dictionary whose value holds neither a placeholder nor the
    legacy domain, the substitution pass turns the key into the value,
    and the key names no other value. *)
Theorem lone_placeholder_becomes_its_value (e : env) (k v : text) :
  (k, v) ∈ repl e ->
  placeholder_free v = true ->
  occurs (T "myugc.studio") v = false ->
  substitute e k = v /\ value_of k (repl e) = Some v.
Proof.
  intros Hin Hv Hl.
  destruct (list_elem_of_split _ _ Hin) as (l1 & l2 & E).
  pose proof (repl_keys e) as Hk. rewrite E, map_app in Hk. cbn [map fst] in Hk.
  pose proof placeholders_NoDup as Hn. rewrite <- Hk in Hn.
  apply NoDup_app in Hn as (_ & Hn1 & Hn2). apply NoDup_cons in Hn2 as [Hn2 _].
  assert (Hkp : k ∈ placeholders).
  { rewrite <- Hk. apply elem_of_app. right. by left. }
  assert (Hne : k <> []).
  { intros ->. revert Hkp. unfold placeholders. rewrite !elem_of_cons, elem_of_nil.
    intros H. repeat (destruct H as [H|H]; [discriminate H|]). done. }
  assert (H1 : forall k' v', (k', v') ∈ l1 -> occurs k' k = false).
  { intros k' v' H'.
    assert (Hk' : k' ∈ map fst l1) by (apply list_elem_of_fmap; by exists (k', v')).
    apply placeholders_apart; [done| |].
    - rewrite <- Hk. apply elem_of_app. by left.
    - intros ->. apply (Hn1 _ Hk'). by left. }
  assert (H2 : forall k' v', (k', v') ∈ l2 -> occurs k' v = false).
  { intros k' v' H'. apply (proj1 (placeholder_free_spec v) Hv).
    rewrite <- Hk. apply elem_of_app. right. right.
    apply list_elem_of_fmap. by exists (k', v'). }
  split.
  - unfold substitute. rewrite E, (replace_all_lone l1 l2 k v Hne H1 H2).
    rewrite (str_replace_id (T "web.myugc.studio")).
    + by apply str_replace_id.
    + apply not_true_iff_false. intros Hw.
      by rewrite (occurs_trans (T "myugc.studio") (T "web.myugc.studio") v) in Hl.
  - unfold value_of. rewrite E, find_key; [done|].
    intros H'. apply (Hn1 _ H'). by left.
Qed.

(** X15, witness: the hero title of the sample arguments. *)
Lemma lone_placeholder_becomes_its_value_sample :
  substitute (export Samples.example_args) (T "__HERO_TITLE__")
  = T "Example Co: practical insights about wine".
Proof.
  refine (proj1 (lone_placeholder_becomes_its_value (export Samples.example_args)
            (T "__HERO_TITLE__") (T "Example Co: practical insights about wine")
            _ eq_refl eq_refl)).
  unfold repl. do 13 right. left.
Defined.

End Dictionary.

Section ThemeFacts.

Import ThemeInit Invariants.

Implicit Types a : args.
Implicit Types argv : list text.

Lemma theme_set_flag_keeps flag v a a' :
  set_flag flag v a = Some a' ->
  (flag <> T "--animation" -> ANIMATION a' = ANIMATION a)
  /\ (flag <> T "--speed" -> SPEED a' = SPEED a).
Proof.
  unfold set_flag. intros H.
  repeat (case_decide; [injection H as <-; by split|]). done.
Qed.

Lemma theme_parse_args_keeps (n : nat) :
  forall argv a a', length argv <= n -> parse_args argv a = Some a' ->
    (T "--animation" ∉ argv -> ANIMATION a' = ANIMATION a)
    /\ (T "--speed" ∉ argv -> SPEED a' = SPEED a).
Proof.
  induction n as [|n IH]; intros argv a a' Hn H.
  - destruct argv; [|cbn in Hn; lia]. by injection H as <-.
  - destruct argv as [|flag [|v rest]].
    + by injection H as <-.
    + cbn [parse_args] in H. by destruct (set_flag flag [] a).
    + cbn [parse_args] in H. destruct (set_flag flag v a) as [a1|] eqn:Ef; [|done].
      cbn [length] in Hn. destruct (IH rest a1 a') as [H1 H2]; [lia|done|].
      destruct (theme_set_flag_keeps _ _ _ _ Ef) as [F1 F2].
      split; intros Hnot; apply not_elem_of_cons in Hnot as [Hf Hnot];
        apply not_elem_of_cons in Hnot as [_ Hnot].
      * rewrite H1 by done. apply F1. congruence.
      * rewrite H2 by done. apply F2. congruence.
Qed.

Lemma animationType_valid (anim : text) :
  ThemeConfig.animationType anim ∈ animation_types
  /\ (anim ∈ animation_types -> ThemeConfig.animationType anim = anim).
Proof.
  unfold ThemeConfig.animationType, animation_types.
  destruct (existsb _ _) eqn:E.
  - split; [|done]. apply existsb_exists in E as (x & Hx & Hb).
    apply bool_decide_eq_true in Hb as ->. by apply list_elem_of_In.
  - split; [by left|]. intros Hin. apply list_elem_of_In in Hin.
    assert (E' : existsb (fun x => bool_decide (anim = x))
                   [T "drift"; T "pulse"; T "wave"] = true).
    { apply existsb_exists. exists anim. split; [done|].
      by apply bool_decide_eq_true. }
    congruence.
Qed.

End ThemeFacts.

Section ThemeConfiguration.

Import ThemeInit Invariants.

(** X16: in the theme-config variant the two entries of [cfg] the program
    checks are always valid: the animation type is [drift], [pulse] or
    [wave], and is the stripped [--animation] value when that is one of
    the three; the speed is between 8 and 60, and is the [--speed] value
    when that lies in the range.  Without the two flags the entries are
    [drift] and 18. *)
Theorem theme_cfg_is_valid (argv : list text) (a : args) :
  read_args argv = Some a ->
  (forall c, checked_cfg a = Some c ->
     cfg_animationType c ∈ animation_types
     /\ (strip (ANIMATION a) ∈ animation_types ->
         cfg_animationType c = strip (ANIMATION a))
     /\ (8 <= cfg_animationSpeedSec c <= 60)%Z
     /\ (forall z, ThemeConfig.int (SPEED a) = Some z -> (8 <= z <= 60)%Z ->
           cfg_animationSpeedSec c = z))
  /\ (T "--animation" ∉ argv -> T "--speed" ∉ argv ->
      checked_cfg a
      = Some {| cfg_animationType := T "drift"; cfg_animationSpeedSec := 18 |}).
Proof.
  intros Ha. split.
  - intros c. unfold checked_cfg.
    destruct (ThemeConfig.int (SPEED a)) as [speed|]; [|done]. intros [= <-].
    cbn [cfg_animationType cfg_animationSpeedSec].
    destruct (animationType_valid (strip (ANIMATION a))) as [V1 V2].
    destruct (animationSpeedSec_clamped speed) as (S1 & _ & _ & S4).
    repeat split; try done; try lia. intros z [= ->]. apply S4.
  - intros H1 H2. unfold read_args in Ha.
    destruct (parse_args argv initial_args) as [a0|] eqn:Ep; [|done].
    destruct (theme_parse_args_keeps _ _ _ _ (le_n _) Ep) as [K1 K2].
    destruct (_ || _); [done|]. injection Ha as <-.
    unfold checked_cfg. rewrite K1, K2 by done. reflexivity.
Qed.

(** X16, witness: a padded animation type and a speed beyond the range. *)
Lemma theme_cfg_is_valid_sample :
  let c := {| cfg_animationType := T "pulse"; cfg_animationSpeedSec := 60 |} in
  cfg_animationType c ∈ animation_types
  /\ (8 <= cfg_animationSpeedSec c <= 60)%Z.
Proof.
  pose proof (proj1 (theme_cfg_is_valid Scenarios.theme_argv
    {| DOMAIN := T "example.com"; BRAND := T "Example Co"; TOPIC := T "wine";
       ANIMATION := T " pulse "; SPEED := T "999" |} eq_refl)
    {| cfg_animationType := T "pulse"; cfg_animationSpeedSec := 60 |} eq_refl)
    as (H1 & _ & H2 & _).
  by split.
Defined.

End ThemeConfiguration.

Section SecondProvisioning.

Import InitBlog InitPy Claims Invariants.

(** X17: provisioning the images twice in the same world gives what
    provisioning once gives: the second pass finds the brand images and
    the canonical ones already equal and writes them back unchanged. *)
Theorem provision_twice (a : args) (w : world) (fs : files) :
  fst (provision (export a) w (fst (provision (export a) w fs)))
  = fst (provision (export a) w fs).
Proof.
  set (e := export a). set (fs1 := fst (provision e w fs)).
  destruct (export_paths_distinct a) as (H1 & H2 & H3 & H4 & H5). fold e in H1, H2, H3, H4, H5.
  destruct (provision_equal a w fs) as [El Eh]. cbn zeta in El, Eh.
  fold e in El, Eh. fold fs1 in El, Eh.
  assert (Ll : fs1 !! logo_path e
               = match fst (generate_assets e w fs) !! logo_path e with
                 | Some b => Some b
                 | None => fst (generate_assets e w fs) !! "logo.png"%string
                 end).
  { subst fs1. unfold provision. cbn [fst].
    by destruct (canonicalize_logo e (fst (generate_assets e w fs)) H1 H3 H4 H5)
      as [-> _]. }
  assert (Lh : fs1 !! hero_path e
               = match fst (generate_assets e w fs) !! hero_path e with
                 | Some b => Some b
                 | None => fst (generate_assets e w fs) !! "hero_ai.jpg"%string
                 end).
  { subst fs1. unfold provision. cbn [fst].
    by destruct (canonicalize_hero e (fst (generate_assets e w fs)) H2 H3 H4 H5)
      as [-> _]. }
  assert (Ml : match fst (generate_assets e w fs1) !! logo_path e with
               | Some b => Some b
               | None => fst (generate_assets e w fs1) !! "logo.png"%string
               end = fs1 !! logo_path e).
  { subst e. rewrite (generate_assets_canonical a w fs1 "logo.png") by by left.
    rewrite (generate_assets_logo a w fs1).
    rewrite (generate_assets_logo a w fs) in Ll.
    destruct (logo_answer w) as [img|].
    - destruct (is_empty (api_key w)).
      + rewrite <- El. by destruct (fs1 !! logo_path (export a)).
      + by rewrite Ll.
    - rewrite <- El. by destruct (fs1 !! logo_path (export a)). }
  assert (Mh : match fst (generate_assets e w fs1) !! hero_path e with
               | Some b => Some b
               | None => fst (generate_assets e w fs1) !! "hero_ai.jpg"%string
               end = fs1 !! hero_path e).
  { subst e. rewrite (generate_assets_canonical a w fs1 "hero_ai.jpg") by by right.
    rewrite (generate_assets_hero a w fs1).
    rewrite (generate_assets_hero a w fs) in Lh.
    destruct (hero_answer w) as [img|].
    - destruct (is_empty (api_key w)).
      + rewrite <- Eh. by destruct (fs1 !! hero_path (export a)).
      + by rewrite Lh.
    - rewrite <- Eh. by destruct (fs1 !! hero_path (export a)). }
  apply map_eq. intros p.
  destruct (decide (p ∈ asset_paths e)) as [Hp|Hp].
  - unfold provision at 1. cbn [fst].
    destruct (canonicalize_logo e (fst (generate_assets e w fs1)) H1 H3 H4 H5)
      as [C1 C2].
    destruct (canonicalize_hero e (fst (generate_assets e w fs1)) H2 H3 H4 H5)
      as [C3 C4].
    cbn zeta in C1, C2, C3, C4.
    unfold asset_paths in Hp. rewrite !elem_of_cons, elem_of_nil in Hp.
    destruct Hp as [->|[->|[->|[->|[]]]]].
    + by rewrite C1, Ml.
    + by rewrite C3, Mh.
    + by rewrite C2, Ml.
    + by rewrite C4, Mh.
  - by rewrite provision_other.
Qed.

End SecondProvisioning.

(* ===================================================================== *)
(** * Texts the palette patch leaves alone *)
(* ===================================================================== *)

Section PatchFrame.

Import InitBlog InitPy Claims Invariants.

Implicit Types k s b out : text.

Lemma starts_with_nowhere k s :
  occurs k s = false -> forall a b, s = a ++ b -> starts_with k b = false.
Proof.
  intros H a b E. pose proof (literal_None k [] s H a b E) as Hn.
  unfold literal in Hn. by destruct (starts_with k b).
Qed.

Lemma re_sub_id (p : piece) out s :
  (forall a b, s = a ++ b -> p b = None) -> re_sub p out s = s.
Proof.
  intros H. unfold re_sub. apply scan_id. intros a b E.
  unfold pattern. by rewrite (H a b E).
Qed.

Lemma lit_None (k : string) b : starts_with (T k) b = false -> lit k b = None.
Proof. unfold lit. by intros ->. Qed.

Lemma str_replace_same_bounded k (n : nat) :
  forall s, length s <= n -> str_replace k k s = s.
Proof.
  destruct k as [|c0 k0].
  { intros s _. cbn [str_replace app]. induction s as [|c s IH]; [done|].
    cbn [flat_map app]. by rewrite IH. }
  unfold str_replace. set (k := c0 :: k0).
  induction n as [|n IH]; intros s Hn.
  - destruct s; [done|cbn in Hn; lia].
  - destruct s as [|c r]; [done|].
    destruct (literal k k (c :: r)) as [[out m]|] eqn:El.
    + rewrite (scan_match _ _ _ _ _ El). unfold literal in El.
      destruct (starts_with k (c :: r)) eqn:Es; [|done]. injection El as <- <-.
      apply starts_with_spec in Es as [rest Er]. subst k. cbn [app] in Er.
      injection Er as -> ->. cbn [length Nat.pred].
      rewrite drop_app_length. cbn [length] in Hn. rewrite length_app in Hn.
      rewrite IH by lia. done.
    + rewrite (scan_no_match _ _ _ El). f_equal. apply IH. cbn in Hn. lia.
Qed.

(** [s.replace(k, k)] *)
Lemma str_replace_same k s : str_replace k k s = s.
Proof. by apply (str_replace_same_bounded k (length s)). Qed.

End PatchFrame.

Section PatchLeavesAlone.

Import InitBlog InitPy Claims Invariants.

(** X18: the palette patch changes nothing in a text that holds none of
    the anchors of its patterns: the four variable names, a [#], the word
    [rgba(] and the head of the radial gradients. *)
Theorem patch_leaves_anchor_free_text (e : env) (rgb : Z * Z * Z) (s : text) :
  anchor_free s = true -> patch_text e rgb s = s.
Proof.
  unfold anchor_free, patch_anchors. cbn [forallb].
  rewrite !andb_true_iff, !negb_true_iff.
  intros (A1 & A2 & A3 & A4 & A5 & A6 & A7 & _).
  pose proof (starts_with_nowhere _ _ A1) as N1.
  pose proof (starts_with_nowhere _ _ A2) as N2.
  pose proof (starts_with_nowhere _ _ A3) as N3.
  pose proof (starts_with_nowhere _ _ A4) as N4.
  pose proof (starts_with_nowhere _ _ A6) as N6.
  assert (N7 : forall (at_ : string),
            occurs (T "radial-gradient(circle at") (T at_) = true ->
            forall a b, s = a ++ b -> starts_with (T at_) b = false).
  { intros at_ Hat. apply starts_with_nowhere. apply not_true_iff_false.
    intros Ho. by rewrite (occurs_trans _ _ _ Hat Ho) in A7. }
  assert (H5 : forall k, occurs (T "#") k = true -> occurs k s = false).
  { intros k Hk. apply not_true_iff_false. intros Ho.
    by rewrite (occurs_trans _ _ _ Hk Ho) in A5. }
  unfold patch_text. destruct rgb as [[ar ag] ab].
  rewrite (re_sub_id (css_hex_var "--bg-dark:"));
    [|intros a b E; unfold css_hex_var, seq; by rewrite (lit_None _ _ (N1 a b E))].
  rewrite (re_sub_id css_gradient_var);
    [|intros a b E; unfold css_gradient_var, seq; by rewrite (lit_None _ _ (N2 a b E))].
  rewrite (re_sub_id (css_hex_var "--accent-green:"));
    [|intros a b E; unfold css_hex_var, seq; by rewrite (lit_None _ _ (N3 a b E))].
  rewrite (re_sub_id (css_hex_var "--accent-hover:"));
    [|intros a b E; unfold css_hex_var, seq; by rewrite (lit_None _ _ (N4 a b E))].
  rewrite !str_replace_same.
  cbn [combine legacy_hex fold_left]. unfold replace_legacy_hex. cbn [fst snd].
  do 10 rewrite (str_replace_id _ _ s) by (apply H5; reflexivity).
  do 3 rewrite (scan_id _ s)
    by (intros a b E; unfold rgba_legacy, rgba_head, seq;
        by rewrite (lit_None _ _ (N6 a b E))).
  assert (R1 : forall out,
            re_sub (radial "radial-gradient(circle at 15% 25%,") out s = s).
  { intros out. apply re_sub_id. intros a b E. unfold radial, seq.
    rewrite (lit_None "radial-gradient(circle at 15% 25%," b); [done|].
    by apply (N7 "radial-gradient(circle at 15% 25%," eq_refl a b). }
  assert (R2 : forall out,
            re_sub (radial "radial-gradient(circle at 85% 15%,") out s = s).
  { intros out. apply re_sub_id. intros a b E. unfold radial, seq.
    rewrite (lit_None "radial-gradient(circle at 85% 15%," b); [done|].
    by apply (N7 "radial-gradient(circle at 85% 15%," eq_refl a b). }
  etrans; [apply f_equal, R1|]. apply R2.
Qed.

(** X18, witness: a link without any colour. *)
Lemma patch_leaves_anchor_free_text_sample :
  patch_text (export Samples.example_args) (182, 58, 90)%Z
    (T "<a href=/logo.png>home</a>")
  = T "<a href=/logo.png>home</a>".
Proof.
  exact (patch_leaves_anchor_free_text (export Samples.example_args) (182, 58, 90)%Z
           (T "<a href=/logo.png>home</a>") eq_refl).
Defined.

End PatchLeavesAlone.

(* ===================================================================== *)
(** * The messages of a run and sed's ampersand *)
(* ===================================================================== *)

Section Messages.

Import InitBlog InitPy Claims Invariants.

Lemma generate_assets_messages e w fs :
  snd (generate_assets e w fs)
  = if is_empty (api_key w) then []
    else [match logo_answer w with
          | Some _ => logo_generated
          | None => logo_generation_failed
          end;
          match hero_answer w with
          | Some _ => hero_generated
          | None => hero_generation_failed
          end].
Proof.
  unfold generate_assets, try_generate. destruct (is_empty _); [done|].
  by destruct (logo_answer w), (hero_answer w).
Qed.

Lemma main_messages e w fs :
  printed (main e w fs)
  = snd (generate_assets e w fs)
    ++ match how (main e w fs) with
       | Finished => [placeholders_applied]
       | _ => []
       end.
Proof.
  unfold main, provision. cbn [fst snd].
  destruct (materialize _); cbn [printed how]; [by rewrite app_nil_r|].
  destruct (patch_blog_template_palette _ _); cbn [printed how];
    [done|by rewrite app_nil_r].
Qed.

(** X19: what a run prints, whenever the Python program is reached:
    without a credential nothing about the images; with one, a line for
    the logo and then a line for the hero image, [ok] or [warn] as the
    service answered; and last, exactly when the run ends with status 0,
    the line that the placeholders were applied. *)
Theorem messages_of_a_run
    (w : world) (argv : list text) (a : args) (fs : files) :
  read_args argv = Some a ->
  Orchestrator.status (Orchestrator.init_blog w argv fs) <> Orchestrator.BeyondModel ->
  Orchestrator.log (Orchestrator.init_blog w argv fs)
  = (if is_empty (api_key w) then []
     else [match logo_answer w with
           | Some _ => logo_generated
           | None => logo_generation_failed
           end;
           match hero_answer w with
           | Some _ => hero_generated
           | None => hero_generation_failed
           end])
    ++ match Orchestrator.status (Orchestrator.init_blog w argv fs) with
       | Orchestrator.Exit0 => [placeholders_applied]
       | _ => []
       end.
Proof.
  intros Ha. unfold Orchestrator.init_blog. rewrite Ha.
  destruct (Bootstrap.main _ _ _) as [fs1| |] eqn:Hb; [| |done].
  2:{ by apply (bootstrap_not_Failed w) with (fs := fs) in Ha. }
  intros _. rewrite <- (generate_assets_messages (export a) w fs1).
  pose proof (main_messages (export a) w fs1) as Hm.
  destruct (how (main (export a) w fs1));
    cbn [Orchestrator.log Orchestrator.status]; exact Hm.
Qed.

(** X19, witness: a logo that is generated and a hero image that is not. *)
Lemma messages_of_a_run_sample :
  Orchestrator.log
    (Orchestrator.init_blog Scenarios.with_convert Samples.example_argv
       Scenarios.mixed_site)
  = [logo_generated; hero_generation_failed; placeholders_applied].
Proof.
  exact (messages_of_a_run Scenarios.with_convert Samples.example_argv
           Samples.example_args Scenarios.mixed_site eq_refl
           ltac:(vm_compute; discriminate)).
Defined.

End Messages.

Section Ampersand.

Import InitBlog Invariants.

Implicit Types k v s out : text.

Lemma occurs_cons_inv k (c : ascii) s :
  occurs k (c :: s) = true -> starts_with k (c :: s) = false -> occurs k s = true.
Proof.
  intros H Hs.
  change (occurs k (c :: s)) with (starts_with k (c :: s) || occurs k s) in H.
  by rewrite Hs in H.
Qed.

(** Where the pattern occurs, a literal substitution writes its
    replacement. *)
Lemma scan_literal_writes k out s :
  k <> [] -> occurs k s = true -> occurs out (scan (literal k out) 0 s) = true.
Proof.
  intros Hk. induction s as [|c s IH]; intros Ho.
  - destruct k; [done|]. done.
  - destruct (starts_with k (c :: s)) eqn:Es.
    + rewrite (scan_match _ c s out (Nat.pred (length k)))
        by (unfold literal; by rewrite Es).
      apply (occurs_here out [] _).
    + rewrite scan_no_match by (unfold literal; by rewrite Es).
      apply (occurs_skip out [c]). apply IH. by apply occurs_cons_inv in Ho.
Qed.

Lemma sed_rhs_holds_match v matched :
  mem "&"%char v = true -> occurs matched (Bash.sed_rhs v matched) = true.
Proof.
  unfold Bash.sed_rhs. induction v as [|c v IH]; [done|].
  cbn [mem existsb flat_map]. rewrite (Ascii.eqb_sym "&"%char c).
  destruct (Ascii.eqb c "&"%char); cbn [orb].
  - intros _. apply occurs_take, occurs_refl.
  - intros H. apply (occurs_skip matched [c]). by apply IH.
Qed.

End Ampersand.

Section AmpersandInValue.

Import InitBlog Invariants.

(** X20: for each of the three legacy words, a value with an ampersand
    in it (and no slash, backslash or newline, so that the ampersand is
    not escaped) does not remove the word: sed reads the ampersand as
    the matched text, so wherever the word stood it stands again after
    the substitution. *)
Theorem sed_ampersand_keeps_the_word (k v s : text) :
  k ∈ Bootstrap.legacy_words ->
  Bash.sed_rhs_plain v = true ->
  mem "&"%char v = true ->
  occurs k s = true ->
  occurs k (Bash.sed_s_g k v s) = true.
Proof.
  intros Hin _ Hv Ho.
  assert (Hk : k <> []).
  { intros ->. revert Hin. unfold Bootstrap.legacy_words.
    rewrite !elem_of_cons, elem_of_nil. intros [?|[?|[?|[]]]]; discriminate. }
  unfold Bash.sed_s_g. destruct k as [|c k0] eqn:E; [done|].
  rewrite <- E in *.
  apply (occurs_trans k (Bash.sed_rhs v k)).
  - by apply sed_rhs_holds_match.
  - by apply scan_literal_writes.
Qed.

(** X20, witness: a brand with an ampersand. *)
Lemma sed_ampersand_keeps_the_word_sample :
  occurs (T "My UGC Studio")
    (Bash.sed_s_g (T "My UGC Studio") (T "Food & Wine")
       (T "<title>My UGC Studio</title>")) = true.
Proof.
  exact (sed_ampersand_keeps_the_word (T "My UGC Studio") (T "Food & Wine")
           (T "<title>My UGC Studio</title>")
           ltac:(right; left) eq_refl eq_refl eq_refl).
Defined.

End AmpersandInValue.

(* ===================================================================== *)
(** * The subscribe address in the pages *)
(* ===================================================================== *)

Section LonePlaceholder.

Import InitBlog InitPy Claims Invariants.

Implicit Types k v s x y a b u w t : text.
Implicit Types e : env.

Lemma app_same_length_l x y a b :
  x ++ y = a ++ b -> length x = length a -> x = a /\ y = b.
Proof. intros E Hl. by apply app_inj_1. Qed.

(** An occurrence of [k] in [x ++ v ++ y], where [x] and [y] hold no
    mark, [k] holds one and the seams are guarded, is [v] itself. *)
Lemma guarded_split k v x y a b :
  guarded k v = true ->
  (occurs v k = true -> k = v) -> (occurs k v = true -> k = v) ->
  occurs mark k = true ->
  occurs mark x = false -> occurs mark y = false ->
  x ++ v ++ y = a ++ k ++ b -> k = v /\ a = x /\ b = y.
Proof.
  intros Hg H1 H2 Hm Hx Hy E.
  assert (Hkx : forall a' u', x <> a' ++ k ++ u').
  { intros a' u' ->. apply not_true_iff_false in Hx. apply Hx.
    apply (occurs_trans mark k); [done | apply occurs_here]. }
  assert (Hky : forall a' u', y <> a' ++ k ++ u').
  { intros a' u' ->. apply not_true_iff_false in Hy. apply Hy.
    apply (occurs_trans mark k); [done | apply occurs_here]. }
  assert (G : forall i, 1 <= i < length k ->
            (starts_with (drop i k) v = true -> occurs mark (take i k) = true)
            /\ (ends_with (take i k) v = true -> occurs mark (drop i k) = true)).
  { intros i Hi. unfold guarded in Hg. rewrite forallb_forall in Hg.
    specialize (Hg i). rewrite in_seq, andb_true_iff in Hg.
    destruct Hg as [G1 G2]; [lia|].
    split; intros Hs; [by rewrite Hs in G1 | by rewrite Hs in G2]. }
  apply app_eq_inv in E as [(w & -> & E) | (w & -> & E)].
  - (* the occurrence starts within [x] *)
    apply app_eq_inv in E as [(u & Ek & E) | (u & -> & E)].
    + destruct u as [|u0 u'].
      { exfalso. rewrite app_nil_r in Ek. subst w. apply (Hkx a []).
        by rewrite app_nil_r. }
      symmetry in E.
      apply app_eq_inv in E as [(t & Eu & Eb) | (t & Ev & Eb)].
      * (* [v] lies inside [k] *)
        assert (Hkv : k = v).
        { apply H1, occurs_spec. exists w, t. by rewrite Ek, Eu. }
        assert (Hl : length w = 0 /\ length t = 0).
        { apply (f_equal length) in Ek. rewrite Eu, Hkv, !length_app in Ek. lia. }
        destruct Hl as [Hw Ht]. apply nil_length_inv in Hw, Ht. subst w t.
        rewrite app_nil_r. cbn [app] in Eb. by rewrite Eb.
      * (* an end of [k] begins [v] *)
        destruct w as [|w0 w'].
        { cbn [app] in Ek. subst k. rewrite app_nil_r.
          assert (Hkv : u0 :: u' = v).
          { apply H2, occurs_spec. exists [], t. by rewrite Ev. }
          rewrite <- Hkv in Ev.
          assert (t = []).
          { apply (f_equal length) in Ev. rewrite length_app in Ev.
            apply nil_length_inv. lia. }
          subst t. cbn [app] in Eb. by rewrite Eb. }
        exfalso. destruct (G (length (w0 :: w'))) as [G1 _].
        { rewrite Ek, length_app. cbn [length]. lia. }
        rewrite Ek, drop_app_length, take_app_length in G1.
        apply not_true_iff_false in Hx. apply Hx.
        apply (occurs_trans mark (w0 :: w')).
        -- apply G1, starts_with_spec. eauto.
        -- apply occurs_spec. exists a, []. by rewrite app_nil_r.
    + exfalso. by apply (Hkx a u).
  - (* the occurrence starts at or after the start of [v] *)
    symmetry in E.
    apply app_eq_inv in E as [(u & -> & E) | (u & Ev & E)].
    + exfalso. by apply (Hky u b).
    + destruct u as [|u0 u'].
      { exfalso. cbn [app] in E. apply (Hky [] b). by rewrite <- E. }
      apply app_eq_inv in E as [(t & Ek & Ey) | (t & Eu & Ey)].
      * (* a beginning of [k] ends [v] *)
        destruct t as [|t0 t'].
        { rewrite app_nil_r in Ek. subst k.
          assert (Hkv : u0 :: u' = v).
          { apply H2, occurs_spec. exists w, []. by rewrite app_nil_r. }
          rewrite <- Hkv in Ev.
          assert (w = []).
          { apply (f_equal length) in Ev. rewrite length_app in Ev.
            apply nil_length_inv. lia. }
          subst w. rewrite app_nil_r. cbn [app] in Ey. by rewrite Ey. }
        exfalso. destruct (G (length (u0 :: u'))) as [_ G2].
        { rewrite Ek, length_app. cbn [length]. lia. }
        rewrite Ek, drop_app_length, take_app_length in G2.
        apply not_true_iff_false in Hy. apply Hy.
        apply (occurs_trans mark (t0 :: t')).
        -- apply G2, ends_with_spec. eauto.
        -- apply occurs_spec. exists [], b. by rewrite Ey.
      * (* [k] lies inside [v] *)
        assert (Hkv : k = v).
        { apply H2, occurs_spec. exists w, t. by rewrite Ev, Eu. }
        assert (Hl : length w = 0 /\ length t = 0).
        { apply (f_equal length) in Ev. rewrite Eu, Hkv, !length_app in Ev. lia. }
        destruct Hl as [Hw Ht]. apply nil_length_inv in Hw, Ht. subst w t.
        rewrite app_nil_r. cbn [app] in Ey. by rewrite Ey.
Qed.

(** A literal substitution where the pattern occurs once. *)
Lemma str_replace_once k v x y :
  k <> [] ->
  (forall a b, x ++ k ++ y = a ++ k ++ b -> a = x /\ b = y) ->
  str_replace k v (x ++ k ++ y) = x ++ v ++ y.
Proof.
  intros Hk. destruct k as [|c k'] eqn:Ek; [done|]. rewrite <- Ek in *.
  assert (Hrep : forall s, str_replace k v s = scan (literal k v) 0 s)
    by (by rewrite Ek).
  rewrite Hrep. clear Hrep.
  induction x as [|d x IH]; intros H.
  - cbn [app]. rewrite Ek at 2. cbn [app].
    rewrite (scan_match _ c (k' ++ y) v (length k')).
    + rewrite drop_app_length. f_equal. apply scan_id, literal_None.
      apply occurs_false. intros a b Ey.
      destruct (H (k ++ a) b) as [Hnil _].
      { cbn [app]. rewrite Ey. by rewrite <- !app_assoc. }
      rewrite Ek in Hnil. discriminate Hnil.
    + unfold literal. change (c :: k' ++ y) with ((c :: k') ++ y).
      rewrite <- Ek, starts_with_app. by rewrite Ek.
  - cbn [app]. rewrite scan_no_match.
    + f_equal. apply IH. intros a b E.
      destruct (H (d :: a) b) as [Ha Hb]; [by cbn [app]; rewrite E|].
      by injection Ha as ->.
    + unfold literal. destruct (starts_with k (d :: x ++ k ++ y)) eqn:Es; [|done].
      apply starts_with_spec in Es as [r Er].
      destruct (H [] r) as [Hnil _]; [by cbn [app]; rewrite Er|]. discriminate Hnil.
Qed.

Lemma read_text_plain x z : mem cr x = false -> read_text (x ++ z) = x ++ read_text z.
Proof.
  induction x as [|c x IH]; [done|]. cbn [mem existsb].
  intros [Hc Hx]%orb_false_iff. cbn [app]. unfold read_text.
  rewrite scan_no_match.
  - f_equal. by apply IH.
  - apply line_end_None. intros ->. by rewrite Ascii.eqb_refl in Hc.
Qed.

End LonePlaceholder.

Section SubscribeAddress.

Import InitBlog InitPy Claims Invariants.

Implicit Types k v s x y : text.
Implicit Types e : env.
Implicit Types fs : files.
Implicit Types w : world.
Implicit Types a : args.

Lemma placeholder_seams k :
  k ∈ placeholders ->
  guarded k (T "__SUBSCRIBE_EMAIL__") = true
  /\ (occurs (T "__SUBSCRIBE_EMAIL__") k = true -> k = T "__SUBSCRIBE_EMAIL__")
  /\ (occurs k (T "__SUBSCRIBE_EMAIL__") = true -> k = T "__SUBSCRIBE_EMAIL__")
  /\ occurs mark k = true.
Proof.
  assert (H : forallb (fun k =>
                guarded k (T "__SUBSCRIBE_EMAIL__")
                && implb (occurs (T "__SUBSCRIBE_EMAIL__") k)
                     (bool_decide (k = T "__SUBSCRIBE_EMAIL__"))
                && implb (occurs k (T "__SUBSCRIBE_EMAIL__"))
                     (bool_decide (k = T "__SUBSCRIBE_EMAIL__"))
                && occurs mark k) placeholders = true)
    by (vm_compute; reflexivity).
  intros Hk. rewrite forallb_forall in H.
  specialize (H k (proj1 (list_elem_of_In _ _) Hk)).
  rewrite !andb_true_iff in H. destruct H as [[[G I1] I2] M].
  split; [done|]. split; [|split; [|done]].
  - intros Ho. rewrite Ho in I1. by apply bool_decide_eq_true in I1.
  - intros Ho. rewrite Ho in I2. by apply bool_decide_eq_true in I2.
Qed.

(** Between two texts without the mark, the subscribe placeholder is the
    only placeholder. *)
Lemma subscribe_key_alone k x y (l r : text) :
  k ∈ placeholders ->
  occurs mark x = false -> occurs mark y = false ->
  x ++ T "__SUBSCRIBE_EMAIL__" ++ y = l ++ k ++ r ->
  k = T "__SUBSCRIBE_EMAIL__" /\ l = x /\ r = y.
Proof.
  intros (G & I1 & I2 & M)%placeholder_seams Hx Hy.
  by apply guarded_split.
Qed.

Lemma repl_split e :
  repl e = firstn 15 (repl e) ++ [(T "__SUBSCRIBE_EMAIL__", INIT_SUBSCRIBE_EMAIL e)].
Proof. reflexivity. Qed.

Lemma repl_front_keys e k v :
  (k, v) ∈ firstn 15 (repl e) ->
  k ∈ placeholders /\ k <> T "__SUBSCRIBE_EMAIL__".
Proof.
  unfold repl. cbn [firstn]. rewrite !elem_of_cons, elem_of_nil. intros H.
  repeat (destruct H as [[= -> _]|H];
          [split; [unfold placeholders; rewrite !elem_of_cons; tauto
                  |discriminate]|]).
  done.
Qed.

(** The loop over the dictionary, on the placeholder between two texts
    without the mark. *)
Lemma replace_all_subscribe e x y :
  occurs mark x = false -> occurs mark y = false ->
  replace_all (repl e) (x ++ T "__SUBSCRIBE_EMAIL__" ++ y)
  = x ++ INIT_SUBSCRIBE_EMAIL e ++ y.
Proof.
  intros Hx Hy.
  rewrite repl_split, replace_all_app, (replace_all_id (firstn 15 (repl e))).
  - change (replace_all [(?k, ?v)] ?s) with (str_replace k v s).
    apply str_replace_once; [done|]. intros l r E.
    apply subscribe_key_alone in E as (_ & -> & ->); try done.
    unfold placeholders. rewrite !elem_of_cons. tauto.
  - intros k v [Hk Hne]%repl_front_keys. apply occurs_false. intros l r E.
    apply subscribe_key_alone in E as (E & _); done.
Qed.

(** The whole pass on such a file. *)
Lemma rewritten_subscribe e x y :
  occurs mark x = false -> occurs mark y = false ->
  occurs (T "myugc.studio") (read_text x ++ INIT_SUBSCRIBE_EMAIL e ++ read_text y)
  = false ->
  rewritten e (x ++ T "__SUBSCRIBE_EMAIL__" ++ y)
  = read_text x ++ INIT_SUBSCRIBE_EMAIL e ++ read_text y.
Proof.
  intros Hx Hy Hl. unfold rewritten.
  rewrite read_text_app by done.
  rewrite (read_text_plain (T "__SUBSCRIBE_EMAIL__")) by done.
  unfold substitute.
  rewrite replace_all_subscribe by (by apply read_text_clear).
  rewrite (str_replace_id (T "web.myugc.studio")).
  - by apply str_replace_id.
  - apply not_true_iff_false. intros Hw.
    by rewrite (occurs_trans (T "myugc.studio") (T "web.myugc.studio") _) in Hl.
Qed.

End SubscribeAddress.

Section SubscribeClaim.

Import InitBlog InitPy Claims Invariants.

Implicit Types fs : files.
Implicit Types w : world.
Implicit Types a : args.

Lemma rewritten_read e s : rewritten e (read_text s) = rewritten e s.
Proof. unfold rewritten. by rewrite read_text_twice. Qed.

(** What a successful run leaves in an HTML file that is neither a policy
    page nor the post template, when the file it is made from holds no
    legacy word: the text the substitution pass makes of that file. *)
Lemma final_of_source w argv a fs p s :
  read_args argv = Some a ->
  Orchestrator.status (Orchestrator.init_blog w argv fs) = Orchestrator.Exit0 ->
  is_html p = true -> p ∉ policy_paths -> p <> template_path ->
  fs !! source_of p = Some s ->
  legacy_free s = true ->
  Orchestrator.final (Orchestrator.init_blog w argv fs) !! p
  = Some (rewritten (export a) s).
Proof.
  intros Ha Hs Hp Hpol Htpl Hsrc Hfree.
  apply (init_blog_Exit0 _ _ _ _ Ha) in Hs as (fs0 & Hb & Hf).
  destruct (main_html_lookup _ _ _ Hf) as (home & blog & rgb & Hh & Hbl & _ & Hl).
  rewrite (init_blog_final_html _ _ _ _ _ _ Ha Hb Hf Hp), (Hl p Hp).
  assert (Hkeep : forall q, q <> "sitemap.xml"%string ->
            fs !! q = Some s -> fs0 !! q = Some s).
  { intros q Hq E. destruct (bootstrap_lookup _ _ _ _ q Hb) as (_ & _ & H3).
    by apply H3. }
  unfold html_after. rewrite !decide_False by done.
  unfold materialized. unfold source_of in Hsrc.
  destruct (decide (p ∈ blog_pages)) as [Hin|Hin].
  - rewrite (Hkeep blog_shell) in Hbl by done. injection Hbl as <-.
    cbn [option_map]. by rewrite rewritten_read.
  - destruct (decide (p = "index.html"%string)) as [->|Hidx].
    + rewrite (Hkeep home_shell) in Hh by done. injection Hh as <-.
      cbn [option_map]. by rewrite rewritten_read.
    + rewrite (Hkeep p); [done| |done]. by intros ->.
Qed.




End SubscribeClaim.

(* ===================================================================== *)
(** * Running the orchestrator a second time *)
(* ===================================================================== *)

Section StableValues.

Import InitBlog InitPy Claims Invariants Reruns.

Implicit Types k v s : text.
Implicit Types e : env.

Lemma replace_all_keeps_clear (kvs : list (text * text)) k s :
  (forall k' v', (k', v') ∈ kvs -> k' <> [] /\ seamless k v') ->
  occurs k s = false -> occurs k (replace_all kvs s) = false.
Proof.
  unfold replace_all. revert s.
  induction kvs as [|[k0 v0] kvs IH]; intros s Hin Hs; [done|].
  cbn [fold_left fst snd]. apply IH.
  - intros k' v' H. apply Hin. by right.
  - destruct (Hin k0 v0) as [Hk0 Hv0]; [left|]. by apply str_replace_clear.
Qed.

Lemma mem_occurs (c : ascii) s : mem c s = occurs [c] s.
Proof.
  induction s as [|d s IH]; [done|]. cbn [mem existsb occurs starts_with].
  fold (mem c s). by rewrite IH, andb_true_r.
Qed.

(** A value that is not empty and holds no carriage return can be
    spliced in without making one. *)
Lemma cr_seamless v : v <> [] -> mem cr v = false -> seamless [cr] v.
Proof.
  intros Hne Hc. apply inert_seamless. unfold inert.
  cbn [hd_error last]. rewrite Hc. destruct v as [|c v]; [done|].
  cbn [negb andb]. apply negb_true_iff, not_true_iff_false. intros Ho.
  apply not_true_iff_false in Hc. apply Hc, mem_spec.
  assert (Hin : c ∈ [cr]) by (apply (occurs_chars _ _ _ Ho); left).
  apply list_elem_of_singleton in Hin as ->. left.
Qed.

Lemma repl_key_nonempty e k v : (k, v) ∈ repl e -> k <> [].
Proof.
  intros H ->.
  assert (Hk : [] ∈ placeholders).
  { rewrite <- (repl_keys e). apply list_elem_of_fmap. by exists ([], v). }
  revert Hk. unfold placeholders. rewrite !elem_of_cons, elem_of_nil.
  intros Hk. repeat (destruct Hk as [Hk|Hk]; [discriminate Hk|]). done.
Qed.

(** What [stable_values] says, value by value. *)
Lemma stable_values_spec e :
  stable_values e = true ->
  inert_values e = true
  /\ (forall v, v ∈ map snd (repl e) ->
        v <> [] /\ mem cr v = false
        /\ forall k, k ∈ brand_words -> apart k v = true)
  /\ (forall k, k ∈ Bootstrap.legacy_words -> apart k (INIT_BRAND e) = true)
  /\ apart legacy_domain (INIT_DOMAIN e) = true
  /\ mem "&"%char (INIT_DOMAIN e) = false
  /\ mem "&"%char (INIT_BRAND e) = false.
Proof.
  unfold stable_values. rewrite !andb_true_iff, !negb_true_iff.
  intros [[[[[[Hi Hc] Hb] Hl] Hd] Ha1] Ha2].
  split; [done|]. split; [|split; [|done]].
  - intros v Hv. rewrite forallb_forall in Hc, Hb.
    apply list_elem_of_In in Hv. specialize (Hc v Hv). specialize (Hb v Hv).
    apply negb_true_iff in Hc. rewrite forallb_forall in Hb.
    split; [|split; [done|]].
    + intros ->. pose proof (inert_values_spec e Hi (T "__BRAND__") []) as H.
      assert (Hk : T "__BRAND__" ∈ placeholders) by left.
      specialize (H Hk (proj2 (list_elem_of_In _ _) Hv)). discriminate H.
    + intros k Hk. apply Hb. by apply list_elem_of_In.
  - intros k Hk. rewrite forallb_forall in Hl. apply Hl. by apply list_elem_of_In.
Qed.

Lemma domain_is_value e : INIT_DOMAIN e ∈ map snd (repl e).
Proof. unfold repl. cbn [map snd]. right. left. Qed.

(** The three substitutions of the bootstrap script leave no legacy word
    when the values are spliced in as they are. *)
Lemma rewrite_clean (a : Bootstrap.args) s :
  mem "&"%char (Bootstrap.DOMAIN a) = false ->
  mem "&"%char (Bootstrap.BRAND a) = false ->
  apart legacy_domain (Bootstrap.DOMAIN a) = true ->
  (forall k, k ∈ Bootstrap.legacy_words -> apart k (Bootstrap.BRAND a) = true) ->
  legacy_free (Bootstrap.rewrite a s) = true.
Proof.
  intros Hd Hb Ad Ab.
  assert (B1 : seamless (T "myugc.studio") (Bootstrap.BRAND a))
    by (apply apart_seamless, Ab; left).
  assert (B2 : seamless (T "My UGC Studio") (Bootstrap.BRAND a))
    by (apply apart_seamless, Ab; right; left).
  assert (B3 : seamless (T "MYUGC Studio") (Bootstrap.BRAND a))
    by (apply apart_seamless, Ab; do 2 right; left).
  apply apart_seamless in Ad.
  unfold Bootstrap.rewrite. rewrite !sed_s_g_literal by done.
  unfold legacy_free, Bootstrap.legacy_words. cbn [forallb].
  rewrite !andb_true_iff, !negb_true_iff. repeat split.
  - do 2 (apply str_replace_clear; [done|done|]). by apply replace_clears.
  - apply str_replace_clear; [done|done|]. by apply replace_clears.
  - by apply replace_clears.
Qed.

Section Pass.

Variable e : env.
Hypothesis Hst : stable_values e = true.

(** The text the pass leaves holds no placeholder, no legacy domain and
    no carriage return. *)
Lemma rewritten_quiet s :
  placeholder_free (rewritten e s) = true
  /\ occurs (T "myugc.studio") (rewritten e s) = false
  /\ mem cr (rewritten e s) = false.
Proof using Hst.
  destruct (stable_values_spec e Hst) as (Hi & Hv & _ & Hd & _).
  unfold rewritten. split; [by apply substitute_free|]. split.
  - unfold substitute. apply replace_clears; [done|]. by apply apart_seamless.
  - rewrite mem_occurs. unfold substitute.
    destruct (Hv _ (domain_is_value e)) as (Dn & Dc & _).
    do 2 (apply str_replace_clear; [done | by apply cr_seamless |]).
    apply replace_all_keeps_clear.
    + intros k v Hin. split; [by eapply repl_key_nonempty|].
      destruct (Hv v) as (Vn & Vc & _); [|by apply cr_seamless].
      apply list_elem_of_fmap. by exists (k, v).
    + rewrite <- mem_occurs. apply read_text_no_cr.
Qed.

(** The pass keeps a text clean of legacy words. *)
Lemma rewritten_clean s : legacy_free s = true -> legacy_free (rewritten e s) = true.
Proof using Hst.
  destruct (stable_values_spec e Hst) as (Hi & Hv & _ & Hd & _).
  intros (L1 & L2 & L3)%legacy_free_spec.
  destruct (rewritten_quiet s) as (_ & Q1 & _).
  assert (Hk : forall k, k ∈ brand_words -> occurs k s = false ->
            occurs k (rewritten e s) = false).
  { intros k Hk Hs. unfold rewritten, substitute.
    assert (Hn : inert k [nl] = true).
    { revert Hk. unfold brand_words. rewrite !elem_of_cons, elem_of_nil.
      by intros [->|[->|[]]]. }
    assert (Sd : seamless k (INIT_DOMAIN e)).
    { destruct (Hv _ (domain_is_value e)) as (_ & _ & Hb). by apply apart_seamless, Hb. }
    do 2 (apply str_replace_clear; [done|done|]).
    apply replace_all_keeps_clear; [|by apply read_text_clear].
    intros k' v Hin. split; [by eapply repl_key_nonempty|].
    destruct (Hv v) as (_ & _ & Hb); [|by apply apart_seamless, Hb].
    apply list_elem_of_fmap. by exists (k', v). }
  unfold legacy_free, Bootstrap.legacy_words. cbn [forallb].
  rewrite Q1, (Hk (T "My UGC Studio")), (Hk (T "MYUGC Studio")); try done;
    unfold brand_words; rewrite !elem_of_cons; tauto.
Qed.

(** On a text it has left, the pass changes nothing. *)
Lemma rewritten_twice s : rewritten e (rewritten e s) = rewritten e s.
Proof using Hst.
  destruct (rewritten_quiet s) as (Q0 & Q1 & Q2).
  unfold rewritten at 1. rewrite read_text_id by done.
  unfold substitute. rewrite replace_all_id.
  - rewrite (str_replace_id (T "web.myugc.studio")).
    + by apply str_replace_id.
    + apply not_true_iff_false. intros Hw.
      by rewrite (occurs_trans (T "myugc.studio") (T "web.myugc.studio") _) in Q1.
  - intros k v Hin. apply (proj1 (placeholder_free_spec _) Q0).
    rewrite <- (repl_keys e). apply list_elem_of_fmap. by exists (k, v).
Qed.

End Pass.

End StableValues.

Section BootstrapAgain.

Import InitBlog InitPy Claims Invariants Reruns.

Implicit Types fs : files.
Implicit Types w : world.
Implicit Types s : text.

Lemma unlisted_legacy_free w p s :
  Bootstrap.listed w p s = false ->
  search_visits w p = true -> searched p = true -> legacy_free s = true.
Proof.
  unfold Bootstrap.listed. fold (searched p). intros H Hv Hs.
  rewrite Hv, Hs in H. cbn [andb] in H.
  rewrite (grep_Eq_occurs _ _ legacy_words_inert) in H.
  unfold legacy_free. revert H.
  induction Bootstrap.legacy_words as [|k l IH]; [done|]. cbn [existsb forallb].
  intros [-> H]%orb_false_iff. cbn [negb andb]. by apply IH.
Qed.

(** What the bootstrap script leaves in a file other than the site map. *)
Lemma bootstrap_file w argv (b : Bootstrap.args) fs fs0 p :
  Bootstrap.read_args argv = Some b ->
  Bootstrap.main w argv fs = Bootstrap.Done fs0 ->
  p <> "sitemap.xml"%string ->
  fs0 !! p
  = (fun s => if Bootstrap.listed w p s then Bootstrap.rewrite b s else s) <$> fs !! p.
Proof.
  intros Hb. unfold Bootstrap.main. rewrite Hb.
  destruct (Bootstrap.any_listed w fs) eqn:Hany.
  - destruct (_ && _); [|done]. intros [= <-] Hp.
    by rewrite reset_lastmod_other, rewritten_lookup.
  - intros [= <-] Hp. rewrite reset_lastmod_other by done.
    destruct (fs !! p) as [s|] eqn:Es; [|done]. cbn [fmap option_fmap option_map].
    destruct (Bootstrap.listed w p s) eqn:El; [|done].
    exfalso. unfold Bootstrap.any_listed in Hany.
    apply bool_decide_eq_false in Hany. apply Hany. by exists p, s.
Qed.

(** After the bootstrap script, a searched file that the search visits
    holds no legacy word, when the domain and the brand are spliced in as
    they are. *)
Lemma bootstrap_cleans w argv (b : Bootstrap.args) fs fs0 p s :
  Bootstrap.read_args argv = Some b ->
  mem "&"%char (Bootstrap.DOMAIN b) = false ->
  mem "&"%char (Bootstrap.BRAND b) = false ->
  apart legacy_domain (Bootstrap.DOMAIN b) = true ->
  (forall k, k ∈ Bootstrap.legacy_words -> apart k (Bootstrap.BRAND b) = true) ->
  Bootstrap.main w argv fs = Bootstrap.Done fs0 ->
  p <> "sitemap.xml"%string ->
  search_visits w p = true -> searched p = true ->
  fs0 !! p = Some s -> legacy_free s = true.
Proof.
  intros Hb A1 A2 A3 A4 Hm Hp Hv Hs.
  rewrite (bootstrap_file _ _ _ _ _ _ Hb Hm Hp).
  destruct (fs !! p) as [s0|]; [|done]. cbn [fmap option_fmap option_map].
  destruct (Bootstrap.listed w p s0) eqn:El; intros [= <-].
  - by apply rewrite_clean.
  - by apply (unlisted_legacy_free w p).
Qed.

End BootstrapAgain.

Section SecondRunClaim.

Import InitBlog InitPy Claims Invariants Reruns.

Implicit Types fs : files.
Implicit Types w : world.
Implicit Types a : args.


End SecondRunClaim.

Section SecondRunSamples.

Import InitBlog InitPy Claims Invariants Reruns.



End SecondRunSamples.
